(** * objc-cffi: the reflection and dynamic-invocation layer of [objc/api.py]

    A shallow embedding of the functions of [src/objc/api.py] that decide the
    behaviour of the bridge: the type descriptor converter, the calling
    convention selector, the dynamic invoker, the coercion layer, the chained
    mappings, and the interning constructors of the proxy classes.

    Python values are modelled as the code uses them: exceptions are an
    inductive type and a raising function returns [Raise e]; module-level
    dictionaries and weak caches are [gmap]s; ordered dictionaries are
    association lists; calls into the Objective-C runtime are recorded in an
    event log carried by an explicit world state. *)

From Stdlib Require Import ZArith List Bool Lia Ascii String.
From stdpp Require Import base gmap strings list pretty.

Set Warnings "-register-all,-clear-no-such-hyp".

Open Scope string_scope.
Open Scope list_scope.

(** ** Python results and exceptions *)

Module Py.

(** An external address ([cdata] pointers and Python ints alike); [NULL] is 0. *)
Abbreviation addr := Z (only parsing).
Definition NULL : addr := 0%Z.

(** The message of an exception, kept symbolic: one constructor per
    [raise] site of [api.py] that the development reaches. *)
Inductive msg :=
| MInternalType                      (* "Internal types (e. g. fields and bit fields) cannot be converted ..." *)
| MNoKind                            (* "restype (...) has no kind attribute. ..." *)
| MEllipsisNotLast                   (* "... can only be the last argtype" *)
| MInvalidSelector (op : addr)       (* "Invalid selector: {}" *)
| MArgsVsArgtypes (nargs nargtypes : nat)
| MArgsVsColons (nargs ncolons : nat)
| MNotASelector (a : addr)           (* "Not a valid selector: {}" *)
| MNotSubclass (sub sup : addr)      (* "{obj.cls.name} is not a subclass of {cls.name}" *)
| MDontKnowNative                    (* "Don't know how to convert a ... to an Objective-C object" *)
| MDontKnowClass (cls : addr)        (* "Don't know how to convert to an Objective-C {cls.name}" *)
| MNotAClass                         (* "{!r} does not point to a class" *)
| MNotAMetaClass (a : addr)          (* "Object pointer {!r} must point to a metaclass" *)
| MNoClassNamed (name : string)
| MNoProtocolNamed (name : string)
| MTogether                          (* "restype and argtypes must be passed together" *)
| MExpected (what : string).         (* the "Expected ..." messages of the constructors *)

Inductive exn :=
| TypeError (m : msg)
| ValueError (m : msg)
| KeyError
| AttributeError (name : string)
| NameError (name : string)
| UnboundLocalError (name : string).

(** The outcome of a call: a value, an exception, or [Hang] when a loop or
    a recursion has not returned within the fuel it was given. *)
Inductive res (A : Type) :=
| Ok (a : A)
| Raise (e : exn)
| Hang.
Arguments Ok {A} a.
Arguments Raise {A} e.
Arguments Hang {A}.

Definition bind {A B} (c : res A) (k : A -> res B) : res B :=
  match c with
  | Ok a => k a
  | Raise e => Raise e
  | Hang => Hang
  end.

End Py.
Import Py.

Notation "'let*' x ':=' c 'in' k" := (Py.bind c (fun x => k))
  (at level 10, x name, c at level 100, k at level 200).


(** ** The structured encoded types consumed by the converter *)

Module encoding.

(** Modelled from the spec: [objc/encoding.py] is not part of the sources at
    hand.  The constructors are the subclasses of [encoding.BaseType] that
    [_encoding_type_to_cffi] tests with [isinstance], with the attributes it
    reads ([type], [element_type], [length], [name], [fields], [width]).
    [BitField] and [Field] are the subclasses of [encoding.InternalType].
    An element of a field list is a [Field] object, kept as the pair of its
    [name] and [type] attributes. *)
Inductive BaseType :=
| QualifiedType (type : BaseType)
| UnknownType
| Void
| Scalar (type : string)
| Pointer (element_type : BaseType)
| ID
| Class
| Selector
| Array (element_type : BaseType) (length : Z)
| Struct (name : option string) (fields : option (list (option string * BaseType)))
| Union (name : option string) (fields : option (list (option string * BaseType)))
| BitField (width : Z)
| Field (name : option string) (type : BaseType).

(** [isinstance(tp, encoding.InternalType)] *)
Definition is_InternalType (tp : BaseType) : bool :=
  match tp with
  | BitField _ | Field _ _ => true
  | _ => false
  end.

End encoding.

(** ** Native type descriptors *)

Module cffi.

Inductive kw := KwStruct | KwUnion.

(** The types [ffi.typeof] denotes.  A struct or union is identified by its
    keyword and tag; [fields = None] is an incomplete (opaque) type.  A field
    carries its name, its type and, for a bit-field, its width.  The tags and
    field names written into a declaration are taken to be C identifiers, so
    that [ffi.typeof] parses every declaration it is handed. *)
Inductive ctype :=
| CVoid
| CPrimitive (name : string)
| CPointer (item : ctype)
| CArray (item : ctype) (length : Z)
| CStructOrUnion (k : kw) (tag : string) (fields : option (list (string * ctype * option Z)))
| CFunctionPtr (result : ctype) (args : list ctype) (ellipsis : bool).

Definition cfield : Type := string * ctype * option Z.

(** The typedef names that [api.py] declares with [ffi.cdef] and that the
    functions below pass to [ffi.typeof]:
<<
    typedef struct DGUnknownType unknown_type;
    typedef struct DGUnknownStruct unknown_struct;
    typedef union DGUnknownUnion unknown_union;
    typedef struct objc_object *id;
    typedef struct objc_class *Class;
    typedef struct objc_selector *SEL;
    typedef struct objc_method *Method;
    typedef struct objc_ivar *Ivar;
    typedef struct objc_property *objc_property_t;
    typedef struct objc_object Protocol;
>>
    A typedef is transparent: [ffi.typeof("unknown_struct")] and
    [ffi.typeof("struct DGUnknownStruct")] are the same type.  Every other
    name is taken as the name of a primitive type. *)
Definition typeof_name (n : string) : ctype :=
  if String.eqb n "void" then CVoid
  else if String.eqb n "unknown_type" then CStructOrUnion KwStruct "DGUnknownType" None
  else if String.eqb n "unknown_struct" then CStructOrUnion KwStruct "DGUnknownStruct" None
  else if String.eqb n "unknown_union" then CStructOrUnion KwUnion "DGUnknownUnion" None
  else if String.eqb n "id" then CPointer (CStructOrUnion KwStruct "objc_object" None)
  else if String.eqb n "Class" then CPointer (CStructOrUnion KwStruct "objc_class" None)
  else if String.eqb n "SEL" then CPointer (CStructOrUnion KwStruct "objc_selector" None)
  else if String.eqb n "Method" then CPointer (CStructOrUnion KwStruct "objc_method" None)
  else if String.eqb n "Ivar" then CPointer (CStructOrUnion KwStruct "objc_ivar" None)
  else if String.eqb n "objc_property_t" then CPointer (CStructOrUnion KwStruct "objc_property" None)
  else if String.eqb n "void *" then CPointer CVoid
  else if String.eqb n "Protocol *" then CPointer (CStructOrUnion KwStruct "objc_object" None)
  else CPrimitive n.

(** [t] is the pointer type that the typedef [n] names. *)
Definition is_typeof (n : string) (t : ctype) : bool :=
  match typeof_name n, t with
  | CPointer (CStructOrUnion KwStruct tag None), CPointer (CStructOrUnion KwStruct tag' None) =>
      String.eqb tag tag'
  | CPointer CVoid, CPointer CVoid => true
  | _, _ => false
  end.

(** The [kind] attribute of a ctype of the ctypes backend.  Void and array
    types have none ([_make_function_ptr_ctype] says so of arrays, and both
    callers test [restype != void] before they read it). *)
Definition primitive_kind (n : string) : string :=
  if String.eqb n "char" then "char"
  else if String.eqb n "float" || String.eqb n "double" then "float"
  else if String.eqb n "signed char" || String.eqb n "unsigned char" then "byte"
  else if String.eqb n "_Bool" || String.eqb n "bool" then "bool"
  else "int".

Definition kind (t : ctype) : option string :=
  match t with
  | CVoid => None
  | CPrimitive n => Some (primitive_kind n)
  | CPointer _ => Some "pointer"
  | CArray _ _ => None
  | CStructOrUnion KwStruct _ _ => Some "struct"
  | CStructOrUnion KwUnion _ _ => Some "union"
  | CFunctionPtr _ _ _ => Some "pointer"
  end.

End cffi.
Import cffi.

(** * The functions of [objc/api.py] *)

Module api.

(** ** 4.1 Type descriptor converter *)

(** [void = ffi.typeof("void")] *)
Definition void : ctype := typeof_name "void".

(** The declaration of one field, [field_decl] in the loop of
    [_encoding_type_to_cffi]; [conv] is the converter itself. *)
Definition field_to_cffi (conv : encoding.BaseType -> res ctype)
    (field_name : string) (ftype : encoding.BaseType) : res cfield :=
  match ftype with
  | encoding.BitField width =>
      if Z.eqb width 1
      then Ok (field_name, typeof_name "bool", Some 1%Z)
      else Ok (field_name, typeof_name "unsigned int", Some width)
  | _ =>
      let* t := conv ftype in
      Ok (field_name, t, None)
  end.

(** The loop over [enumerate(tp.fields)]: [i] is the running index. *)
Definition fields_to_cffi (conv : encoding.BaseType -> res ctype) :
    nat -> list (option string * encoding.BaseType) -> res (list cfield) :=
  fix go (i : nat) (fs : list (option string * encoding.BaseType)) {struct fs} :=
    match fs with
    | [] => Ok []
    | (fname, ftype) :: fs' =>
        let field_name :=
          match fname with
          | None => "_field_" +:+ pretty i
          | Some n => n
          end in
        let* field_decl := field_to_cffi conv field_name ftype in
        let* rest := go (S i) fs' in
        Ok (field_decl :: rest)
    end.

(** ["char _empty[0];"] *)
Definition empty_field : cfield := ("_empty", CArray (typeof_name "char") 0, None).

Definition kw_name (k : kw) : string :=
  match k with KwStruct => "struct" | KwUnion => "union" end.

(** The branch of [_encoding_type_to_cffi] for [encoding.Struct] and
    [encoding.Union]; [k] is the keyword [kw]. *)
Definition aggregate_to_cffi (conv : encoding.BaseType -> res ctype) (k : kw)
    (tp_name : option string)
    (tp_fields : option (list (option string * encoding.BaseType))) : res ctype :=
  match tp_name, tp_fields with
  | None, None => Ok (typeof_name ("unknown_" +:+ kw_name k))
  | _, _ =>
      let name := match tp_name with None => "" | Some n => n end in
      match tp_fields with
      | None => Ok (CStructOrUnion k name None)
      | Some fs =>
          let* fields := fields_to_cffi conv 0 fs in
          let fields := match fields with [] => [empty_field] | _ => fields end in
          Ok (CStructOrUnion k name (Some fields))
      end
  end.

Fixpoint _encoding_type_to_cffi (tp : encoding.BaseType) : res ctype :=
  if encoding.is_InternalType tp then Raise (TypeError MInternalType)
  else
    match tp with
    | encoding.QualifiedType type => _encoding_type_to_cffi type
    | encoding.UnknownType => Ok (typeof_name "unknown_type")
    | encoding.Void => Ok (typeof_name "void")
    | encoding.Scalar type => Ok (typeof_name type)
    | encoding.Pointer element_type =>
        let* t := _encoding_type_to_cffi element_type in
        Ok (CPointer t)
    | encoding.ID => Ok (typeof_name "id")
    | encoding.Class => Ok (typeof_name "Class")
    | encoding.Selector => Ok (typeof_name "SEL")
    | encoding.Array element_type length =>
        let* t := _encoding_type_to_cffi element_type in
        Ok (CArray t length)
    | encoding.Struct name fields =>
        aggregate_to_cffi _encoding_type_to_cffi KwStruct name fields
    | encoding.Union name fields =>
        aggregate_to_cffi _encoding_type_to_cffi KwUnion name fields
    | encoding.BitField _ | encoding.Field _ _ => Raise (TypeError MInternalType)
    end.

(** ** 4.2 Calling convention selector *)

(** An element of an [argtypes] sequence: a ctype, the name of one
    (["id"], ["SEL"], ["Method"]), or the [...] marker. *)
Inductive argtype :=
| ACType (t : ctype)
| AName (n : string)
| AEllipsis.

(** [ffi.getctype(argtype)] *)
Definition getctype (a : argtype) : ctype :=
  match a with
  | ACType t => t
  | AName n => typeof_name n
  | AEllipsis => CVoid
  end.

Section Platform.

(** [LP64 = sys.maxsize > 2**31 - 1] *)
Variable LP64 : bool.

(** [not LP64 and restype != void and restype.kind == "struct"]; reading
    [kind] of a type that has none raises [AttributeError]. *)
Definition _must_use_stret (restype : ctype) : res bool :=
  if negb LP64 then
    match restype with
    | CVoid => Ok false
    | _ =>
        match kind restype with
        | Some k => Ok (String.eqb k "struct")
        | None => Raise (AttributeError "kind")
        end
    end
  else Ok false.

(** The loop of [_make_function_ptr_ctype] over [enumerate(argtypes)];
    [n] is [len(argtypes)].  Returns the argument declarations and whether
    the list ends with ["..."]. *)
Fixpoint argdecls (n i : nat) (argtypes : list argtype) : res (list ctype * bool) :=
  match argtypes with
  | [] => Ok ([], false)
  | AEllipsis :: rest =>
      if negb (Nat.eqb i (n - 1)) then Raise (ValueError MEllipsisNotLast)
      else
        let* r := argdecls n (S i) rest in
        Ok (fst r, true)
  | a :: rest =>
      let* r := argdecls n (S i) rest in
      Ok (getctype a :: fst r, snd r)
  end.

Definition _make_function_ptr_ctype (restype : ctype) (argtypes : list argtype) : res ctype :=
  let* _ :=
    match restype with
    | CVoid => Ok tt
    | _ =>
        match kind restype with
        | Some _ => Ok tt
        | None => Raise (TypeError MNoKind)
        end
    end in
  let* d := argdecls (length argtypes) 0 argtypes in
  Ok (CFunctionPtr restype (fst d) (snd d)).

(** The name handed to [getattr(libc, ...)] by [_get_polymorphic]:
    [name + "_stret" if _must_use_stret(restype) else name]. *)
Definition polymorphic_symbol (name : string) (restype : ctype) : res string :=
  let* stret := _must_use_stret restype in
  Ok (if stret then name +:+ "_stret" else name).

End Platform.

(** ** Python objects of the bridge *)

(** The proxy classes.  [Class], [MetaClass] and [Protocol] derive from [ID];
    [MetaClass] derives from [Class]. *)
Inductive pyclass :=
| Selector | Ivar | Method | Property
| ID | Class | MetaClass | Protocol.

Definition pyclass_eqb (c d : pyclass) : bool :=
  match c, d with
  | Selector, Selector | Ivar, Ivar | Method, Method | Property, Property
  | ID, ID | Class, Class | MetaClass, MetaClass | Protocol, Protocol => true
  | _, _ => false
  end.

(** [issubclass(c, d)] on the proxy classes. *)
Definition issubclass (c d : pyclass) : bool :=
  match c, d with
  | MetaClass, Class => true
  | (ID | Class | MetaClass | Protocol), ID => true
  | _, _ => pyclass_eqb c d
  end.

(** The identity of a Python object ([id(obj)]). *)
Abbreviation pid := nat (only parsing).

(** Python values.  A proxy is referred to by identity; a [cdata] carries its
    ctype and its address or scalar payload; [VConverted conv obj cls] is the
    external object that the conversion function [conv] returns for
    [(obj, cls)]; [VObject] is any other object, with its attributes. *)
Inductive pyval :=
| VNone
| VProxy (p : pid)
| VInt (z : Z)
| VFloat (payload : Z)
| VBool (b : bool)
| VStr (s : string)
| VBytes (s : string)
| VMapping (items : list (pyval * pyval))
| VSet (elems : list pyval)
| VIterable (elems : list pyval)
| VCData (t : ctype) (a : Z)
| VBoundMethod (instance : pid) (selector : pid)
| VConverted (conv : string) (obj : pyval) (cls : option pid)
| VObject (attrs : list (string * pyval)).

(** How far [Class.__new__] has got in storing the lazy tables of a class
    proxy: nothing yet; [instance_ivars_declared] and
    [instance_methods_declared]; or all four, [instance_methods] and
    [instance_properties_declared] included. *)
Inductive slots_state := SlotsUnset | SlotsDeclared | SlotsAll.

(** A live proxy object: its class and its slots.  [cdata] is the wrapped
    address; [properties] is the dictionary stored by [ID.__new__];
    [class_slots] is the state of the lazy tables of a class proxy. *)
Record proxy := {
  ob_type : pyclass;
  cdata : addr;
  properties : gmap string pyval;
  class_slots : slots_state;
}.

(** Calls made into the external runtime that the claims are about. *)
Inductive event :=
| EvRetain (a : addr)                        (* [_retain(ptr)] *)
| EvRelease (a : addr)                       (* [_release(ptr)] *)
| EvResolve (symbol : string)                (* [getattr(libc, symbol)] *)
| EvInvoke (symbol : string) (fty : ctype) (args : list pyval)  (* calling the cast entry point *)
| EvConvert (conv : string) (obj : pyval) (cls : option pid).   (* [to_string] ... [to_dictionary] *)

(** The process-wide state: the live proxies, the five weak caches
    ([Selector._cache], [Ivar._cache], [Method._cache], [Property._cache] and
    [ID._cache], which [Class], [MetaClass] and [Protocol] inherit), and the
    log of external calls. *)
Record world := {
  heap : gmap pid proxy;
  next_pid : pid;
  Selector_cache : gmap Z pid;
  Ivar_cache : gmap Z pid;
  Method_cache : gmap Z pid;
  Property_cache : gmap Z pid;
  ID_cache : gmap Z pid;
  log : list event;
}.

Definition empty_world : world :=
  {| heap := ∅; next_pid := 0; Selector_cache := ∅; Ivar_cache := ∅;
     Method_cache := ∅; Property_cache := ∅; ID_cache := ∅; log := [] |}.

(** [cls._cache] *)
Definition cache_of (cls : pyclass) (w : world) : gmap Z pid :=
  match cls with
  | Selector => Selector_cache w
  | Ivar => Ivar_cache w
  | Method => Method_cache w
  | Property => Property_cache w
  | ID | Class | MetaClass | Protocol => ID_cache w
  end.

Definition set_heap (h : gmap pid proxy) (w : world) : world :=
  {| heap := h; next_pid := next_pid w; Selector_cache := Selector_cache w;
     Ivar_cache := Ivar_cache w; Method_cache := Method_cache w;
     Property_cache := Property_cache w; ID_cache := ID_cache w; log := log w |}.

Definition set_next_pid (n : pid) (w : world) : world :=
  {| heap := heap w; next_pid := n; Selector_cache := Selector_cache w;
     Ivar_cache := Ivar_cache w; Method_cache := Method_cache w;
     Property_cache := Property_cache w; ID_cache := ID_cache w; log := log w |}.

Definition set_log (l : list event) (w : world) : world :=
  {| heap := heap w; next_pid := next_pid w; Selector_cache := Selector_cache w;
     Ivar_cache := Ivar_cache w; Method_cache := Method_cache w;
     Property_cache := Property_cache w; ID_cache := ID_cache w; log := l |}.

Definition set_cache (cls : pyclass) (c : gmap Z pid) (w : world) : world :=
  {| heap := heap w; next_pid := next_pid w;
     Selector_cache := match cls with Selector => c | _ => Selector_cache w end;
     Ivar_cache := match cls with Ivar => c | _ => Ivar_cache w end;
     Method_cache := match cls with Method => c | _ => Method_cache w end;
     Property_cache := match cls with Property => c | _ => Property_cache w end;
     ID_cache := match cls with
                 | ID | Class | MetaClass | Protocol => c
                 | _ => ID_cache w
                 end;
     log := log w |}.

(** ** Stateful computations *)

Definition M (A : Type) : Type := world -> res A * world.

Definition ret {A} (a : A) : M A := fun w => (Ok a, w).
Definition raise {A} (e : exn) : M A := fun w => (Raise e, w).
Definition hang {A} : M A := fun w => (Hang, w).
Definition lift {A} (r : res A) : M A := fun w => (r, w).

Definition mbind {A B} (c : M A) (k : A -> M B) : M B :=
  fun w =>
    match c w with
    | (Ok a, w') => k a w'
    | (Raise e, w') => (Raise e, w')
    | (Hang, w') => (Hang, w')
    end.

(** [try: c except KeyError: h] *)
Definition except_KeyError {A} (c : M A) (h : M A) : M A :=
  fun w =>
    match c w with
    | (Raise KeyError, w') => h w'
    | r => r
    end.

Definition get_world : M world := fun w => (Ok w, w).
Definition emit (e : event) : M unit := fun w => (Ok tt, set_log (log w ++ [e]) w).

Notation "'let!' x ':=' c 'in' k" := (mbind c (fun x => k))
  (at level 10, x name, c at level 100, k at level 200).
Notation "c ';;' k" := (mbind c (fun _ => k))
  (at level 100, k at level 200, right associativity).

(** ** The external runtime *)

(** The functions of [libc] (the Objective-C runtime reached through the
    foreign-function layer) and of [objc.encoding] that the modelled code
    calls.  The class graph is assumed not to change during reflection, so
    they are functions of their arguments. *)
Record Runtime := {
  sel_isMapped : addr -> bool;
  sel_getName : addr -> string;
  sel_registerName : string -> addr;
  objc_getClass : string -> addr;
  objc_getProtocol : string -> addr;
  object_getClass : addr -> addr;
  object_isClass : addr -> bool;
  class_isMetaClass : addr -> bool;
  class_getSuperclass : addr -> addr;
  class_getInstanceMethod : addr -> addr -> addr;
  method_getName : addr -> addr;
  method_getTypeEncoding : addr -> string;
  decode_method_signature : string -> res (encoding.BaseType * list encoding.BaseType);
  foreign_call : string -> ctype -> list pyval -> pyval;
}.

Section WithRuntime.

Variable LP64 : bool.
Variable rt : Runtime.

(** [_class_cdata]: the table is written as in the source, where the entry
    for ["NSDictionary"] is [libc.objc_getClass(b"NSData")]. *)
Definition _class_cdata : gmap string Z :=
  list_to_map [
    ("NSArray", objc_getClass rt "NSArray");
    ("NSData", objc_getClass rt "NSData");
    ("NSDictionary", objc_getClass rt "NSData");
    ("NSSet", objc_getClass rt "NSSet");
    ("NSString", objc_getClass rt "NSString");
    ("NSValue", objc_getClass rt "NSValue");
    ("Protocol", objc_getClass rt "Protocol")
  ].

(** [_class_cdata[key]] *)
Definition _class_cdata_getitem (key : string) : res addr :=
  match _class_cdata !! key with
  | Some a => Ok a
  | None => Raise KeyError
  end.

(** *** Superclass walks *)

(** The local variables of [_objc_issubclass]: the parameter [subclass] and
    the variable [cls], unbound until the first assignment. *)
Record issubclass_locals := {
  l_subclass : addr;
  l_cls : option addr;
}.

(** One evaluation of the loop test and body of [_objc_issubclass]:
    [inr b] returns [b], [inl l'] goes round again with locals [l'].
<<
    while subclass != ffi.NULL:
        if subclass == superclass:
            return True
        cls = libc.class_getSuperclass(subclass)
    return False
>> *)
Definition _objc_issubclass_iter (superclass : addr) (l : issubclass_locals)
    : issubclass_locals + bool :=
  if Z.eqb (l_subclass l) NULL then inr false
  else if Z.eqb (l_subclass l) superclass then inr true
  else inl {| l_subclass := l_subclass l;
              l_cls := Some (class_getSuperclass rt (l_subclass l)) |}.

Fixpoint _objc_issubclass_loop (fuel : nat) (superclass : addr) (l : issubclass_locals)
    : res bool :=
  match fuel with
  | O => Hang
  | S n =>
      match _objc_issubclass_iter superclass l with
      | inr b => Ok b
      | inl l' => _objc_issubclass_loop n superclass l'
      end
  end.

Definition _objc_issubclass (fuel : nat) (subclass superclass : addr) : res bool :=
  _objc_issubclass_loop fuel superclass {| l_subclass := subclass; l_cls := None |}.

(** The loop of [_is_protocol], on its one variable [cls]:
<<
    while cls != ffi.NULL:
        if cls == _class_cdata["Protocol"]:
            return True
        cls = libc.class_getSuperclass(cls)
    return False
>> *)
Fixpoint _is_protocol_loop (fuel : nat) (cls : addr) : res bool :=
  match fuel with
  | O => Hang
  | S n =>
      if Z.eqb cls NULL then Ok false
      else
        let* protocol := _class_cdata_getitem "Protocol" in
        if Z.eqb cls protocol then Ok true
        else _is_protocol_loop n (class_getSuperclass rt cls)
  end.

Definition _is_protocol (fuel : nat) (ptr : addr) : res bool :=
  _is_protocol_loop fuel (object_getClass rt ptr).

(** *** Reference counting *)

Definition _retain (ptr : addr) : M unit := emit (EvRetain ptr).
Definition _release (ptr : addr) : M unit := emit (EvRelease ptr).

(** *** Proxy objects and weak caches *)

(** [isinstance(arg, CTYPES)] for an argument that is not a proxy: the
    address it carries if it is an [int] or a cdata of one of the listed
    pointer types. *)
Definition as_address (ctypes : list string) (arg : pyval) : option addr :=
  match arg with
  | VInt z => Some z
  | VCData t a => if existsb (fun n => is_typeof n t) ctypes then Some a else None
  | _ => None
  end.

Definition Selector_CTYPES := ["SEL"; "void *"].
Definition Ivar_CTYPES := ["Ivar"; "void *"].
Definition Method_CTYPES := ["Method"; "void *"].
Definition Property_CTYPES := ["objc_property_t"; "void *"].
Definition ID_CTYPES := ["id"; "Class"; "void *"].
Definition Class_CTYPES := ["Class"; "void *"].
Definition Protocol_CTYPES := ["id"; "void *"].

(** [ffi.cast(n, a)] *)
Definition cast (n : string) (a : addr) : pyval := VCData (typeof_name n) a.

(** [isinstance(arg, cls)] for a proxy [p]. *)
Definition isinstance (p : pid) (cls : pyclass) : M bool :=
  fun w =>
    (Ok match heap w !! p with
        | Some pr => issubclass (ob_type pr) cls
        | None => false
        end, w).

(** Reading the slots of [p]. *)
Definition get_proxy (p : pid) : M proxy :=
  fun w =>
    match heap w !! p with
    | Some pr => (Ok pr, w)
    | None => (Raise (AttributeError "cdata"), w)
    end.

(** [super().__new__(cls)] at the root: a fresh object of class [cls] whose
    [cdata] slot is set to [a]. *)
Definition alloc (cls : pyclass) (a : addr) : M pid :=
  fun w =>
    let p := next_pid w in
    let pr := {| ob_type := cls; cdata := a; properties := ∅; class_slots := SlotsUnset |} in
    (Ok p, set_next_pid (S p) (set_heap (<[p := pr]> (heap w)) w)).

(** [cls._cache[arg]] on the weak dictionary: [KeyError] when there is no
    live proxy for [arg]. *)
Definition cache_getitem (cls : pyclass) (a : addr) : M pid :=
  fun w =>
    match cache_of cls w !! a with
    | Some p => (Ok p, w)
    | None => (Raise KeyError, w)
    end.

(** [cls._cache[arg] = self] *)
Definition cache_setitem (cls : pyclass) (a : addr) (p : pid) : M unit :=
  fun w => (Ok tt, set_cache cls (<[a := p]> (cache_of cls w)) w).

Definition set_class_slots (p : pid) (st : slots_state) : M unit :=
  fun w =>
    match heap w !! p with
    | Some pr =>
        let pr' := {| ob_type := ob_type pr; cdata := cdata pr;
                      properties := properties pr; class_slots := st |} in
        (Ok tt, set_heap (<[p := pr']> (heap w)) w)
    | None => (Raise (AttributeError "instance_ivars_declared"), w)
    end.

(** The garbage collector reclaiming the proxy [p]: the object dies, the weak
    dictionary drops the entry that referred to it, and for a proxy of the
    [ID] family the finalizer registered by [_gc_release] sends [release]. *)
Definition collect (p : pid) (w : world) : world :=
  match heap w !! p with
  | None => w
  | Some pr =>
      let cls := ob_type pr in
      let w1 := set_heap (delete p (heap w)) w in
      let w2 :=
        match cache_of cls w1 !! cdata pr with
        | Some q => if Nat.eqb q p then set_cache cls (delete (cdata pr) (cache_of cls w1)) w1 else w1
        | None => w1
        end in
      if issubclass cls ID then set_log (log w2 ++ [EvRelease (cdata pr)]) w2 else w2
  end.

(** *** The constructors

    [call cls arg retain] stands for the Python call [cls(arg, retain=retain)];
    the [__new__] methods below take it as a parameter and are tied together
    by [construct].  The branches for the wrapper objects of [objc_util] and
    for [ctypes.c_void_p] (the bridge to the second FFI system) and the class
    [Block] are left out: an argument of those kinds is not a [pyval]. *)

Section New.

Variable fuel : nat.
Variable call : pyclass -> pyval -> bool -> M pyval.

(** The common shape of [Ivar.__new__], [Method.__new__] and
    [Property.__new__], and of [Selector.__new__] with its validity test:
    [valid a] is evaluated on a miss, inside the lock. *)
Definition address_new (cls : pyclass) (valid : addr -> M unit) (a : addr) : M pyval :=
  if Z.eqb a NULL then ret VNone
  else
    except_KeyError
      (let! p := cache_getitem cls a in ret (VProxy p))
      (* with cls._cache_lock: *)
      (except_KeyError
         (let! p := cache_getitem cls a in ret (VProxy p))
         (valid a;;
          let! self := alloc cls a in
          cache_setitem cls a self;;
          ret (VProxy self))).

Definition Selector___new__ (cls : pyclass) (arg : pyval) : M pyval :=
  match arg with
  | VProxy p =>
      let! b := isinstance p cls in
      if b then ret arg else raise (TypeError (MExpected "selector"))
  | VStr s => call cls (VBytes s) true
  | VBytes s => call cls (cast "SEL" (sel_registerName rt s)) true
  | _ =>
      match as_address Selector_CTYPES arg with
      | Some a =>
          address_new cls
            (fun a => if sel_isMapped rt a then ret tt
                      else raise (ValueError (MNotASelector a))) a
      | None => raise (TypeError (MExpected "selector"))
      end
  end.

Definition plain___new__ (ctypes : list string) (what : string)
    (cls : pyclass) (arg : pyval) : M pyval :=
  match arg with
  | VProxy p =>
      let! b := isinstance p cls in
      if b then ret arg else raise (TypeError (MExpected what))
  | _ =>
      match as_address ctypes arg with
      | Some a => address_new cls (fun _ => ret tt) a
      | None => raise (TypeError (MExpected what))
      end
  end.

Definition Ivar___new__ := plain___new__ Ivar_CTYPES "Ivar".
Definition Method___new__ := plain___new__ Method_CTYPES "Method".
Definition Property___new__ := plain___new__ Property_CTYPES "objc_property_t".

(** The last branch of [ID.__new__]: "See if we already have an instance
    cached, otherwise create one." *)
Definition ID_intern (cls : pyclass) (a : addr) (retain : bool) : M pyval :=
  let hit :=
    let! self := cache_getitem cls a in
    let! pr := get_proxy self in
    (if negb retain then _release (cdata pr) else ret tt);;
    ret (VProxy self) in
  except_KeyError hit
    (* with cls._cache_lock: *)
    (except_KeyError hit
       (let! self := alloc cls a in
        (if retain then _retain a else ret tt);;
        cache_setitem cls a self;;
        ret (VProxy self))).

(** What every [__new__] of the [ID] family does first with an argument that
    is already an instance of [cls]. *)
Definition already_instance (p : pid) (retain : bool) : M pyval :=
  let! pr := get_proxy p in
  (if negb retain then _release (cdata pr) else ret tt);;
  ret (VProxy p).

(** The branch of [ID.__new__] for an argument that is one of [ID._CTYPES],
    after [arg = ffi.cast("id", arg)]. *)
Definition ID_from_address (cls : pyclass) (a : addr) (retain : bool) : M pyval :=
  if Z.eqb a NULL then ret VNone
  else if negb (issubclass cls Class) && object_isClass rt a
  then call Class (cast "Class" a) retain
  else
    let! proto :=
      if negb (issubclass cls Protocol) then lift (_is_protocol fuel a)
      else ret false in
    if proto then call Protocol (cast "Protocol *" a) retain
    else ID_intern cls a retain.

Definition ID___new__ (cls : pyclass) (arg : pyval) (retain : bool) : M pyval :=
  match arg with
  | VProxy p =>
      let! b := isinstance p cls in
      if b then already_instance p retain
      else
        (* [addr = arg._objc_ptr], a property of [ID] *)
        let! b' := isinstance p ID in
        if b' then
          let! pr := get_proxy p in
          call ID (VInt (cdata pr)) retain
        else raise (TypeError (MExpected "id"))
  | _ =>
      match as_address ID_CTYPES arg with
      | Some a => ID_from_address cls a retain
      | None => raise (TypeError (MExpected "id"))
      end
  end.

(** The [superclass] property: [Class(libc.class_getSuperclass(...))]. *)
Definition Class_superclass (self : pid) : M pyval :=
  let! pr := get_proxy self in
  call Class (cast "Class" (class_getSuperclass rt (cdata pr))) true.

(** The tail of [Class.__new__] after [self = super().__new__(...)]: when the
    slot [instance_ivars_declared] is not set yet, the four lazy tables are
    stored in order; [Class._InstanceMethods(self)] reads [cls.superclass]
    once for the test and, when there is a superclass, once more for its
    [instance_methods] slot.  The slots exist on instances of [Class] only. *)
Definition Class_init_slots (self : pyval) : M pyval :=
  match self with
  | VProxy p =>
      let! pr := get_proxy p in
      if negb (issubclass (ob_type pr) Class)
      then raise (AttributeError "_instance_property_names")
      else
        match class_slots pr with
        | SlotsUnset =>
            set_class_slots p SlotsDeclared;;
            let! sup := Class_superclass p in
            match sup with
            | VNone => set_class_slots p SlotsAll;; ret self
            | _ =>
                let! sup2 := Class_superclass p in
                match sup2 with
                | VProxy q =>
                    let! qr := get_proxy q in
                    match class_slots qr with
                    | SlotsAll => set_class_slots p SlotsAll;; ret self
                    | _ => raise (AttributeError "instance_methods")
                    end
                | _ => raise (AttributeError "instance_methods")
                end
            end
        | _ => ret self
        end
  | _ => raise (AttributeError "_instance_property_names")
  end.

(** The branch of [Class.__new__] for an argument that is one of
    [Class._CTYPES]. *)
Definition Class_from_address (cls : pyclass) (a : addr) (retain : bool) : M pyval :=
  if Z.eqb a NULL then ret VNone
  else if negb (object_isClass rt a) then raise (ValueError MNotAClass)
  else if negb (issubclass cls MetaClass) && class_isMetaClass rt a
  then call MetaClass (cast "Class" a) retain
  else
    let! self := ID___new__ cls (cast "id" a) retain in
    Class_init_slots self.

Definition Class___new__ (cls : pyclass) (arg : pyval) (retain : bool) : M pyval :=
  match arg with
  | VProxy p =>
      let! b := isinstance p cls in
      if b then already_instance p retain
      else raise (TypeError (MExpected "class"))
  | VStr s => call cls (VBytes s) retain
  | VBytes s =>
      let c := objc_getClass rt s in
      if Z.eqb c NULL then raise (ValueError (MNoClassNamed s))
      else call cls (cast "Class" c) retain
  | _ =>
      match as_address Class_CTYPES arg with
      | Some a => Class_from_address cls a retain
      | None => raise (TypeError (MExpected "class"))
      end
  end.

(** The [cls] property of a proxy: [Class(libc.object_getClass(self.cdata))]. *)
Definition ID_cls (self : pid) : M pyval :=
  let! pr := get_proxy self in
  call Class (cast "Class" (object_getClass rt (cdata pr))) true.

(** The branch of [MetaClass.__new__] for an argument that is one of
    [MetaClass._CTYPES], which are those of [Class]. *)
Definition MetaClass_from_address (cls : pyclass) (a : addr) (retain : bool) : M pyval :=
  if Z.eqb a NULL then ret VNone
  else if negb (object_isClass rt a) || negb (class_isMetaClass rt a)
  then raise (ValueError (MNotAMetaClass a))
  else Class___new__ cls (cast "Class" a) retain.

(** The branch of [MetaClass.__new__] for a class name:
    [self = Class(arg).cls], released when [retain] is false. *)
Definition MetaClass_from_name (arg : pyval) (retain : bool) : M pyval :=
  let! c := call Class arg true in
  match c with
  | VProxy cp =>
      let! self := ID_cls cp in
      match self, retain with
      | _, true => ret self
      | VProxy sp, false =>
          let! pr := get_proxy sp in
          _release (cdata pr);; ret self
      | _, false => raise (AttributeError "cdata")
      end
  | _ => raise (AttributeError "cls")
  end.

Definition MetaClass___new__ (cls : pyclass) (arg : pyval) (retain : bool) : M pyval :=
  match arg with
  | VProxy p =>
      let! b := isinstance p cls in
      if b then already_instance p retain
      else raise (TypeError (MExpected "metaclass"))
  | VStr _ | VBytes _ => MetaClass_from_name arg retain
  | _ =>
      match as_address Class_CTYPES arg with
      | Some a => MetaClass_from_address cls a retain
      | None => raise (TypeError (MExpected "metaclass"))
      end
  end.

(** The branch of [Protocol.__new__] for an argument that is one of
    [Protocol._CTYPES].  Where it rejects a non-protocol, the message is
    formatted with [self=self], a name that is bound nowhere in
    [Protocol.__new__] nor at module level. *)
Definition Protocol_from_address (cls : pyclass) (a : addr) (retain : bool) : M pyval :=
  if Z.eqb a NULL then ret VNone
  else
    let! proto := lift (_is_protocol fuel a) in
    if negb proto then raise (NameError "self")
    else ID___new__ cls (cast "id" a) retain.

Definition Protocol___new__ (cls : pyclass) (arg : pyval) (retain : bool) : M pyval :=
  match arg with
  | VProxy p =>
      let! b := isinstance p cls in
      if b then already_instance p retain
      else raise (TypeError (MExpected "protocol"))
  | VStr s => call cls (VBytes s) retain
  | VBytes s =>
      let c := objc_getProtocol rt s in
      if Z.eqb c NULL then raise (ValueError (MNoProtocolNamed s))
      else call cls (cast "Protocol *" c) retain
  | _ =>
      match as_address Protocol_CTYPES arg with
      | Some a => Protocol_from_address cls a retain
      | None => raise (TypeError (MExpected "protocol"))
      end
  end.

(** [type.__call__]: the [__new__] that the class [cls] defines. *)
Definition dispatch_new (cls : pyclass) (arg : pyval) (retain : bool) : M pyval :=
  match cls with
  | Selector => Selector___new__ cls arg
  | Ivar => Ivar___new__ cls arg
  | Method => Method___new__ cls arg
  | Property => Property___new__ cls arg
  | ID => ID___new__ cls arg retain
  | Class => Class___new__ cls arg retain
  | MetaClass => MetaClass___new__ cls arg retain
  | Protocol => Protocol___new__ cls arg retain
  end.

End New.

(** [cls(arg, retain=retain)], with [fuel] bounding the depth of nested
    constructor calls and the length of superclass walks. *)
Fixpoint construct (fuel : nat) (cls : pyclass) (arg : pyval) (retain : bool) : M pyval :=
  match fuel with
  | O => hang
  | S n => dispatch_new n (construct n) cls arg retain
  end.

(** ** 4.3 Dynamic invoker *)

(** [getattr(libc, symbol)] *)
Definition libc_getattr (symbol : string) : M string :=
  emit (EvResolve symbol);; ret symbol.

(** [ffi.cast(_make_function_ptr_ctype(restype, argtypes),
             getattr(libc, name + "_stret" if _must_use_stret(restype) else name))]:
    the symbol and the signature it is cast to. *)
Definition _get_polymorphic (name : string) (restype : ctype) (argtypes : list argtype)
    : M (string * ctype) :=
  let! fty := lift (_make_function_ptr_ctype restype argtypes) in
  let! symbol := lift (polymorphic_symbol LP64 name restype) in
  let! f := libc_getattr symbol in
  ret (f, fty).

(** Calling a cast entry point. *)
Definition invoke (f : string * ctype) (args : list pyval) : M pyval :=
  emit (EvInvoke (fst f) (snd f) args);;
  ret (foreign_call rt (fst f) (snd f) args).

(** [bytes.count] of a one-byte pattern. *)
Fixpoint count_byte (c : ascii) (s : string) : nat :=
  match s with
  | EmptyString => 0
  | String c' s' => (if Ascii.eqb c c' then 1 else 0) + count_byte c s'
  end.

(** [argtypes and argtypes[-1] is ...] *)
Definition ends_with_ellipsis (argtypes : list argtype) : bool :=
  match rev argtypes with
  | AEllipsis :: _ => true
  | _ => false
  end.

Definition _check_argcounts (op : addr) (args : list pyval) (argtypes : list argtype)
    : res unit :=
  if negb (sel_isMapped rt op) then Raise (ValueError (MInvalidSelector op))
  else if negb (ends_with_ellipsis argtypes) then
    if negb (Nat.eqb (length args) (length argtypes))
    then Raise (ValueError (MArgsVsArgtypes (length args) (length argtypes)))
    else
      let sel_arg_count := count_byte ":" (sel_getName rt op) in
      if negb (Nat.eqb (length args) sel_arg_count)
      then Raise (ValueError (MArgsVsColons (length args) sel_arg_count))
      else Ok tt
  else Ok tt.

Definition _objc_msgSend (obj : pyval) (op : addr) (args : list pyval)
    (restype : ctype) (argtypes : list argtype) : M pyval :=
  lift (_check_argcounts op args argtypes);;
  let! f := _get_polymorphic "objc_msgSend" restype (AName "id" :: AName "SEL" :: argtypes) in
  invoke f (obj :: cast "SEL" op :: args).

(** [name.startswith(...)] four times over [Selector(sel).name_bytes]. *)
Definition _should_retain_result (fuel : nat) (sel : pyval) : M bool :=
  let! s := construct fuel Selector sel true in
  match s with
  | VProxy p =>
      let! pr := get_proxy p in
      let name := sel_getName rt (cdata pr) in
      ret (negb (String.prefix "copy" name
                 || String.prefix "init" name
                 || String.prefix "mutableCopy" name
                 || String.prefix "new" name))
  | _ => raise (AttributeError "name_bytes")
  end.

(** ** 4.6 Value coercion *)

Definition INTEGER_TYPES : list string :=
  ["signed char"; "unsigned char"; "short"; "unsigned short"; "int";
   "unsigned int"; "long"; "unsigned long"; "long long"; "unsigned long long"].

Definition is_primitive (names : list string) (t : ctype) : bool :=
  match t with
  | CPrimitive n => existsb (String.eqb n) names
  | _ => false
  end.

Definition unwrap_cdata (fuel : nat) (c : pyval) (retain : bool) : M pyval :=
  match c with
  | VCData t a =>
      if existsb (fun n => is_typeof n t) ["id"; "Class"; "Protocol *"]
      then construct fuel ID c retain
      else if is_primitive INTEGER_TYPES t then ret (VInt a)
      else if is_primitive ["float"; "double"] t then ret (VFloat a)
      else if is_primitive ["char"] t
      then ret (VBytes (String (Ascii.ascii_of_nat (Z.to_nat a)) EmptyString))
      else if is_primitive ["bool"] t then ret (VBool (negb (Z.eqb a 0)))
      else if is_typeof "SEL" t then construct fuel Selector c true
      else ret c
  | _ => ret c
  end.

(** [to_string], [to_data], [to_array], [to_set], [to_dictionary]: each
    messages the target class (the default one when [cls] is [None]) and
    returns the object it answers; the call is recorded and its result kept
    symbolic. *)
Definition convert (conv : string) (obj : pyval) (cls : option pid) : M pyval :=
  emit (EvConvert conv obj cls);; ret (VConverted conv obj cls).

Definition to_string := convert "to_string".
Definition to_data := convert "to_data".
Definition to_array := convert "to_array".
Definition to_set := convert "to_set".
Definition to_dictionary := convert "to_dictionary".

(** Attribute access [obj.name] on a value that is not a proxy: the built-in
    types carry no attribute that the modelled code asks for. *)
Definition getattr_value (obj : pyval) (name : string) : res pyval :=
  match obj with
  | VObject attrs =>
      match list_find (fun kv => String.eqb (fst kv) name) attrs with
      | Some (_, kv) => Ok (snd kv)
      | None => Raise (AttributeError name)
      end
  | _ => Raise (AttributeError name)
  end.

(** [ID.__eq__]: [isinstance(other, ID) and self.cdata == other.cdata]. *)
Definition ID___eq__ (self : pid) (other : pyval) : M bool :=
  match other with
  | VProxy q =>
      let! b := isinstance q ID in
      if b then
        let! pr := get_proxy self in
        let! qr := get_proxy q in
        ret (Z.eqb (cdata pr) (cdata qr))
      else ret false
  | _ => ret false
  end.

(** [_objc_issubclass(cls.cdata, _class_cdata[key])] *)
Definition cls_issubclass_of (fuel : nat) (cls : pid) (key : string) : M bool :=
  let! cr := get_proxy cls in
  let! root := lift (_class_cdata_getitem key) in
  lift (_objc_issubclass fuel (cdata cr) root).

Definition coerce (fuel : nat) (obj : pyval) (cls : option pid) : M pyval :=
  let! is_id :=
    match obj with
    | VProxy p => isinstance p ID
    | _ => ret false
    end in
  match obj, is_id with
  | VProxy p, true =>
      match cls with
      | None => ret obj
      | Some c =>
          let! oc := ID_cls (construct fuel) p in
          match oc with
          | VProxy ocp =>
              let! ocr := get_proxy ocp in
              let! cr := get_proxy c in
              let! sub := lift (_objc_issubclass fuel (cdata ocr) (cdata cr)) in
              if negb sub
              then raise (TypeError (MNotSubclass (cdata ocr) (cdata cr)))
              else ret obj
          | _ => raise (AttributeError "cdata")
          end
      end
  | _, _ =>
      let! plain :=
        match cls with
        | None => ret true
        | Some c =>
            (* [cls == obj.classes.NSObject] *)
            let! classes := lift (getattr_value obj "classes") in
            let! root := lift (getattr_value classes "NSObject") in
            ID___eq__ c root
        end in
      if plain then
        match obj with
        | VStr _ => to_string obj None
        | VBytes _ => to_data obj None
        | VMapping _ => to_dictionary obj None
        | VSet _ => to_set obj None
        | VIterable _ => to_array obj None
        | _ => raise (TypeError MDontKnowNative)
        end
      else
        match cls with
        | None => raise (TypeError MDontKnowNative)
        | Some c =>
            let! b1 := cls_issubclass_of fuel c "NSString" in
            if b1 then to_string obj cls else
            let! b2 := cls_issubclass_of fuel c "NSData" in
            if b2 then to_data obj cls else
            let! b3 := cls_issubclass_of fuel c "NSArray" in
            if b3 then to_array obj cls else
            let! b4 := cls_issubclass_of fuel c "NSDictionary" in
            if b4 then to_string obj cls else
            let! b5 := cls_issubclass_of fuel c "NSSet" in
            if b5 then to_set obj cls else
            let! cr := get_proxy c in
            raise (ValueError (MDontKnowClass (cdata cr)))
        end
  end.

(** ** 4.5 Reflective entities *)

(** [Method.decode_signature_raw]: [argtypes[2:]] skips [self] and [_cmd]. *)
Definition Method_decode_signature_raw (self : pid)
    : M (encoding.BaseType * list encoding.BaseType) :=
  let! pr := get_proxy self in
  let! sig := lift (decode_method_signature rt (method_getTypeEncoding rt (cdata pr))) in
  ret (fst sig, drop 2 (snd sig)).

(** [[_encoding_type_to_cffi(argtype) for argtype in argtypes]] *)
Fixpoint convert_all (tps : list encoding.BaseType) : res (list ctype) :=
  match tps with
  | [] => Ok []
  | tp :: rest =>
      let* t := _encoding_type_to_cffi tp in
      let* ts := convert_all rest in
      Ok (t :: ts)
  end.

Definition Method_decode_signature (self : pid) : M (ctype * list argtype) :=
  let! raw := Method_decode_signature_raw self in
  let! restype := lift (_encoding_type_to_cffi (fst raw)) in
  let! argtypes := lift (convert_all (snd raw)) in
  ret (restype, map ACType argtypes).

(** Reading a local variable: [UnboundLocalError] when no assignment has
    reached it. *)
Definition load_local {A} (name : string) (v : option A) : M A :=
  match v with
  | Some a => ret a
  | None => raise (UnboundLocalError name)
  end.

(** [ffi.typeof(at) if isinstance(at, str) else at] *)
Definition typeof_if_str (a : argtype) : argtype :=
  match a with
  | AName n => ACType (typeof_name n)
  | _ => a
  end.

(** The signature that [Method.__call__] and [ID.msg_send] settle on from
    their [restype] and [argtypes] keywords. *)
Definition resolve_signature (decoded : M (ctype * list argtype))
    (restype : option argtype) (argtypes : option (list argtype))
    : M (ctype * list argtype) :=
  match argtypes, restype with
  | None, None => decoded
  | None, _ | _, None => raise (ValueError MTogether)
  | Some ats, Some r => ret (getctype (typeof_if_str r), map typeof_if_str ats)
  end.

(** [Method.__call__(self, receiver, *args, restype=None, argtypes=None)].
    The parameters are [self], [receiver], [args], [restype] and [argtypes];
    [sel] is a local variable, and the second statement, [sel = Selector(sel)],
    is the first to mention it. *)
Definition Method___call__ (fuel : nat) (self : pid) (receiver : pyval)
    (args : list pyval) (restype : option argtype) (argtypes : option (list argtype))
    : M pyval :=
  let sel : option pyval := None in
  let! receiver := construct fuel ID receiver true in
  let! sel_arg := load_local "sel" sel in
  let! sel := construct fuel Selector sel_arg true in
  let! sig := resolve_signature (Method_decode_signature self) restype argtypes in
  let! f := _get_polymorphic "method_invoke" (fst sig)
              (AName "id" :: AName "Method" :: snd sig) in
  let! receiver_cdata :=
    match receiver with
    | VProxy r => let! rr := get_proxy r in ret (cast "id" (cdata rr))
    | _ => raise (AttributeError "cdata")
    end in
  let! self_r := get_proxy self in
  let! result := invoke f (receiver_cdata :: cast "Method" (cdata self_r) :: args) in
  let! retain := _should_retain_result fuel sel in
  unwrap_cdata fuel result retain.

(** [BoundMethod.__new__(cls, instance, selector)] *)
Definition BoundMethod___new__ (fuel : nat) (instance : pyval) (selector : pyval)
    : M pyval :=
  match instance with
  | VProxy i =>
      let! b := isinstance i ID in
      if b then
        let! s := construct fuel Selector selector true in
        match s with
        | VProxy sp => ret (VBoundMethod i sp)
        | _ => ret (VObject [("instance", instance); ("selector", s)])
        end
      else raise (TypeError (MExpected "instance"))
  | _ => raise (TypeError (MExpected "instance"))
  end.

(** [Class._InstanceMethods.__getitem__(self, key)], on the class proxy [cls]. *)
Definition InstanceMethods___getitem__ (fuel : nat) (cls : pid) (key : pyval) : M pyval :=
  let! cr := get_proxy cls in
  let! s := construct fuel Selector key true in
  match s with
  | VProxy sp =>
      let! sr := get_proxy sp in
      let method := class_getInstanceMethod rt (cdata cr) (cdata sr) in
      if Z.eqb method NULL then raise KeyError
      else construct fuel Method (cast "Method" method) true
  | _ => raise (AttributeError "cdata")
  end.

(** [ID._Methods.__getitem__(self, key)], on the proxy [instance]. *)
Definition Methods___getitem__ (fuel : nat) (instance : pid) (key : string) : M pyval :=
  let! c := ID_cls (construct fuel) instance in
  match c with
  | VProxy cp =>
      let! cr := get_proxy cp in
      match class_slots cr with
      | SlotsAll =>
          InstanceMethods___getitem__ fuel cp (VStr key);;
          BoundMethod___new__ fuel (VProxy instance) (VStr key)
      | _ => raise (AttributeError "instance_methods")
      end
  | _ => raise (AttributeError "instance_methods")
  end.

(** [SHORT_PROPERTIES = False]: [ID.__new__] stores a plain dictionary in the
    [properties] slot, and [self.properties[name]] is a dictionary lookup. *)
Definition properties___getitem__ (self : pid) (name : string) : M pyval :=
  let! pr := get_proxy self in
  match properties pr !! name with
  | Some v => ret v
  | None => raise KeyError
  end.

(** [self.properties[name] = value], an assignment into that dictionary. *)
Definition properties___setitem__ (self : pid) (name : string) (value : pyval) : M unit :=
  fun w =>
    match heap w !! self with
    | Some pr =>
        let pr' := {| ob_type := ob_type pr; cdata := cdata pr;
                      properties := <[name := value]> (properties pr);
                      class_slots := class_slots pr |} in
        (Ok tt, set_heap (<[self := pr']> (heap w)) w)
    | None => (Raise (AttributeError "properties"), w)
    end.

(** [str.replace(old, new)] for one-character [old] and [new]. *)
Fixpoint replace (old new : ascii) (s : string) : string :=
  match s with
  | EmptyString => EmptyString
  | String c s' => String (if Ascii.eqb c old then new else c) (replace old new s')
  end.

Definition ID___getattr__ (fuel : nat) (self : pid) (name : string) : M pyval :=
  except_KeyError (properties___getitem__ self name)
    (except_KeyError (Methods___getitem__ fuel self (replace "_" ":" name))
       (raise (AttributeError name))).

End WithRuntime.

(** ** Chained mappings *)

Section Mappings.

Context {K V : Type} `{EqDecision K}.

(** A mapping object as [MappingChain] uses it: iteration over its keys,
    [mapping[key]] ([None] for [KeyError]), [key in mapping], [len(mapping)]. *)
Record Mapping := {
  m_iter : list K;
  m_getitem : K -> option V;
  m_contains : K -> bool;
  m_len : nat;
}.

(** A dictionary, given by its items in insertion order. *)
Definition lookup_items (items : list (K * V)) (key : K) : option V :=
  match list_find (fun kv => bool_decide (fst kv = key)) items with
  | Some (_, kv) => Some (snd kv)
  | None => None
  end.

Definition dict (items : list (K * V)) : Mapping :=
  {| m_iter := map fst items;
     m_getitem := lookup_items items;
     m_contains := fun key => bool_decide (is_Some (lookup_items items key));
     m_len := length items |}.

Record MappingChain := { _mappings : list Mapping }.

(** An argument of the constructor [MappingChain], which takes any number
    of mappings. *)
Inductive mapping_arg :=
| Plain (m : Mapping)
| Chain (c : MappingChain).

(** [MappingChain.__init__]: the lists of chained arguments are spliced in,
    the other arguments appended, and the whole list reversed. *)
Definition MappingChain___init__ (mappings : list mapping_arg) : MappingChain :=
  {| _mappings :=
       rev (fold_left
              (fun (acc : list Mapping) (mapping : mapping_arg) =>
                 match mapping with
                 | Chain c => (acc ++ _mappings c)%list
                 | Plain m => (acc ++ [m])%list
                 end) mappings []) |}.

Definition MappingChain___contains__ (self : MappingChain) (key : K) : bool :=
  existsb (fun mapping => m_contains mapping key) (_mappings self).

Fixpoint getitem_first (ms : list Mapping) (key : K) : option V :=
  match ms with
  | [] => None
  | mapping :: rest =>
      match m_getitem mapping key with
      | Some v => Some v
      | None => getitem_first rest key
      end
  end.

(** [None] stands for [KeyError(key)]. *)
Definition MappingChain___getitem__ (self : MappingChain) (key : K) : option V :=
  getitem_first (_mappings self) key.

(** The inner loop of [__iter__] over one mapping: [seen] is the set of keys
    yielded so far; returns the keys yielded and the new set. *)
Fixpoint iter_keys (keys : list K) (seen : list K) : list K * list K :=
  match keys with
  | [] => ([], seen)
  | key :: rest =>
      if bool_decide (key ∈ seen) then iter_keys rest seen
      else
        let r := iter_keys rest (key :: seen) in
        (key :: fst r, snd r)
  end.

Fixpoint iter_mappings (ms : list Mapping) (seen : list K) : list K :=
  match ms with
  | [] => []
  | mapping :: rest =>
      let r := iter_keys (m_iter mapping) seen in
      fst r ++ iter_mappings rest (snd r)
  end.

(** The keys that [__iter__] yields, in order. *)
Definition MappingChain___iter__ (self : MappingChain) : list K :=
  iter_mappings (_mappings self) [].

Definition MappingChain___len__ (self : MappingChain) : nat :=
  foldr (fun mapping n => m_len mapping + n) 0 (_mappings self).

(** A chain as a mapping object. *)
Definition chain_mapping (c : MappingChain) : Mapping :=
  {| m_iter := MappingChain___iter__ c;
     m_getitem := MappingChain___getitem__ c;
     m_contains := MappingChain___contains__ c;
     m_len := MappingChain___len__ c |}.

(** The properties [Class.instance_ivars] and [Class.instance_properties] of
    a class whose own table is [declared] and whose superclasses, nearest
    first, have the tables [supers]:
<<
    if self.superclass is None:
        return self.instance_ivars_declared
    else:
        return MappingChain(self.superclass.instance_ivars, self.instance_ivars_declared)
>> *)
Fixpoint inherited_view (declared : Mapping) (supers : list Mapping) : mapping_arg :=
  match supers with
  | [] => Plain declared
  | super_declared :: rest =>
      Chain (MappingChain___init__ [inherited_view super_declared rest; Plain declared])
  end.

Definition view_mapping (v : mapping_arg) : Mapping :=
  match v with
  | Plain m => m
  | Chain c => chain_mapping c
  end.

End Mappings.

Arguments Mapping : clear implicits.
Arguments MappingChain : clear implicits.
Arguments mapping_arg : clear implicits.

End api.

(** * The cache protocol under preemption

    The part of every [__new__] that looks an address up in [cls._cache],
    step by step, for threads that may be preempted between any two steps:
<<
    try:
        return cls._cache[arg]
    except KeyError:
        with cls._cache_lock:
            try:
                return cls._cache[arg]
            except KeyError:
                self = super().__new__(cls)
                ...
                cls._cache[arg] = self
                return self
>> *)

Module Threads.

(** Where a thread stands: before the first lookup; after it has missed;
    inside the lock before the second lookup; inside the lock with the
    fresh object [self]; returned. *)
Inductive pc :=
| Start
| Missed
| Locked
| Created (self : nat)
| Returned (self : nat).

(** The shared cache, the owner of [cls._cache_lock], the next fresh object
    identity, and for every thread the address it interns and where it
    stands. *)
Record state := {
  cache : gmap Z nat;
  lock : option nat;
  next : nat;
  threads : gmap nat (Z * pc);
}.

Definition set_thread (t : nat) (a : Z) (c : pc) (s : state) : state :=
  {| cache := cache s; lock := lock s; next := next s;
     threads := <[t := (a, c)]> (threads s) |}.

(** One step of thread [t]; [None] when [t] is blocked on the lock, has
    returned, or does not exist. *)
Definition step (t : nat) (s : state) : option state :=
  match threads s !! t with
  | Some (a, Start) =>
      match cache s !! a with
      | Some p => Some (set_thread t a (Returned p) s)
      | None => Some (set_thread t a Missed s)
      end
  | Some (a, Missed) =>
      match lock s with
      | None =>
          Some {| cache := cache s; lock := Some t; next := next s;
                  threads := <[t := (a, Locked)]> (threads s) |}
      | Some _ => None
      end
  | Some (a, Locked) =>
      match cache s !! a with
      | Some p =>
          Some {| cache := cache s; lock := None; next := next s;
                  threads := <[t := (a, Returned p)]> (threads s) |}
      | None =>
          Some {| cache := cache s; lock := lock s; next := S (next s);
                  threads := <[t := (a, Created (next s))]> (threads s) |}
      end
  | Some (a, Created self) =>
      Some {| cache := <[a := self]> (cache s); lock := None; next := next s;
              threads := <[t := (a, Returned self)]> (threads s) |}
  | Some (_, Returned _) | None => None
  end.

(** Running a schedule: the thread named at each position takes a step if
    it can. *)
Fixpoint exec (schedule : list nat) (s : state) : state :=
  match schedule with
  | [] => s
  | t :: rest => exec rest (default s (step t s))
  end.

(** Threads about to intern the given addresses, on an empty cache. *)
Definition init (addresses : list Z) : state :=
  {| cache := ∅; lock := None; next := 0;
     threads := list_to_map (imap (fun t a => (t, (a, Start))) addresses) |}.

(** What the schedules preserve: a returned proxy is the cached one; a
    thread past the lock statement owns the lock; a thread that has created
    its object has found no entry, and none has appeared since. *)
Definition inv (s : state) : Prop :=
  (forall t a p, threads s !! t = Some (a, Returned p) -> cache s !! a = Some p)
  /\ (forall t a, threads s !! t = Some (a, Locked) -> lock s = Some t)
  /\ (forall t a p, threads s !! t = Some (a, Created p) ->
       lock s = Some t /\ cache s !! a = None).

End Threads.

(** * A small runtime to evaluate the model on

    A root class [NSObject] (100); [NSString] (110) and [NSMutableString]
    (120) below it; [Protocol] (130), [NSData] (140) and [NSDictionary]
    (150), children of the root.  The metaclass of the class at [c] is at
    [c + 1].  An [NSMutableString] instance at 1000, an [NSString] instance
    at 1001, a protocol object at 2000, and a few selectors from 5001 on. *)

Module Demo.
Import api.

Definition classes : list (string * Z * Z) :=
  [("NSObject", 100, 0); ("NSString", 110, 100); ("NSMutableString", 120, 110);
   ("Protocol", 130, 100); ("NSData", 140, 100); ("NSDictionary", 150, 100)]%Z.

Definition selectors : list (string * Z) :=
  [("description", 5001); ("setObject:forKey:", 5002); ("copy", 5003);
   ("length", 5004); ("initWithString:", 5005)]%Z.

Definition is_class (a : Z) : bool :=
  existsb (fun c => Z.eqb (snd (fst c)) a) classes.
Definition is_meta (a : Z) : bool :=
  existsb (fun c => Z.eqb (snd (fst c) + 1) a) classes.

Definition superclass (a : Z) : Z :=
  match list_find (fun c => Z.eqb (snd (fst c)) a) classes with
  | Some (_, c) => snd c
  | None =>
      match list_find (fun c => Z.eqb (snd (fst c) + 1) a) classes with
      | Some (_, c) => if Z.eqb (snd c) 0 then 100%Z else (snd c + 1)%Z
      | None => 0%Z
      end
  end.

Definition class_of (a : Z) : Z :=
  if Z.eqb a 1000 then 120%Z
  else if Z.eqb a 1001 then 110%Z
  else if Z.eqb a 2000 then 130%Z
  else if is_class a then (a + 1)%Z
  else if is_meta a then 101%Z
  else 0%Z.

Definition class_named (n : string) : Z :=
  match list_find (fun c => String.eqb (fst (fst c)) n) classes with
  | Some (_, c) => snd (fst c)
  | None => 0%Z
  end.

Definition selector_named (n : string) : Z :=
  match list_find (fun c => String.eqb (fst c) n) selectors with
  | Some (_, c) => snd c
  | None => 5999%Z
  end.

Definition selector_name (a : Z) : string :=
  match list_find (fun c => Z.eqb (snd c) a) selectors with
  | Some (_, c) => fst c
  | None => ""
  end.

(** Every class answers [description] (method 7001) and [length] (7004). *)
Definition instance_method (cls sel : Z) : Z :=
  if is_class cls || is_meta cls then
    if Z.eqb sel 5001 then 7001%Z
    else if Z.eqb sel 5004 then 7004%Z
    else 0%Z
  else 0%Z.

Definition rt : Runtime :=
  {| sel_isMapped := fun a => existsb (fun c => Z.eqb (snd c) a) selectors || Z.eqb a 5999;
     sel_getName := selector_name;
     sel_registerName := selector_named;
     objc_getClass := class_named;
     objc_getProtocol := fun n => if String.eqb n "NSCopying" then 2000%Z else 0%Z;
     object_getClass := class_of;
     object_isClass := fun a => is_class a || is_meta a;
     class_isMetaClass := is_meta;
     class_getSuperclass := superclass;
     class_getInstanceMethod := instance_method;
     method_getName := fun m => (m - 2000)%Z;
     method_getTypeEncoding := fun _ => "@16@0:8";
     decode_method_signature :=
       fun _ => Ok (encoding.ID, [encoding.ID; encoding.Selector]);
     foreign_call := fun _ _ _ => VCData (typeof_name "id") 1001 |}.

(** The fuel used in the examples: enough for every call below. *)
Definition fuel : nat := 20.

(** The world after [ID(1000)]: the instance is wrapped and retained. *)
Definition w_instance : world := snd (construct rt fuel ID (VInt 1000) true empty_world).

(** ... and after [Class("NSString")] on top of it. *)
Definition w_classes : world := snd (construct rt fuel Class (VStr "NSString") true w_instance).

(** ... and after [Method(7001)], the method [description], on top of
    [w_instance]: the method proxy is object 1. *)
Definition w_method : world := snd (construct rt fuel Method (VInt 7001) true w_instance).

(** [w_instance] after [obj.properties["tag"] = 7] on the proxy 0. *)
Definition w_tagged : world :=
  snd (properties___setitem__ 0 "tag" (VInt 7) w_instance).

(** The world after [Class("NSDictionary")]: the class proxy is object 0. *)
Definition w_dictionary : world :=
  snd (construct rt fuel Class (VStr "NSDictionary") true empty_world).

(** An object whose attribute [classes] has an attribute [NSObject] that is
    no proxy. *)
Definition with_classes : pyval :=
  VObject [("classes", VObject [("NSObject", VNone)])].

(** The world after [Selector(5001)], the selector [description]. *)
Definition w_selector : world :=
  snd (construct rt fuel Selector (VInt 5001) true empty_world).

(** The declared tables of three classes [Root <- Mid <- Leaf]: [Mid]
    overrides the entry ["x"] of [Root]; [Leaf] declares ["y"] only. *)
Definition root_declared : Mapping string Z := dict [("x", 1%Z); ("r", 10%Z)].
Definition mid_declared : Mapping string Z := dict [("x", 2%Z); ("m", 20%Z)].
Definition leaf_declared : Mapping string Z := dict [("y", 3%Z)].

(** [Leaf.instance_ivars] (or [Leaf.instance_properties]). *)
Definition leaf_view : Mapping string Z :=
  view_mapping (inherited_view leaf_declared [mid_declared; root_declared]).

(** A struct encoding with a declared field, two bit-fields and an unnamed
    pointer, and the type it converts to. *)
Definition struct_fields : list (option string * encoding.BaseType) :=
  [(Some "x", encoding.Scalar "int");
   (Some "flag", encoding.BitField 1);
   (Some "mode", encoding.BitField 3);
   (None, encoding.Pointer (encoding.Scalar "char"))].

Definition struct_ctype : ctype :=
  CStructOrUnion KwStruct "S"
    (Some [("x", CPrimitive "int", None);
           ("flag", CPrimitive "bool", Some 1%Z);
           ("mode", CPrimitive "unsigned int", Some 3%Z);
           ("_field_3", CPointer (CPrimitive "char"), None)]).

End Demo.

(** * Vocabulary of the statements *)

Module Spec.
Import api.

(** A struct or a union of the encoding, by keyword. *)
Definition aggregate (k : kw) (name : option string)
    (fields : option (list (option string * encoding.BaseType))) : encoding.BaseType :=
  match k with
  | KwStruct => encoding.Struct name fields
  | KwUnion => encoding.Union name fields
  end.

(** The name of the field at position [i]: the declared one, or the
    positional placeholder. *)
Definition field_name_at (i : nat) (fname : option string) : string :=
  match fname with
  | Some n => n
  | None => "_field_" +:+ pretty i
  end.

(** What the converted field [cf] at position [i] must be for the encoded
    field [(fname, ftype)]. *)
Definition field_matches (i : nat) (fname : option string) (ftype : encoding.BaseType)
    (cf : cfield) : Prop :=
  fst (fst cf) = field_name_at i fname /\
  match ftype with
  | encoding.BitField width =>
      if Z.eqb width 1
      then snd (fst cf) = CPrimitive "bool" /\ snd cf = Some 1%Z
      else snd (fst cf) = CPrimitive "unsigned int" /\ snd cf = Some width
  | _ => _encoding_type_to_cffi ftype = Ok (snd (fst cf)) /\ snd cf = None
  end.

(** The three opaque placeholders declared by [api.py]. *)
Definition distinct_from_placeholders (t : ctype) : Prop :=
  t <> typeof_name "unknown_type" /\
  t <> typeof_name "unknown_struct" /\
  t <> typeof_name "unknown_union".

(** The tags that the placeholders themselves are declared with. *)
Definition reserved_tag (k : kw) (name : string) : Prop :=
  (k = KwStruct /\ (name = "DGUnknownType" \/ name = "DGUnknownStruct")) \/
  (k = KwUnion /\ name = "DGUnknownUnion").

(** The order in which the chain of a class lists the declared tables: its
    own first, then the order of its superclass, reversed. *)
Fixpoint chain_order {K V : Type} (declared : Mapping K V) (supers : list (Mapping K V))
    : list (Mapping K V) :=
  match supers with
  | [] => [declared]
  | super_declared :: rest => declared :: rev (chain_order super_declared rest)
  end.

(** *** Interning and ownership *)

(** The class whose [_cache] a proxy class uses. *)
Definition family (cls : pyclass) : pyclass :=
  match cls with
  | ID | Class | MetaClass | Protocol => ID
  | c => c
  end.

(** The state between two calls: a cache entry for [a] refers to a live
    proxy of that family wrapping [a]; every live proxy is the one its cache
    holds for its address; identities below [next_pid] only are in use. *)
Definition wf (w : world) : Prop :=
  (forall k a p, cache_of k w !! a = Some p ->
     exists pr, heap w !! p = Some pr /\ cdata pr = a /\ family (ob_type pr) = family k)
  /\ (forall p pr, heap w !! p = Some pr -> cache_of (ob_type pr) w !! cdata pr = Some p)
  /\ (forall p, is_Some (heap w !! p) -> p < next_pid w).

(** [w'] keeps every cache entry and every proxy of [w]. *)
Definition ext (w w' : world) : Prop :=
  (forall k a p, cache_of k w !! a = Some p -> cache_of k w' !! a = Some p)
  /\ (forall p pr, heap w !! p = Some pr ->
       exists pr', heap w' !! p = Some pr' /\ ob_type pr' = ob_type pr
                   /\ cdata pr' = cdata pr /\ properties pr' = properties pr).

(** The [retain] and [release] messages sent to [a] so far. *)
Fixpoint retains (a : addr) (l : list event) : Z :=
  match l with
  | [] => 0
  | EvRetain b :: l' => (if Z.eqb b a then 1 else 0) + retains a l'
  | _ :: l' => retains a l'
  end.

Fixpoint releases (a : addr) (l : list event) : Z :=
  match l with
  | [] => 0
  | EvRelease b :: l' => (if Z.eqb b a then 1 else 0) + releases a l'
  | _ :: l' => releases a l'
  end.

(** The number of live proxies of the [ID] family that wrap [a]. *)
Definition live_proxies (a : addr) (w : world) : nat :=
  size (filter (fun x : pid * proxy =>
                  issubclass (ob_type (snd x)) ID = true /\ cdata (snd x) = a) (heap w)).

(** The number of live proxies of the family of [k] that wrap [a]. *)
Definition live_of (k : pyclass) (a : addr) (w : world) : nat :=
  size (filter (fun x : pid * proxy =>
                  pyclass_eqb (family (ob_type (snd x))) (family k) = true
                  /\ cdata (snd x) = a) (heap w)).

(** 1 when [ID._cache] has an entry for [a], else 0. *)
Definition cached (a : addr) (w : world) : Z :=
  match ID_cache w !! a with
  | Some _ => 1
  | None => 0
  end.

(** Retentions sent minus releases sent minus cached proxies: the
    retentions that callers have handed over so far, negated. *)
Definition owed (w : world) (a : addr) : Z :=
  retains a (log w) - releases a (log w) - cached a w.

(** The address an argument denotes, if it is an [int] or a cdata. *)
Definition arg_address (arg : pyval) : option addr :=
  match arg with
  | VInt z => Some z
  | VCData _ a => Some a
  | _ => None
  end.

(** A constructor call that returns a proxy returns a live one, of the
    family asked for, wrapping the address given. *)
Definition result_ok (cls : pyclass) (arg : pyval) (r : res pyval) (w' : world) : Prop :=
  match r with
  | Ok (VProxy p) =>
      exists pr, heap w' !! p = Some pr /\ family (ob_type pr) = family cls
                 /\ forall a, arg_address arg = Some a -> cdata pr = a
  | _ => True
  end.

(** The retention that a call with [retain=False] takes over from its
    caller: one, on the address of the proxy it returns. *)
Definition credit (r : res pyval) (w' : world) (b : addr) : Z :=
  match r with
  | Ok (VProxy p) =>
      match heap w' !! p with
      | Some pr => if Z.eqb (cdata pr) b then 1 else 0
      | None => 0
      end
  | _ => 0
  end.

(** Whether a call retains for itself: always outside the [ID] family,
    where [retain] is not looked at. *)
Definition keeps_balance (cls : pyclass) (retain : bool) : bool :=
  retain || negb (pyclass_eqb (family cls) ID).

(** The balance of a call: unchanged when the call retains for itself;
    lowered by the retention taken over when a call with [retain=False]
    returns.  Nothing is said of a call with [retain=False] that fails. *)
Definition balance (cls : pyclass) (retain : bool) (r : res pyval) (w w' : world) : Prop :=
  forall b,
    if keeps_balance cls retain then owed w' b = owed w b
    else
      match r with
      | Ok _ => owed w' b = (owed w b - credit r w' b)%Z
      | _ => True
      end.

Definition post (w : world) (cls : pyclass) (arg : pyval) (retain : bool)
    (r : res pyval) (w' : world) : Prop :=
  wf w' /\ ext w w' /\ result_ok cls arg r w' /\ balance cls retain r w w'.

(** What the constructors assume of the calls they make. *)
Definition call_spec (call : pyclass -> pyval -> bool -> M pyval) : Prop :=
  forall cls arg retain w r w',
    wf w -> call cls arg retain w = (r, w') -> post w cls arg retain r w'.

(** The operations on the interning layer seen from outside: a constructor
    call, or the collection of a proxy that nothing refers to any more. *)
Inductive op :=
| New (cls : pyclass) (arg : pyval) (retain : bool)
| Del (p : pid).

Definition run_op (rt : Runtime) (fuel : nat) (o : op) (w : world) : res pyval * world :=
  match o with
  | New cls arg retain => construct rt fuel cls arg retain w
  | Del p => (Ok VNone, collect p w)
  end.

(** The world after a sequence of operations. *)
Fixpoint run (rt : Runtime) (fuel : nat) (ops : list op) (w : world) : world :=
  match ops with
  | [] => w
  | o :: rest => run rt fuel rest (snd (run_op rt fuel o w))
  end.

(** The retentions on [b] that the callers of the sequence have handed over:
    one for each call with [retain=False] in the [ID] family that returned a
    proxy wrapping [b]. *)
Fixpoint handed_over (rt : Runtime) (fuel : nat) (ops : list op) (w : world) (b : addr) : Z :=
  match ops with
  | [] => 0
  | o :: rest =>
      let rw := run_op rt fuel o w in
      ((match o with
        | New cls _ retain =>
            if keeps_balance cls retain then 0 else credit (fst rw) (snd rw) b
        | Del _ => 0
        end) + handed_over rt fuel rest (snd rw) b)%Z
  end.

(** No call of the sequence that was to take over a retention has failed. *)
Fixpoint clean (rt : Runtime) (fuel : nat) (ops : list op) (w : world) : Prop :=
  match ops with
  | [] => True
  | o :: rest =>
      let rw := run_op rt fuel o w in
      match o with
      | New cls _ retain =>
          keeps_balance cls retain = true \/ exists v, fst rw = Ok v
      | Del _ => True
      end /\ clean rt fuel rest (snd rw)
  end.

(** The proxies that the sequence collects. *)
Definition collected (ops : list op) : list pid :=
  flat_map (fun o => match o with Del p => [p] | New _ _ _ => [] end) ops.

End Spec.

(** Wrapping the instance at 1000, wrapping it again with [retain=False],
    wrapping the class [NSString], and collecting the first proxy. *)
Module DemoOps.
Import api.

Definition ops : list Spec.op :=
  [Spec.New ID (VInt 1000) true;
   Spec.New ID (VCData (typeof_name "id") 1000) false;
   Spec.New Class (VStr "NSString") true;
   Spec.Del 0].

(** Operations that leave the proxy 0 alone. *)
Definition between : list Spec.op :=
  [Spec.New Class (VStr "NSString") true; Spec.Del 1].

End DemoOps.

(** * More of [objc/api.py] *)

Module api_rest.
Import api.

(** ** Formatting addresses *)

(** The digit that [format(n, "x")] writes for [d]. *)
Definition hex_digit (d : Z) : ascii :=
  match String.get (Z.to_nat d) "0123456789abcdef" with
  | Some c => c
  | None => "0"%char
  end.

(** The digits of [n], most significant first, in front of [acc]. *)
Fixpoint hex_digits (fuel : nat) (n : Z) (acc : string) : string :=
  match fuel with
  | O => acc
  | S f =>
      let acc' := String (hex_digit (n mod 16)) acc in
      if Z.eqb (n / 16) 0 then acc' else hex_digits f (n / 16) acc'
  end.

(** [format(n, "x")] for [n >= 0]: a number has at most one hexadecimal
    digit for each of its bits. *)
Definition format_x (n : Z) : string :=
  hex_digits (S (Z.to_nat (Z.log2 n))) n "".

Fixpoint zeros (k : nat) : string :=
  match k with
  | O => ""
  | S k' => String "0"%char (zeros k')
  end.

(** [format(z, "0{width}x")]: the sign, if any, comes first, and zeros fill
    the room left up to [width] characters. *)
Definition format_0x (width : nat) (z : Z) : string :=
  let sign := if Z.ltb z 0 then "-" else "" in
  let digits := format_x (Z.abs z) in
  sign +:+ zeros (width - String.length sign - String.length digits) +:+ digits.

Section Platform.

Variable LP64 : bool.

(** [16 if LP64 else 8] *)
Definition address_width : nat := if LP64 then 16 else 8.

(** The size in bits of [uintptr_t], declared as [unsigned long]. *)
Definition uintptr_bits : Z := if LP64 then 64 else 32.

(** [format_address(addr)] for the two kinds of argument its docstring
    names, a Python int and a pointer cdata; [None] stands for an argument
    of another kind, which is not followed here.  [ffi.typeof] raises
    [TypeError] on an int, which is then formatted as it is; a cdata is cast
    to [uintptr_t] first. *)
Definition format_address (addr : pyval) : option string :=
  match addr with
  | VInt z => Some ("0x" +:+ format_0x address_width z)
  | VCData (CPointer _) a | VCData (CFunctionPtr _ _ _) a =>
      Some ("0x" +:+ format_0x address_width (a mod 2 ^ uintptr_bits))
  | _ => None
  end.

End Platform.

(** ** Lazy tables *)

Section LazyOrderedDict.

Context {K V Env : Type} `{EqDecision K}.

(** [_get_full()] as a subclass defines it: the items of the ordered
    dictionary it builds from what the runtime lists, the runtime being in
    the state [Env] at the time of the call.  In [LazyOrderedDict] itself it
    raises [NotImplementedError]. *)
Variable _get_full : Env -> res (list (K * V)).

(** The one slot of a [LazyOrderedDict]: [None] while [_cached] is unset. *)
Record LazyOrderedDict := { _cached : option (list (K * V)) }.

(** [_get_cached]:
<<
    try:
        return self._cached
    except AttributeError:
        self._cached = self._get_full()
        return self._cached
>> *)
Definition _get_cached (self : LazyOrderedDict) (env : Env)
    : res (list (K * V)) * LazyOrderedDict :=
  match _cached self with
  | Some d => (Ok d, self)
  | None =>
      match _get_full env with
      | Ok d => (Ok d, {| _cached := Some d |})
      | Raise e => (Raise e, self)
      | Hang => (Hang, self)
      end
  end.

(** [f(self._get_cached())] *)
Definition on_cached {A} (f : list (K * V) -> res A) (self : LazyOrderedDict) (env : Env)
    : res A * LazyOrderedDict :=
  match _get_cached self env with
  | (Ok d, self') => (f d, self')
  | (Raise e, self') => (Raise e, self')
  | (Hang, self') => (Hang, self')
  end.

Definition LazyOrderedDict___contains__ (value : K) :=
  on_cached (fun d => Ok (m_contains (dict d) value)).

Definition LazyOrderedDict___getitem__ (key : K) :=
  on_cached (fun d => match m_getitem (dict d) key with
                      | Some v => Ok v
                      | None => Raise KeyError
                      end).

Definition LazyOrderedDict___iter__ :=
  on_cached (fun d => Ok (m_iter (dict d))).

Definition LazyOrderedDict___len__ :=
  on_cached (fun d => Ok (m_len (dict d))).

End LazyOrderedDict.

Arguments LazyOrderedDict : clear implicits.

(** ** The module proxies [objc.classes] and [objc.protocols] *)

(** What [__getattr__] of a module proxy comes to: the proxy it found; the
    [AttributeError] it raised with the arguments of the constructor's
    [ValueError]; another exception of the constructor, which it lets
    through; or no answer. *)
Inductive lookup_result :=
| Found (v : pyval)
| NoAttribute (args : msg)
| LetThrough (e : exn)
| NoAnswer.

Section ModuleProxies.

Variable rt : Runtime.
Variable fuel : nat.

(** The body that [_ClassModuleProxy.__getattr__] and
    [_ProtocolModuleProxy.__getattr__] share, [wrap] being [Class] in the
    one and [Protocol] in the other:
<<
    try:
        cls = Class(name)
    except ValueError as err:
        self._known_names.discard(name)
        raise AttributeError( *err.args)
    else:
        self._known_names.add(name)
        return cls
>>
    The set [_known_names] is passed in and handed back. *)
Definition ModuleProxy___getattr__ (wrap : pyclass) (_known_names : gset string)
    (name : string) (w : world) : lookup_result * gset string * world :=
  match construct rt fuel wrap (VStr name) true w with
  | (Ok v, w') => (Found v, _known_names ∪ {[name]}, w')
  | (Raise (ValueError m), w') => (NoAttribute m, _known_names ∖ {[name]}, w')
  | (Raise e, w') => (LetThrough e, _known_names, w')
  | (Hang, w') => (NoAnswer, _known_names, w')
  end.

Definition _ClassModuleProxy___getattr__ := ModuleProxy___getattr__ Class.
Definition _ProtocolModuleProxy___getattr__ := ModuleProxy___getattr__ Protocol.

(** [__dir__]: [{*super().__dir__(), *self._known_names}] *)
Definition ModuleProxy___dir__ (module_dir _known_names : gset string) : gset string :=
  module_dir ∪ _known_names.

End ModuleProxies.

End api_rest.

(** * Vocabulary of the further statements *)

Module Vocabulary.
Import api.

(** The argument type is the [...] marker. *)
Definition is_ellipsis (a : argtype) : bool :=
  match a with AEllipsis => true | _ => false end.

(** Some [...] stands at a position other than the last. *)
Definition ellipsis_before_last (argtypes : list argtype) : bool :=
  existsb is_ellipsis (removelast argtypes).

(** The argument types that are not the marker, as ctypes. *)
Definition fixed_argtypes (argtypes : list argtype) : list ctype :=
  map getctype (List.filter (fun a => negb (is_ellipsis a)) argtypes).

(** A return type that passes the first test of [_make_function_ptr_ctype]:
    [void], or a type with a [kind]. *)
Definition returnable (restype : ctype) : bool :=
  match restype with
  | CVoid => true
  | _ => match kind restype with Some _ => true | None => false end
  end.

(** What a proxy constructor hands back: [None] or a proxy. *)
Definition is_object (v : pyval) : Prop :=
  match v with
  | VNone | VProxy _ => True
  | _ => False
  end.

(** The cdata types that [unwrap_cdata] converts: the object pointers, the
    integer types, [float] and [double], [char], [bool] and [SEL]. *)
Definition unwrapped_type (t : ctype) : bool :=
  existsb (fun n => is_typeof n t) ["id"; "Class"; "Protocol *"]
  || is_primitive INTEGER_TYPES t
  || is_primitive ["float"; "double"] t
  || is_primitive ["char"] t
  || is_primitive ["bool"] t
  || is_typeof "SEL" t.

(** The class [target] is met on the way up from [cls], before the chain
    of superclasses ends. *)
Definition on_chain (rt : Runtime) (target cls : addr) : Prop :=
  exists i, Nat.iter i (class_getSuperclass rt) cls = target
            /\ forall j, j <= i -> Nat.iter j (class_getSuperclass rt) cls <> NULL.

(** The proxy class that fits the entity at [a]: [MetaClass] for a
    metaclass, [Class] for any other class, [Protocol] for an object that
    [_is_protocol] recognises, [ID] for an object it does not.  The other
    proxy classes wrap what is not an object. *)
Definition kind_matches (rt : Runtime) (cls : pyclass) (a : addr) : Prop :=
  match cls with
  | MetaClass => object_isClass rt a = true /\ class_isMetaClass rt a = true
  | Class => object_isClass rt a = true /\ class_isMetaClass rt a = false
  | Protocol => object_isClass rt a = false /\ exists fuel, _is_protocol rt fuel a = Ok true
  | ID => object_isClass rt a = false /\ exists fuel, _is_protocol rt fuel a = Ok false
  | _ => True
  end.

(** Every live proxy has the class that fits the entity it wraps. *)
Definition kinds_ok (rt : Runtime) (w : world) : Prop :=
  forall p pr, heap w !! p = Some pr -> kind_matches rt (ob_type pr) (cdata pr).

(** What a constructor of the [ID] family needs to know of the address in
    its argument before it interns it under [cls]: nothing for [ID], which
    tests for itself; for the others, what their own branch has tested. *)
Definition tested (rt : Runtime) (cls : pyclass) (a : addr) : Prop :=
  match cls with
  | MetaClass => object_isClass rt a = true /\ class_isMetaClass rt a = true
  | Class => object_isClass rt a = true /\ class_isMetaClass rt a = false
  | Protocol => exists fuel, _is_protocol rt fuel a = Ok true
  | _ => True
  end.

(** One read of a lazy table, and what it answers. *)
Inductive access (K : Type) :=
| Contains (value : K)
| GetItem (key : K)
| Iter
| Len.
Arguments Contains {K} value.
Arguments GetItem {K} key.
Arguments Iter {K}.
Arguments Len {K}.

Inductive answer (K V : Type) :=
| ABool (b : bool)
| AValue (v : V)
| AKeys (keys : list K)
| ALen (n : nat).
Arguments ABool {K V} b.
Arguments AValue {K V} v.
Arguments AKeys {K V} keys.
Arguments ALen {K V} n.

Definition tag_answer {K V A : Type} (tag : A -> answer K V)
    (r : res A * api_rest.LazyOrderedDict K V) : res (answer K V) * api_rest.LazyOrderedDict K V :=
  (match fst r with Ok a => Ok (tag a) | Raise e => Raise e | Hang => Hang end, snd r).

(** The read [a] of the table [self], the runtime being in state [env]. *)
Definition perform {K V Env : Type} `{EqDecision K} (_get_full : Env -> res (list (K * V)))
    (self : api_rest.LazyOrderedDict K V) (a : access K) (env : Env)
    : res (answer K V) * api_rest.LazyOrderedDict K V :=
  match a with
  | Contains value =>
      tag_answer ABool (api_rest.LazyOrderedDict___contains__ _get_full value self env)
  | GetItem key =>
      tag_answer AValue (api_rest.LazyOrderedDict___getitem__ _get_full key self env)
  | Iter => tag_answer AKeys (api_rest.LazyOrderedDict___iter__ _get_full self env)
  | Len => tag_answer ALen (api_rest.LazyOrderedDict___len__ _get_full self env)
  end.

(** The same read of the plain dictionary with the items [d]. *)
Definition answer_of {K V : Type} `{EqDecision K} (d : list (K * V)) (a : access K)
    : res (answer K V) :=
  match a with
  | Contains value => Ok (ABool (m_contains (dict d) value))
  | GetItem key =>
      match m_getitem (dict d) key with
      | Some v => Ok (AValue v)
      | None => Raise KeyError
      end
  | Iter => Ok (AKeys (m_iter (dict d)))
  | Len => Ok (ALen (m_len (dict d)))
  end.

(** A series of reads, each with the runtime in a state of its own: the
    answers, and the table at the end. *)
Fixpoint perform_all {K V Env : Type} `{EqDecision K}
    (_get_full : Env -> res (list (K * V)))
    (self : api_rest.LazyOrderedDict K V) (reads : list (access K * Env))
    : list (res (answer K V)) * api_rest.LazyOrderedDict K V :=
  match reads with
  | [] => ([], self)
  | (a, env) :: rest =>
      let r := perform _get_full self a env in
      let rs := perform_all _get_full (snd r) rest in
      (fst r :: fst rs, snd rs)
  end.

(** Every cached selector proxy wraps a mapped selector. *)
Definition selectors_mapped (rt : Runtime) (w : world) : Prop :=
  forall a p, Selector_cache w !! a = Some p -> sel_isMapped rt a = true.

(** A mapping whose [in] agrees with its subscript. *)
Definition consistent {K V : Type} (m : Mapping K V) : Prop :=
  forall key, m_contains m key = true <-> is_Some (m_getitem m key).

(** A mapping whose length is the number of keys its iteration yields. *)
Definition sized {K V : Type} (m : Mapping K V) : Prop :=
  m_len m = length (m_iter m).

(** All the keys that the constituent mappings of a chain yield, level by
    level, repetitions included. *)
Definition all_keys {K V : Type} (c : MappingChain K V) : list K :=
  concat (map m_iter (_mappings c)).

Definition is_BitField (tp : encoding.BaseType) : bool :=
  match tp with encoding.BitField _ => true | _ => false end.

(** An encoded type without a misplaced internal type: a bit-field stands
    only as the type of a field of a struct or union, and a [Field] object
    nowhere as a type. *)
Fixpoint convertible (tp : encoding.BaseType) : bool :=
  match tp with
  | encoding.QualifiedType t | encoding.Pointer t | encoding.Array t _ => convertible t
  | encoding.Struct _ (Some fs) | encoding.Union _ (Some fs) =>
      forallb (fun f : option string * encoding.BaseType =>
                 let '(_, t) := f in is_BitField t || convertible t) fs
  | encoding.BitField _ | encoding.Field _ _ => false
  | _ => true
  end.

(** Each encoded type of the first list converts to the ctype at the same
    position of the second. *)
Definition converted (tps : list encoding.BaseType) (ts : list ctype) : Prop :=
  Forall2 (fun tp t => _encoding_type_to_cffi tp = Ok t) tps ts.

(** The value of a lower-case hexadecimal digit. *)
Fixpoint index_of (c : ascii) (s : string) (i : Z) : option Z :=
  match s with
  | EmptyString => None
  | String c' s' => if Ascii.eqb c c' then Some i else index_of c s' (i + 1)
  end.

Definition hex_value (c : ascii) : option Z := index_of c "0123456789abcdef" 0.

(** Reading hexadecimal digits, most significant first, onto [acc]. *)
Fixpoint parse_hex (s : string) (acc : Z) : option Z :=
  match s with
  | EmptyString => Some acc
  | String c s' =>
      match hex_value c with
      | Some d => parse_hex s' (acc * 16 + d)
      | None => None
      end
  end.

(** Reading back a text of the form [0x] followed by digits. *)
Definition parse_address (s : string) : option Z :=
  match s with
  | String "0" (String "x" s') => parse_hex s' 0
  | _ => None
  end.

End Vocabulary.

(** * Predicates and tactics of the proofs *)

Import api.

(** The world after a miss of [ID_intern]: the fresh proxy, the retain if
    asked for, the cache entry. *)
Definition interned (cls : pyclass) (a : addr) (retain : bool) (w : world) : world :=
  let pr := {| ob_type := cls; cdata := a; properties := ∅; class_slots := SlotsUnset |} in
  let w1 := set_next_pid (S (next_pid w)) (set_heap (<[next_pid w := pr]> (heap w)) w) in
  let w2 := if retain then set_log (log w1 ++ [EvRetain a]) w1 else w1 in
  set_cache cls (<[a := next_pid w]> (cache_of cls w2)) w2.

(** A stretch of a call that keeps the state well formed, keeps every entry
    and leaves the balance as it was. *)
Definition quiet (w w' : world) : Prop :=
  Spec.wf w' /\ Spec.ext w w' /\ forall b, Spec.owed w' b = Spec.owed w b.

(** A constructor that leaves the log alone outside the [ID] family. *)
Definition silent (call : pyclass -> pyval -> bool -> M pyval) : Prop :=
  forall cls arg retain w r w',
    pyclass_eqb (Spec.family cls) ID = false ->
    call cls arg retain w = (r, w') -> log w' = log w.

Tactic Notation "mstep" hyp(H) "as" ident(x) ident(w1) ident(E) :=
  match type of H with
  | (let (_, _) := ?cw in _) = _ =>
      destruct cw as [[x|?|] w1] eqn:E; cbv beta iota in H
  end.

(** Closes a goal [quiet w w' /\ (r = Ok self \/ ...)] from the final
    equation [H] and the stretch [Q] covered so far. *)
Ltac finish H Q :=
  injection H as <- <-; split; [exact Q | first [by left | by right]].

(** Every value that the computation returns satisfies [P]. *)
Definition yields {A} (P : A -> Prop) (c : M A) : Prop :=
  forall w v w', c w = (Ok v, w') -> P v.

(** What a conversion may come to: a type when the encoded type is
    convertible, the type error for internal types when it is not. *)
Definition conversion_outcome (r : res ctype) (ok : bool) : Prop :=
  match r with
  | Ok _ => ok = true
  | Raise e => e = TypeError MInternalType /\ ok = false
  | Hang => False
  end.

(** The computation keeps the invariant [I] of the world, whatever it
    comes to. *)
Definition keeps {A} (I : world -> Prop) (c : M A) : Prop :=
  forall w r w', I w -> c w = (r, w') -> I w'.

(** * Theorems *)

Import api_rest.

(** ** The calling convention selector *)

Lemma append_eq_self (a b : string) : a +:+ b = a -> b = "".
Proof.
  induction a as [|c a IH]; simpl; [done|].
  intros H. injection H as H. auto.
Qed.

Lemma primitive_kind_not_struct (n : string) :
  String.eqb (primitive_kind n) "struct" = false.
Proof.
  unfold primitive_kind.
  destruct (String.eqb n "char"); [reflexivity|].
  destruct (String.eqb n "float" || String.eqb n "double"); [reflexivity|].
  destruct (String.eqb n "signed char" || String.eqb n "unsigned char"); [reflexivity|].
  destruct (String.eqb n "_Bool" || String.eqb n "bool"); reflexivity.
Qed.

Lemma must_use_stret_true (LP64 : bool) (restype : ctype) :
  _must_use_stret LP64 restype = Ok true <->
  LP64 = false /\ exists tag fields, restype = CStructOrUnion KwStruct tag fields.
Proof.
  unfold _must_use_stret. split.
  - destruct LP64; simpl; [discriminate|].
    destruct restype as [|n| | |[] tag fields|]; simpl; try discriminate.
    + rewrite primitive_kind_not_struct. discriminate.
    + eauto.
  - intros [-> (tag & fields & ->)]. reflexivity.
Qed.


(** ** The type descriptor converter *)

Lemma field_to_cffi_spec (i : nat) (fname : option string)
    (ftype : encoding.BaseType) (cf : cfield) :
  field_to_cffi _encoding_type_to_cffi (Spec.field_name_at i fname) ftype = Ok cf ->
  Spec.field_matches i fname ftype cf.
Proof.
  unfold field_to_cffi, Spec.field_matches.
  destruct ftype; simpl;
    try (destruct (Z.eqb width 1); intros [= <-]; done);
    try (intros [= <-]; done);
    try discriminate;
    match goal with
    | |- context [_encoding_type_to_cffi ?t] =>
        destruct (_encoding_type_to_cffi t) as [ct| |]; simpl;
          try discriminate; intros [= <-]; done
    | |- context [aggregate_to_cffi ?f ?k ?n ?fs] =>
        destruct (aggregate_to_cffi f k n fs) as [ct| |]; simpl;
          try discriminate; intros [= <-]; done
    end.
Qed.

Lemma fields_to_cffi_spec (fs : list (option string * encoding.BaseType)) :
  forall (i : nat) (cfs : list cfield),
    fields_to_cffi _encoding_type_to_cffi i fs = Ok cfs ->
    length cfs = length fs /\
    forall j fname ftype, fs !! j = Some (fname, ftype) ->
      exists cf, cfs !! j = Some cf /\ Spec.field_matches (i + j) fname ftype cf.
Proof.
  induction fs as [|[fname ftype] fs IH]; intros i cfs H; simpl in H.
  - injection H as <-. split; [done|]. intros j ? ? Hj. done.
  - fold (Spec.field_name_at i fname) in H.
    destruct (field_to_cffi _ _ ftype) as [cf| |] eqn:Hcf; simpl in H; try discriminate.
    destruct (fields_to_cffi _encoding_type_to_cffi (S i) fs) as [rest| |] eqn:Hrest;
      simpl in H; try discriminate.
    injection H as <-.
    destruct (IH _ _ Hrest) as [Hlen Hrest'].
    apply field_to_cffi_spec in Hcf.
    split; [simpl; lia|].
    intros [|j] fn ft Hj; simpl in Hj.
    + injection Hj as <- <-. exists cf. rewrite Nat.add_0_r. done.
    + destruct (Hrest' _ _ _ Hj) as (cf' & ? & ?). exists cf'.
      replace (i + S j) with (S i + j) by lia. done.
Qed.

Lemma aggregate_named_incomplete (k : kw) (name : string) :
  _encoding_type_to_cffi (Spec.aggregate k (Some name) None) = Ok (CStructOrUnion k name None).
Proof. by destruct k. Qed.

Lemma named_incomplete_distinct (k : kw) (name : string) :
  Spec.distinct_from_placeholders (CStructOrUnion k name None) <-> ~ Spec.reserved_tag k name.
Proof.
  unfold Spec.distinct_from_placeholders, Spec.reserved_tag.
  change (typeof_name "unknown_type") with (CStructOrUnion KwStruct "DGUnknownType" None).
  change (typeof_name "unknown_struct") with (CStructOrUnion KwStruct "DGUnknownStruct" None).
  change (typeof_name "unknown_union") with (CStructOrUnion KwUnion "DGUnknownUnion" None).
  split.
  - intros (H1 & H2 & H3) [[-> [-> | ->]] | [-> ->]]; congruence.
  - intros H. repeat split; intros [= -> ->]; apply H; tauto.
Qed.




(** ** The dynamic invoker *)

(** C3. A send whose selector is not mapped fails with the invalid-selector
    value error; a send whose argument types do not end with [...] fails
    with an arity value error when the number of arguments differs from the
    number of argument types or from the number of colons of the selector's
    name.  In each case the world is left as it was: no entry point has been
    resolved or called, nothing retained or released. *)
Theorem send_rejects_before_call (LP64 : bool) (rt : Runtime) (obj : pyval) (op : addr)
    (args : list pyval) (restype : ctype) (argtypes : list argtype) (w : world) :
  (sel_isMapped rt op = false ->
     _objc_msgSend LP64 rt obj op args restype argtypes w =
       (Raise (ValueError (MInvalidSelector op)), w))
  /\ (sel_isMapped rt op = true -> ends_with_ellipsis argtypes = false ->
      length args <> length argtypes ->
      _objc_msgSend LP64 rt obj op args restype argtypes w =
        (Raise (ValueError (MArgsVsArgtypes (length args) (length argtypes))), w))
  /\ (sel_isMapped rt op = true -> ends_with_ellipsis argtypes = false ->
      length args = length argtypes ->
      length args <> count_byte ":" (sel_getName rt op) ->
      _objc_msgSend LP64 rt obj op args restype argtypes w =
        (Raise (ValueError (MArgsVsColons (length args) (count_byte ":" (sel_getName rt op)))), w)).
Proof.
  unfold _objc_msgSend, mbind, lift, _check_argcounts.
  split_and!.
  - intros ->. reflexivity.
  - intros -> -> Hne. apply Nat.eqb_neq in Hne. simpl. by rewrite Hne.
  - intros -> -> Heq Hne. apply Nat.eqb_neq in Hne. simpl.
    rewrite Heq, Nat.eqb_refl. simpl. rewrite <- Heq. by rewrite Hne.
Qed.

(** The three rejections on the demo runtime: an unmapped selector, one
    argument against two declared types, and no argument for a selector
    with two colons. *)
Lemma send_rejects_before_call_witness :
  _objc_msgSend false Demo.rt (VCData (typeof_name "id") 1000) 4242 [] (typeof_name "id") []
      Demo.w_instance =
    (Raise (ValueError (MInvalidSelector 4242)), Demo.w_instance)
  /\ _objc_msgSend false Demo.rt (VCData (typeof_name "id") 1000) 5002 [VInt 1]
        (typeof_name "id") [AName "id"; AName "id"] Demo.w_instance =
      (Raise (ValueError (MArgsVsArgtypes 1 2)), Demo.w_instance)
  /\ _objc_msgSend false Demo.rt (VCData (typeof_name "id") 1000) 5002 []
        (typeof_name "id") [] Demo.w_instance =
      (Raise (ValueError (MArgsVsColons 0 2)), Demo.w_instance).
Proof.
  split_and!.
  - apply (proj1 (send_rejects_before_call false Demo.rt (VCData (typeof_name "id") 1000)
                    4242 [] (typeof_name "id") [] Demo.w_instance)).
    reflexivity.
  - apply (proj1 (proj2 (send_rejects_before_call false Demo.rt (VCData (typeof_name "id") 1000)
                    5002 [VInt 1] (typeof_name "id") [AName "id"; AName "id"] Demo.w_instance)));
      [reflexivity | reflexivity | simpl; lia].
  - apply (proj2 (proj2 (send_rejects_before_call false Demo.rt (VCData (typeof_name "id") 1000)
                    5002 [] (typeof_name "id") [] Demo.w_instance)));
      [reflexivity | reflexivity | reflexivity | vm_compute; lia].
Defined.

(** A send that passes the checks resolves the entry point and calls it. *)
Example send_accepted :
  log (snd (_objc_msgSend false Demo.rt (VCData (typeof_name "id") 1000) 5001 []
              (typeof_name "id") [] empty_world)) =
    [EvResolve "objc_msgSend";
     EvInvoke "objc_msgSend"
       (CFunctionPtr (typeof_name "id") [typeof_name "id"; typeof_name "SEL"] false)
       [VCData (typeof_name "id") 1000; VCData (typeof_name "SEL") 5001]].
Proof. reflexivity. Qed.

(** ** Chained mappings *)

Section ChainFacts.

Context {K V : Type} `{EqDecision K}.

Lemma iter_keys_spec (keys seen : list K) :
  NoDup (fst (iter_keys keys seen))
  /\ (forall k, k ∈ fst (iter_keys keys seen) -> (k ∉ seen) /\ (k ∈ keys))
  /\ (forall k, k ∈ snd (iter_keys keys seen) <-> k ∈ fst (iter_keys keys seen) \/ k ∈ seen).
Proof.
  revert seen. induction keys as [|key rest IH]; intros seen; simpl.
  - split_and!; [constructor | set_solver | set_solver].
  - case_bool_decide as Hin.
    + destruct (IH seen) as (H1 & H2 & H3). split_and!; [done | | done].
      intros k Hk. destruct (H2 k Hk). set_solver.
    + destruct (IH (key :: seen)) as (H1 & H2 & H3). simpl. split_and!.
      * constructor; [|done]. intros Hk. destruct (H2 _ Hk). set_solver.
      * intros k [->|Hk]%elem_of_cons; [set_solver|].
        destruct (H2 _ Hk). set_solver.
      * intros k. rewrite H3. set_solver.
Qed.

Lemma iter_mappings_spec (ms : list (Mapping K V)) (seen : list K) :
  NoDup (iter_mappings ms seen)
  /\ forall k, k ∈ iter_mappings ms seen -> k ∉ seen.
Proof.
  revert seen. induction ms as [|m rest IH]; intros seen; simpl.
  - split; [constructor | set_solver].
  - destruct (iter_keys_spec (m_iter m) seen) as (H1 & H2 & H3).
    destruct (IH (snd (iter_keys (m_iter m) seen))) as (H4 & H5).
    split.
    + apply NoDup_app. split_and!; [done | | done].
      intros k Hk Hk'. apply (H5 _ Hk'). apply H3. by left.
    + intros k [Hk|Hk]%elem_of_app; [by apply H2|].
      intros Hs. apply (H5 _ Hk). apply H3. by right.
Qed.

(** Iteration yields no key twice. *)
Lemma MappingChain_iter_NoDup (c : MappingChain K V) : NoDup (MappingChain___iter__ c).
Proof. apply iter_mappings_spec. Qed.

Lemma inherited_view_order (supers : list (Mapping K V)) :
  forall declared,
    match inherited_view declared supers with
    | Plain m => supers = [] /\ m = declared
    | Chain c => _mappings c = Spec.chain_order declared supers
    end.
Proof.
  induction supers as [|s rest IH]; intros declared; simpl; [done|].
  specialize (IH s). unfold MappingChain___init__. simpl.
  destruct (inherited_view s rest) as [m|c]; simpl.
  - destruct IH as [-> ->]. reflexivity.
  - rewrite IH. rewrite rev_app_distr. reflexivity.
Qed.

End ChainFacts.


(** ** Interning and ownership *)

Lemma cache_of_family (k : pyclass) (w : world) :
  cache_of k w = cache_of (Spec.family k) w.
Proof. by destruct k. Qed.

Lemma cache_of_ID (k : pyclass) (w : world) :
  Spec.family k = ID -> cache_of k w = ID_cache w.
Proof. by destruct k. Qed.

Lemma cache_of_set_cache (k cls : pyclass) (c : gmap Z pid) (w : world) :
  cache_of k (set_cache cls c w) =
  if pyclass_eqb (Spec.family k) (Spec.family cls) then c else cache_of k w.
Proof. by destruct k, cls. Qed.

Lemma pyclass_eqb_eq (c d : pyclass) : pyclass_eqb c d = true <-> c = d.
Proof. destruct c, d; simpl; split; congruence. Qed.

Lemma issubclass_family (c d : pyclass) :
  issubclass c d = true -> Spec.family c = Spec.family d.
Proof. destruct c, d; simpl; congruence. Qed.

Lemma family_idem (c : pyclass) : Spec.family (Spec.family c) = Spec.family c.
Proof. by destruct c. Qed.

Lemma issubclass_ID_family (c : pyclass) :
  issubclass c ID = true <-> Spec.family c = ID.
Proof. destruct c; simpl; split; congruence. Qed.

Lemma ext_refl (w : world) : Spec.ext w w.
Proof. split; [done|]. intros p pr H. by exists pr. Qed.

Lemma ext_trans (w1 w2 w3 : world) : Spec.ext w1 w2 -> Spec.ext w2 w3 -> Spec.ext w1 w3.
Proof.
  intros [Hc1 Hh1] [Hc2 Hh2]. split; [auto|].
  intros p pr H. destruct (Hh1 _ _ H) as (pr' & H' & E1 & E2 & E3).
  destruct (Hh2 _ _ H') as (pr'' & H'' & F1 & F2 & F3).
  exists pr''. split_and!; congruence.
Qed.

Lemma retains_app (a : addr) (l1 l2 : list event) :
  Spec.retains a (l1 ++ l2) = (Spec.retains a l1 + Spec.retains a l2)%Z.
Proof. induction l1 as [|[] l1 IH]; simpl; lia. Qed.

Lemma releases_app (a : addr) (l1 l2 : list event) :
  Spec.releases a (l1 ++ l2) = (Spec.releases a l1 + Spec.releases a l2)%Z.
Proof. induction l1 as [|[] l1 IH]; simpl; lia. Qed.

(** A step that touches the log only. *)
Lemma frame_log (w : world) (l : list event) :
  Spec.wf w -> Spec.wf (set_log l w) /\ Spec.ext w (set_log l w).
Proof. intros H. split; [exact H | exact (ext_refl w)]. Qed.

Lemma owed_release (w : world) (a b : addr) :
  Spec.owed (set_log (log w ++ [EvRelease a]) w) b =
  (Spec.owed w b - if Z.eqb a b then 1 else 0)%Z.
Proof.
  unfold Spec.owed, Spec.cached. simpl. rewrite retains_app, releases_app. simpl. lia.
Qed.

Lemma owed_retain (w : world) (a b : addr) :
  Spec.owed (set_log (log w ++ [EvRetain a]) w) b =
  (Spec.owed w b + if Z.eqb a b then 1 else 0)%Z.
Proof.
  unfold Spec.owed, Spec.cached. simpl. rewrite retains_app, releases_app. simpl. lia.
Qed.

Lemma cache_of_same_family (k cls : pyclass) (w : world) :
  Spec.family k = Spec.family cls -> cache_of k w = cache_of cls w.
Proof. intros H. by rewrite (cache_of_family k), H, <- cache_of_family. Qed.

(** Storing a fresh proxy for an address that has no entry. *)
Lemma wf_store (w w' : world) (cls : pyclass) (a : addr) (pr : proxy) :
  Spec.wf w ->
  cache_of cls w !! a = None ->
  ob_type pr = cls -> cdata pr = a ->
  heap w' = <[next_pid w := pr]> (heap w) ->
  next_pid w' = S (next_pid w) ->
  (forall k, cache_of k w' =
     if pyclass_eqb (Spec.family k) (Spec.family cls)
     then <[a := next_pid w]> (cache_of cls w) else cache_of k w) ->
  Spec.wf w' /\ Spec.ext w w'.
Proof.
  intros (W1 & W2 & W3) Hnone Hty Hcd Hheap Hnext Hcache.
  assert (heap w !! next_pid w = None) as Hfresh.
  { destruct (heap w !! next_pid w) eqn:E; [|done].
    assert (next_pid w < next_pid w) by (apply W3; eauto). lia. }
  assert (forall k b p, cache_of k w !! b = Some p -> p <> next_pid w) as Hold.
  { intros k b p Hp ->. destruct (W1 _ _ _ Hp) as (? & ? & _). congruence. }
  assert (forall k b p, cache_of k w !! b = Some p -> cache_of k w' !! b = Some p) as Hkeep.
  { intros k b p Hp. rewrite Hcache. destruct (pyclass_eqb _ _) eqn:Efam; [|done].
    apply pyclass_eqb_eq in Efam.
    rewrite <- (cache_of_same_family k cls w Efam).
    rewrite lookup_insert_ne; [done|]. intros Heq.
    rewrite <- (cache_of_same_family k cls w Efam), Heq in Hnone. congruence. }
  split; [split_and!|split].
  - intros k b p. rewrite Hcache, Hheap.
    destruct (pyclass_eqb _ _) eqn:Efam.
    + apply pyclass_eqb_eq in Efam.
      rewrite lookup_insert. case_decide as Hab.
      * intros [= <-]. exists pr. rewrite lookup_insert_eq. subst. split_and!; try done.
      * intros Hp. rewrite <- (cache_of_same_family k cls w Efam) in Hp.
        destruct (W1 _ _ _ Hp) as (pr' & ? & ? & ?). exists pr'.
        rewrite lookup_insert_ne; [done|]. intros Heq. by apply (Hold _ _ _ Hp).
    + intros Hp. destruct (W1 _ _ _ Hp) as (pr' & ? & ? & ?). exists pr'.
      rewrite lookup_insert_ne; [done|]. intros Heq. by apply (Hold _ _ _ Hp).
  - intros p pr'. rewrite Hheap, lookup_insert. case_decide as Hp.
    + intros [= <-]. subst. rewrite Hcache, (proj2 (pyclass_eqb_eq _ _) eq_refl).
      by rewrite lookup_insert_eq.
    + intros Hpr. apply Hkeep. by apply W2.
  - intros p. rewrite Hheap, Hnext, lookup_insert_is_Some.
    intros [<- | [_ Hp]]; [lia|]. specialize (W3 _ Hp). lia.
  - exact Hkeep.
  - intros p pr' Hpr. exists pr'. rewrite Hheap.
    rewrite lookup_insert_ne; [done|]. intros <-. congruence.
Qed.

Lemma post_intro (w : world) (cls : pyclass) (arg : pyval) (retain : bool)
    (r : res pyval) (w' : world) :
  Spec.wf w' -> Spec.ext w w' -> Spec.result_ok cls arg r w' ->
  Spec.balance cls retain r w w' ->
  Spec.post w cls arg retain r w'.
Proof. unfold Spec.post. tauto. Qed.

Lemma balance_same (cls : pyclass) (retain : bool) (r : res pyval) (w w' : world) :
  (forall b, Spec.owed w' b = Spec.owed w b) ->
  match r with Ok (VProxy _) => Spec.keeps_balance cls retain = true | _ => True end ->
  Spec.balance cls retain r w w'.
Proof.
  intros Hsame Hr b. destruct (Spec.keeps_balance cls retain); [done|].
  destruct r as [[]| |]; simpl; rewrite ?Hsame; try done; lia.
Qed.

(** A call that fails or returns [None] without touching the world. *)
Lemma post_unchanged (w : world) (cls : pyclass) (arg : pyval) (retain : bool)
    (r : res pyval) :
  Spec.wf w ->
  match r with Ok (VProxy _) => False | _ => True end ->
  Spec.post w cls arg retain r w.
Proof.
  intros Hwf Hr. apply post_intro; [done | apply ext_refl | |].
  - destruct r as [[]| |]; done.
  - apply balance_same; [done|]. destruct r as [[]| |]; done.
Qed.

Lemma ID_intern_hit (cls : pyclass) (a : addr) (retain : bool) (w : world)
    (p : pid) (pr : proxy) :
  cache_of cls w !! a = Some p -> heap w !! p = Some pr ->
  ID_intern cls a retain w =
    (Ok (VProxy p), if retain then w else set_log (log w ++ [EvRelease (cdata pr)]) w).
Proof.
  intros Hc Hpr.
  unfold ID_intern, except_KeyError, mbind, cache_getitem, get_proxy, ret, _release, emit.
  cbv beta. rewrite Hc. cbv beta iota. rewrite Hpr. by destruct retain.
Qed.

Lemma ID_intern_miss (cls : pyclass) (a : addr) (retain : bool) (w : world) :
  cache_of cls w !! a = None ->
  ID_intern cls a retain w = (Ok (VProxy (next_pid w)), interned cls a retain w).
Proof.
  intros Hc.
  unfold ID_intern, except_KeyError, mbind, cache_getitem, get_proxy, ret, _retain, emit,
    alloc, cache_setitem, interned.
  cbv beta. rewrite Hc. cbv beta iota. rewrite Hc. by destruct retain.
Qed.

Lemma interned_wf (cls : pyclass) (a : addr) (retain : bool) (w : world) :
  Spec.wf w -> cache_of cls w !! a = None ->
  Spec.wf (interned cls a retain w) /\ Spec.ext w (interned cls a retain w).
Proof.
  intros Hwf Hc.
  apply (wf_store w _ cls a
           {| ob_type := cls; cdata := a; properties := ∅; class_slots := SlotsUnset |});
    try done.
  - by destruct retain.
  - by destruct retain.
  - intros k. unfold interned. rewrite cache_of_set_cache. by destruct retain.
Qed.

Lemma interned_lookup (cls : pyclass) (a : addr) (retain : bool) (w : world) :
  heap (interned cls a retain w) !! next_pid w =
    Some {| ob_type := cls; cdata := a; properties := ∅; class_slots := SlotsUnset |}
  /\ cache_of cls (interned cls a retain w) !! a = Some (next_pid w).
Proof.
  unfold interned. rewrite cache_of_set_cache.
  rewrite (proj2 (pyclass_eqb_eq _ _) eq_refl).
  split; [destruct retain; simpl; apply lookup_insert_eq | apply lookup_insert_eq].
Qed.

Lemma owed_interned (cls : pyclass) (a : addr) (retain : bool) (w : world) (b : addr) :
  Spec.family cls = ID -> cache_of cls w !! a = None ->
  Spec.owed (interned cls a retain w) b =
  (Spec.owed w b - if retain then 0 else if Z.eqb a b then 1 else 0)%Z.
Proof.
  intros Hfam Hc. rewrite (cache_of_ID _ _ Hfam) in Hc.
  unfold Spec.owed, Spec.cached.
  assert (ID_cache (interned cls a retain w) = <[a := next_pid w]> (ID_cache w)) as ->
    by (destruct cls, retain; done).
  assert (log (interned cls a retain w) =
          if retain then log w ++ [EvRetain a] else log w) as ->
    by (destruct cls, retain; done).
  rewrite lookup_insert. destruct (Z.eqb_spec a b) as [->|Hne].
  - rewrite decide_True by done. rewrite Hc.
    destruct retain; rewrite ?retains_app, ?releases_app; simpl; rewrite ?Z.eqb_refl; lia.
  - rewrite decide_False by done.
    destruct retain; rewrite ?retains_app, ?releases_app; simpl;
      rewrite ?(proj2 (Z.eqb_neq a b) Hne); lia.
Qed.

Lemma ID_intern_spec (cls : pyclass) (arg : pyval) (a : addr) (retain : bool)
    (w : world) (r : res pyval) (w' : world) :
  Spec.family cls = ID -> Spec.arg_address arg = Some a ->
  Spec.wf w -> ID_intern cls a retain w = (r, w') ->
  Spec.post w cls arg retain r w'.
Proof.
  intros Hfam Harg Hwf H.
  assert (Spec.keeps_balance cls retain = retain) as Hkeep
    by (unfold Spec.keeps_balance; rewrite Hfam; apply orb_false_r).
  destruct (cache_of cls w !! a) as [p|] eqn:Hc.
  - pose proof Hwf as (W1 & W2 & W3).
    destruct (W1 _ _ _ Hc) as (pr & Hpr & Hcd & Hty).
    rewrite (ID_intern_hit _ _ _ _ _ _ Hc Hpr) in H. injection H as <- <-.
    apply post_intro.
    + by destruct retain.
    + destruct retain; exact (ext_refl w).
    + exists pr. split_and!; [by destruct retain | done | congruence].
    + intros b. rewrite Hkeep. destruct retain; [done|].
      unfold Spec.credit. simpl. rewrite Hpr, owed_release. by rewrite Hcd.
  - rewrite (ID_intern_miss _ _ _ _ Hc) in H. injection H as <- <-.
    destruct (interned_wf cls a retain w Hwf Hc) as [Hwf' Hext].
    destruct (interned_lookup cls a retain w) as [Hh Hcache].
    apply post_intro; [done | done | |].
    + eexists. split_and!; [exact Hh | done | simpl; congruence].
    + intros b. rewrite Hkeep, (owed_interned _ _ _ _ _ Hfam Hc).
      unfold Spec.credit. rewrite Hh. simpl. destruct retain; [lia | done].
Qed.

Lemma owed_interned_other (cls : pyclass) (a : addr) (w : world) (b : addr) :
  pyclass_eqb (Spec.family cls) ID = false ->
  Spec.owed (interned cls a false w) b = Spec.owed w b.
Proof. intros Hfam. by destruct cls. Qed.

Lemma keeps_balance_other (cls : pyclass) (retain : bool) :
  pyclass_eqb (Spec.family cls) ID = false -> Spec.keeps_balance cls retain = true.
Proof. intros H. unfold Spec.keeps_balance. rewrite H. apply orb_true_r. Qed.

Lemma address_new_spec (cls : pyclass) (valid : addr -> M unit) (arg : pyval) (a : addr)
    (retain : bool) (w : world) (r : res pyval) (w' : world) :
  pyclass_eqb (Spec.family cls) ID = false ->
  (forall w0, valid a w0 = (Ok tt, w0) \/ exists e, valid a w0 = (Raise e, w0)) ->
  Spec.arg_address arg = Some a ->
  Spec.wf w -> address_new cls valid a w = (r, w') ->
  Spec.post w cls arg retain r w'.
Proof.
  intros Hfam Hvalid Harg Hwf H. unfold address_new in H.
  pose proof (keeps_balance_other cls retain Hfam) as Hkeep.
  destruct (Z.eqb a NULL); [injection H as <- <-; by apply post_unchanged|].
  unfold except_KeyError, mbind, cache_getitem, ret, alloc, cache_setitem in H.
  cbv beta in H.
  destruct (cache_of cls w !! a) as [p|] eqn:Hc; cbv beta iota in H.
  - injection H as <- <-. apply post_intro; [done | apply ext_refl | |].
    + destruct Hwf as (W1 & _). destruct (W1 _ _ _ Hc) as (pr & ? & ? & ?).
      exists pr. split_and!; [done | done | simpl; congruence].
    + by apply balance_same.
  - rewrite Hc in H. cbv beta iota in H.
    destruct (Hvalid w) as [Hv | [e Hv]]; rewrite Hv in H; cbv beta iota in H.
    + injection H as <- <-.
      change (Spec.post w cls arg retain (Ok (VProxy (next_pid w))) (interned cls a false w)).
      destruct (interned_wf cls a false w Hwf Hc) as [Hwf' Hext].
      destruct (interned_lookup cls a false w) as [Hh Hcache].
      apply post_intro; [done | done | |].
      * eexists. split_and!; [exact Hh | done | simpl; congruence].
      * apply balance_same; [|done]. intros b. by apply owed_interned_other.
    + assert (r = Raise e /\ w' = w) as [-> ->] by (destruct e; by injection H as <- <-).
      by apply post_unchanged.
Qed.

Lemma already_instance_spec (cls : pyclass) (p : pid) (pr : proxy) (retain : bool)
    (w : world) (r : res pyval) (w' : world) :
  Spec.family cls = ID ->
  heap w !! p = Some pr -> issubclass (ob_type pr) cls = true ->
  Spec.wf w -> already_instance p retain w = (r, w') ->
  Spec.post w cls (VProxy p) retain r w'.
Proof.
  intros Hfam Hpr Hsub Hwf H.
  assert (Spec.keeps_balance cls retain = retain) as Hkeep
    by (unfold Spec.keeps_balance; rewrite Hfam; apply orb_false_r).
  unfold already_instance, mbind, get_proxy, ret, _release, emit in H.
  cbv beta in H. rewrite Hpr in H. cbv beta iota in H.
  assert (r = Ok (VProxy p) /\
          w' = if retain then w else set_log (log w ++ [EvRelease (cdata pr)]) w)
    as [-> ->] by (destruct retain; by injection H as <- <-).
  apply post_intro.
  - by destruct retain.
  - destruct retain; exact (ext_refl w).
  - exists pr. split_and!; [by destruct retain | by apply issubclass_family | done].
  - intros b. rewrite Hkeep. destruct retain; [done|].
    unfold Spec.credit. simpl. by rewrite Hpr, owed_release.
Qed.

Lemma post_keeps (w w' : world) (cls : pyclass) (arg : pyval) (retain : bool)
    (r : res pyval) :
  Spec.keeps_balance cls retain = true ->
  Spec.post w cls arg retain r w' ->
  Spec.wf w' /\ Spec.ext w w' /\ forall b, Spec.owed w' b = Spec.owed w b.
Proof.
  intros Hk (W & E & _ & B). split_and!; [done | done |].
  intros b. specialize (B b). by rewrite Hk in B.
Qed.

(** A step that leaves the balance as it was, before the rest of a call. *)
Lemma post_after (w w1 w' : world) (cls : pyclass) (arg : pyval)
    (retain : bool) (r : res pyval) :
  Spec.ext w w1 -> (forall b, Spec.owed w1 b = Spec.owed w b) ->
  Spec.post w1 cls arg retain r w' ->
  Spec.post w cls arg retain r w'.
Proof.
  intros E1 O1 (W2 & E2 & R2 & B2).
  apply post_intro; [done | by eapply ext_trans | done |].
  intros b. specialize (B2 b). destruct (Spec.keeps_balance cls retain).
  - by rewrite B2.
  - destruct r; try done. by rewrite B2, O1.
Qed.

(** The result of a call passed on as the result of the caller. *)
Lemma post_tail (w w' : world) (cls1 cls : pyclass) (arg1 arg : pyval)
    (retain1 retain : bool) (r : res pyval) :
  Spec.family cls1 = Spec.family cls ->
  Spec.keeps_balance cls1 retain1 = Spec.keeps_balance cls retain ->
  (forall a, Spec.arg_address arg = Some a -> Spec.arg_address arg1 = Some a) ->
  Spec.post w cls1 arg1 retain1 r w' ->
  Spec.post w cls arg retain r w'.
Proof.
  intros Hfam Hk Harg (W1 & E1 & R1 & B1).
  apply post_intro; [done | done | |].
  - destruct r as [[]| |]; try done. destruct R1 as (pr & ? & ? & Ha).
    exists pr. split_and!; [done | congruence | auto].
  - intros b. specialize (B1 b). by rewrite <- Hk.
Qed.

Lemma as_address_arg (ctypes : list string) (arg : pyval) (a : addr) :
  as_address ctypes arg = Some a -> Spec.arg_address arg = Some a.
Proof.
  destruct arg; simpl; try discriminate; [done|].
  destruct (existsb _ _); [done | discriminate].
Qed.

Lemma isinstance_eq (p : pid) (cls : pyclass) (w : world) :
  isinstance p cls w =
    (Ok match heap w !! p with
        | Some pr => issubclass (ob_type pr) cls
        | None => false
        end, w).
Proof. reflexivity. Qed.

(** Returning the argument itself, a proxy that is an instance of [cls]. *)
Lemma post_same_proxy (w : world) (cls : pyclass) (p : pid) (retain : bool) :
  Spec.wf w ->
  match heap w !! p with
  | Some pr => issubclass (ob_type pr) cls
  | None => false
  end = true ->
  Spec.keeps_balance cls retain = true ->
  Spec.post w cls (VProxy p) retain (Ok (VProxy p)) w.
Proof.
  intros Hwf Hin Hk. apply post_intro; [done | apply ext_refl | |].
  - destruct (heap w !! p) as [pr|] eqn:Hpr; [|done].
    exists pr. split_and!; [done | by apply issubclass_family | done].
  - by apply balance_same.
Qed.

Section Bodies.

Variable rt : Runtime.
Variable fuel : nat.
Variable call : pyclass -> pyval -> bool -> M pyval.
Hypothesis Hcall : Spec.call_spec call.

Lemma plain_new_spec (ctypes : list string) (what : string) (cls : pyclass)
    (arg : pyval) (retain : bool) (w : world) (r : res pyval) (w' : world) :
  pyclass_eqb (Spec.family cls) ID = false ->
  Spec.wf w -> plain___new__ ctypes what cls arg w = (r, w') ->
  Spec.post w cls arg retain r w'.
Proof.
  intros Hfam Hwf H. pose proof (keeps_balance_other cls retain Hfam) as Hk.
  unfold plain___new__ in H.
  destruct arg; simpl in H;
    try (injection H as <- <-; by apply post_unchanged).
  - unfold mbind in H. rewrite isinstance_eq in H.
    destruct (match heap w !! p with Some _ => _ | None => _ end) eqn:Hin;
      injection H as <- <-; [by apply post_same_proxy | by apply post_unchanged].
  - apply (address_new_spec cls (fun _ => ret tt) (VInt z) z retain w r w' Hfam);
      [intros; by left | done | done | exact H].
  - destruct (existsb _ _).
    + apply (address_new_spec cls (fun _ => ret tt) (VCData t a) a retain w r w' Hfam);
        [intros; by left | done | done | exact H].
    + injection H as <- <-. by apply post_unchanged.
Qed.

Lemma Selector_new_spec (cls : pyclass) (arg : pyval) (retain : bool)
    (w : world) (r : res pyval) (w' : world) :
  pyclass_eqb (Spec.family cls) ID = false ->
  Spec.wf w -> Selector___new__ rt call cls arg w = (r, w') ->
  Spec.post w cls arg retain r w'.
Proof.
  intros Hfam Hwf H. pose proof (keeps_balance_other cls retain Hfam) as Hk.
  assert (forall arg1, Spec.arg_address arg = None ->
            call cls arg1 true w = (r, w') -> Spec.post w cls arg retain r w') as Htail.
  { intros arg1 Hnone H1. apply Hcall in H1; [|done].
    apply (post_tail w w' cls cls arg1 arg true retain r); [done | | | done].
    - by rewrite Hk, (keeps_balance_other cls true Hfam).
    - intros a. by rewrite Hnone. }
  unfold Selector___new__ in H.
  destruct arg; simpl in H;
    try (injection H as <- <-; by apply post_unchanged);
    try (by eapply Htail).
  - unfold mbind in H. rewrite isinstance_eq in H.
    destruct (match heap w !! p with Some _ => _ | None => _ end) eqn:Hin;
      injection H as <- <-; [by apply post_same_proxy | by apply post_unchanged].
  - refine (address_new_spec cls _ (VInt z) z retain w r w' Hfam _ eq_refl Hwf H).
    intros w0. destruct (sel_isMapped rt z); [by left | right; eauto].
  - match type of H with context [if ?c then Some _ else None] => destruct c end.
    + refine (address_new_spec cls _ (VCData t a) a retain w r w' Hfam _ eq_refl Hwf H).
      intros w0. destruct (sel_isMapped rt a); [by left | right; eauto].
    + injection H as <- <-. by apply post_unchanged.
Qed.


Lemma ID_from_address_spec (cls : pyclass) (arg : pyval) (a : addr) (retain : bool)
    (w : world) (r : res pyval) (w' : world) :
  Spec.family cls = ID -> Spec.arg_address arg = Some a ->
  Spec.wf w -> ID_from_address rt fuel call cls a retain w = (r, w') ->
  Spec.post w cls arg retain r w'.
Proof.
  intros Hfam Harg Hwf H.
  assert (forall cls1 n, Spec.family cls1 = ID ->
            call cls1 (cast n a) retain w = (r, w') -> Spec.post w cls arg retain r w')
    as Htail.
  { intros cls1 n Hfam1 H1. apply Hcall in H1; [|done].
    apply (post_tail w w' cls1 cls (cast n a) arg retain retain r); [congruence | | | done].
    - unfold Spec.keeps_balance. by rewrite Hfam, Hfam1.
    - intros a'. rewrite Harg. by intros [= <-]. }
  unfold ID_from_address in H.
  destruct (Z.eqb a NULL); [injection H as <- <-; by apply post_unchanged|].
  destruct (negb (issubclass cls Class) && object_isClass rt a);
    [exact (Htail Class "Class" eq_refl H)|].
  unfold mbind, lift, ret in H.
  destruct (negb (issubclass cls Protocol)).
  - destruct (_is_protocol rt fuel a) as [[]|e|]; cbv beta iota in H.
    + exact (Htail Protocol "Protocol *" eq_refl H).
    + by eapply ID_intern_spec.
    + assert (r = Raise e /\ w' = w) as [-> ->] by (destruct e; by injection H as <- <-).
      by apply post_unchanged.
    + injection H as <- <-. by apply post_unchanged.
  - cbv beta iota in H. by eapply ID_intern_spec.
Qed.

Lemma ID_new_spec (cls : pyclass) (arg : pyval) (retain : bool)
    (w : world) (r : res pyval) (w' : world) :
  Spec.family cls = ID ->
  Spec.wf w -> ID___new__ rt fuel call cls arg retain w = (r, w') ->
  Spec.post w cls arg retain r w'.
Proof.
  intros Hfam Hwf H. unfold ID___new__ in H.
  destruct arg; simpl in H;
    try (injection H as <- <-; by apply post_unchanged).
  - unfold mbind in H. rewrite isinstance_eq in H. cbv beta iota in H.
    destruct (heap w !! p) as [pr|] eqn:Hpr.
    + destruct (issubclass (ob_type pr) cls) eqn:Hsub;
        [by eapply already_instance_spec|].
      rewrite isinstance_eq, Hpr in H. cbv beta iota in H.
      destruct (issubclass (ob_type pr) ID).
      * unfold get_proxy in H. rewrite Hpr in H. cbv beta iota in H.
        apply Hcall in H; [|done].
        apply (post_tail w w' ID cls (VInt (cdata pr)) (VProxy p) retain retain r);
          [by rewrite Hfam | | discriminate | done].
        unfold Spec.keeps_balance. by rewrite Hfam.
      * injection H as <- <-. by apply post_unchanged.
    + rewrite isinstance_eq, Hpr in H. cbv beta iota in H.
      injection H as <- <-. by apply post_unchanged.
  - by eapply ID_from_address_spec.
  - match type of H with context [if ?c then Some _ else None] => destruct c end.
    + by eapply ID_from_address_spec.
    + injection H as <- <-. by apply post_unchanged.
Qed.

Lemma quiet_refl (w : world) : Spec.wf w -> quiet w w.
Proof. intros H. split_and!; [done | apply ext_refl | done]. Qed.

Lemma quiet_trans (w1 w2 w3 : world) : quiet w1 w2 -> quiet w2 w3 -> quiet w1 w3.
Proof.
  intros (W1 & E1 & O1) (W2 & E2 & O2).
  split_and!; [done | by eapply ext_trans | intros b; by rewrite O2].
Qed.

Lemma get_proxy_eq (p : pid) (w : world) :
  get_proxy p w =
    match heap w !! p with
    | Some pr => (Ok pr, w)
    | None => (Raise (AttributeError "cdata"), w)
    end.
Proof. reflexivity. Qed.

Lemma set_class_slots_quiet (p : pid) (st : slots_state) (w : world)
    (r : res unit) (w' : world) :
  Spec.wf w -> set_class_slots p st w = (r, w') -> quiet w w'.
Proof.
  intros Hwf H. unfold set_class_slots in H.
  destruct (heap w !! p) as [pr|] eqn:Hpr; injection H as <- <-; [|by apply quiet_refl].
  destruct Hwf as (W1 & W2 & W3).
  split_and!; [split_and!| split |done].
  - intros k a q Hq. destruct (W1 _ _ _ Hq) as (qr & Hqr & ? & ?). simpl.
    destruct (decide (p = q)) as [->|Hne].
    + rewrite lookup_insert_eq. eexists. split_and!; [done | |]; simpl; congruence.
    + rewrite lookup_insert_ne by done. eauto.
  - intros q qr. simpl. rewrite lookup_insert. case_decide as Hq.
    + intros [= <-]. subst q. apply (W2 _ _ Hpr).
    + apply W2.
  - intros q. simpl. rewrite lookup_insert_is_Some. intros [<- | [_ Hq]]; [|by apply W3].
    apply W3. eauto.
  - done.
  - intros q qr Hqr. simpl. destruct (decide (p = q)) as [->|Hne].
    + rewrite lookup_insert_eq. eexists. split_and!; [done | | |]; simpl; congruence.
    + rewrite lookup_insert_ne by done. eauto.
Qed.

Lemma raise_inv {A} (e : exn) (w : world) (r : res A) (w' : world) :
  (Raise e, w) = (r, w') -> r = Raise e /\ w' = w.
Proof. by intros [= <- <-]. Qed.

Lemma Class_superclass_quiet (p : pid) (w : world) (r : res pyval) (w' : world) :
  Spec.wf w -> Class_superclass rt call p w = (r, w') -> quiet w w'.
Proof.
  intros Hwf H. unfold Class_superclass, mbind in H. rewrite get_proxy_eq in H.
  destruct (heap w !! p) as [pr|]; cbv beta iota in H.
  - apply Hcall in H; [|done]. by apply post_keeps in H.
  - injection H as <- <-. by apply quiet_refl.
Qed.

Lemma Class_init_slots_quiet (self : pyval) (w : world) (r : res pyval) (w' : world) :
  Spec.wf w -> Class_init_slots rt call self w = (r, w') ->
  quiet w w' /\ (r = Ok self \/ match r with Ok _ => False | _ => True end).
Proof.
  intros Hwf H. pose proof (quiet_refl w Hwf) as Q0. unfold Class_init_slots in H.
  destruct self; try finish H Q0.
  unfold mbind in H. rewrite get_proxy_eq in H.
  destruct (heap w !! p) as [pr|] eqn:Hpr; cbv beta iota in H; [|finish H Q0].
  destruct (negb (issubclass (ob_type pr) Class)); [finish H Q0|].
  destruct (class_slots pr); try finish H Q0.
  mstep H as u w1 E1;
    pose proof (set_class_slots_quiet _ _ _ _ _ Hwf E1) as Q1; try finish H Q1.
  mstep H as sup w2 E2;
    pose proof (quiet_trans _ _ _ Q1
                  (Class_superclass_quiet _ _ _ _ (proj1 Q1) E2)) as Q2;
    try finish H Q2.
  assert (forall w3 w4 (r3 : res unit),
            quiet w w3 -> set_class_slots p SlotsAll w3 = (r3, w4) ->
            match r3 with
            | Ok _ => ret (VProxy p) w4
            | Raise e => (Raise e, w4)
            | Hang => (Hang, w4)
            end = (r, w') ->
            quiet w w' /\ (r = Ok (VProxy p) \/ match r with Ok _ => False | _ => True end))
    as Hlast.
  { intros w3 w4 r3 Q3 E3 H3.
    pose proof (quiet_trans _ _ _ Q3 (set_class_slots_quiet _ _ _ _ _ (proj1 Q3) E3)) as Q4.
    destruct r3; finish H3 Q4. }
  assert (forall w3,
            quiet w w3 ->
            (let (r1, w'1) := Class_superclass rt call p w3 in
             match r1 with
             | Ok a1 =>
                 match a1 with
                 | VProxy q =>
                     fun w0 : world =>
                       let (r2, w'2) := get_proxy q w0 in
                       match r2 with
                       | Ok a2 =>
                           match class_slots a2 with
                           | SlotsAll =>
                               fun w1 : world =>
                                 let (r3, w'3) := set_class_slots p SlotsAll w1 in
                                 match r3 with
                                 | Ok _ => ret (VProxy p) w'3
                                 | Raise e => (Raise e, w'3)
                                 | Hang => (Hang, w'3)
                                 end
                           | _ => raise (AttributeError "instance_methods")
                           end w'2
                       | Raise e => (Raise e, w'2)
                       | Hang => (Hang, w'2)
                       end
                 | _ => raise (AttributeError "instance_methods")
                 end w'1
             | Raise e => (Raise e, w'1)
             | Hang => (Hang, w'1)
             end) = (r, w') ->
            quiet w w' /\ (r = Ok (VProxy p) \/ match r with Ok _ => False | _ => True end))
    as Hsecond.
  { intros w3 Q3 H3.
    mstep H3 as sup2 w4 E4;
      pose proof (quiet_trans _ _ _ Q3
                    (Class_superclass_quiet _ _ _ _ (proj1 Q3) E4)) as Q4;
      try finish H3 Q4.
    destruct sup2; try finish H3 Q4.
    rewrite get_proxy_eq in H3.
    destruct (heap w4 !! p0) as [qr|]; cbv beta iota in H3; [|finish H3 Q4].
    destruct (class_slots qr); try finish H3 Q4.
    destruct (set_class_slots p SlotsAll w4) as [r5 w5] eqn:E5.
    by eapply Hlast. }
  destruct sup; try (by eapply Hsecond).
  destruct (set_class_slots p SlotsAll w2) as [r5 w5] eqn:E5.
  by eapply Hlast.
Qed.

Lemma post_after_init (w0 w w' : world) (cls : pyclass) (arg : pyval) (retain : bool)
    (self : pyval) (r : res pyval) :
  Spec.post w0 cls arg retain (Ok self) w -> quiet w w' ->
  (r = Ok self \/ match r with Ok _ => False | _ => True end) ->
  Spec.post w0 cls arg retain r w'.
Proof.
  intros (W & E & R & B) (W' & E' & O') Hr.
  apply post_intro; [done | by eapply ext_trans | |].
  - destruct Hr as [-> | Hr]; [|by destruct r].
    destruct self; try done. destruct R as (pr & Hpr & Hfam & Ha).
    destruct E' as [_ Eh]. destruct (Eh _ _ Hpr) as (pr' & Hpr' & T1 & T2 & _).
    exists pr'. split_and!; [done | congruence | intros; rewrite T2; auto].
  - intros b. specialize (B b). destruct (Spec.keeps_balance cls retain).
    + by rewrite O'.
    + destruct Hr as [-> | Hr]; [|by destruct r].
      rewrite O', B. f_equal. unfold Spec.credit.
      destruct self; try done. destruct R as (pr & Hpr & Hfam & Ha).
      destruct E' as [_ Eh]. destruct (Eh _ _ Hpr) as (pr' & Hpr' & T1 & T2 & _).
      by rewrite Hpr, Hpr', T2.
Qed.

Lemma post_raise (w0 w : world) (cls1 cls : pyclass) (arg1 arg : pyval)
    (retain1 retain : bool) (r : res pyval) :
  match r with Ok _ => False | _ => True end ->
  Spec.keeps_balance cls1 retain1 = Spec.keeps_balance cls retain ->
  Spec.post w0 cls1 arg1 retain1 r w -> Spec.post w0 cls arg retain r w.
Proof.
  intros Hr Hk (W & E & R & B). apply post_intro; [done | done | by destruct r |].
  intros b. specialize (B b). by rewrite <- Hk.
Qed.

Lemma Class_from_address_spec (cls : pyclass) (arg : pyval) (a : addr) (retain : bool)
    (w : world) (r : res pyval) (w' : world) :
  Spec.family cls = ID -> Spec.arg_address arg = Some a ->
  Spec.wf w -> Class_from_address rt fuel call cls a retain w = (r, w') ->
  Spec.post w cls arg retain r w'.
Proof.
  intros Hfam Harg Hwf H. unfold Class_from_address in H.
  assert (forall a', Spec.arg_address arg = Some a' -> Some a = Some a') as Ha
    by (intros a'; by rewrite Harg).
  destruct (Z.eqb a NULL); [injection H as <- <-; by apply post_unchanged|].
  destruct (negb (object_isClass rt a)); [injection H as <- <-; by apply post_unchanged|].
  destruct (negb (issubclass cls MetaClass) && class_isMetaClass rt a).
  - apply Hcall in H; [|done].
    apply (post_tail w w' MetaClass cls (cast "Class" a) arg retain retain r);
      [by rewrite Hfam | | done | done].
    unfold Spec.keeps_balance. by rewrite Hfam.
  - unfold mbind in H.
    destruct (ID___new__ rt fuel call cls (cast "id" a) retain w) as [r1 w1] eqn:E1.
    apply ID_new_spec in E1; [|done|done].
    apply (post_tail w w1 cls cls (cast "id" a) arg retain retain r1) in E1; try done.
    destruct r1 as [self|e|].
    + destruct (Class_init_slots_quiet _ _ _ _ (proj1 E1) H) as [Q Hr].
      by eapply post_after_init.
    + by injection H as <- <-.
    + by injection H as <- <-.
Qed.

Lemma Class_new_spec (cls : pyclass) (arg : pyval) (retain : bool)
    (w : world) (r : res pyval) (w' : world) :
  Spec.family cls = ID ->
  Spec.wf w -> Class___new__ rt fuel call cls arg retain w = (r, w') ->
  Spec.post w cls arg retain r w'.
Proof.
  intros Hfam Hwf H. unfold Class___new__ in H.
  assert (forall arg1, Spec.arg_address arg = None ->
            call cls arg1 retain w = (r, w') -> Spec.post w cls arg retain r w') as Htail.
  { intros arg1 Hnone H1. apply Hcall in H1; [|done].
    apply (post_tail w w' cls cls arg1 arg retain retain r); [done | done | | done].
    intros a. by rewrite Hnone. }
  destruct arg; simpl in H;
    try (injection H as <- <-; by apply post_unchanged);
    try (by eapply Htail).
  - unfold mbind in H. rewrite isinstance_eq in H. cbv beta iota in H.
    destruct (heap w !! p) as [pr|] eqn:Hpr.
    + destruct (issubclass (ob_type pr) cls) eqn:Hsub;
        [by eapply already_instance_spec|].
      injection H as <- <-. by apply post_unchanged.
    + injection H as <- <-. by apply post_unchanged.
  - by eapply Class_from_address_spec.
  - destruct (Z.eqb (objc_getClass rt s) NULL);
      [injection H as <- <-; by apply post_unchanged | by eapply Htail].
  - match type of H with context [if ?c then Some _ else None] => destruct c end.
    + by eapply Class_from_address_spec.
    + injection H as <- <-. by apply post_unchanged.
Qed.

Lemma ID_cls_spec (p : pid) (w : world) (r : res pyval) (w' : world) :
  Spec.wf w -> ID_cls rt call p w = (r, w') ->
  quiet w w' /\ Spec.result_ok Class VNone r w'.
Proof.
  intros Hwf H. unfold ID_cls, mbind in H. rewrite get_proxy_eq in H.
  destruct (heap w !! p) as [pr|]; cbv beta iota in H.
  - apply Hcall in H; [|done]. split; [by apply post_keeps in H|].
    destruct H as (_ & _ & R & _). destruct r as [[]| |]; try done.
    destruct R as (qr & ? & ? & _). by exists qr.
  - injection H as <- <-. split; [by apply quiet_refl | done].
Qed.

Lemma MetaClass_from_name_spec (cls : pyclass) (arg : pyval) (retain : bool)
    (w : world) (r : res pyval) (w' : world) :
  Spec.family cls = ID -> Spec.arg_address arg = None ->
  Spec.wf w -> MetaClass_from_name rt call arg retain w = (r, w') ->
  Spec.post w cls arg retain r w'.
Proof.
  intros Hfam Harg Hwf H. unfold MetaClass_from_name, mbind in H.
  assert (forall w1 r1, quiet w w1 -> match r1 with Ok _ => False | _ => True end ->
            Spec.post w cls arg retain r1 w1) as Hfail.
  { intros w1 r1 (W1 & E1 & O1) Hr. apply post_intro; [done | done | by destruct r1 |].
    intros b. destruct (Spec.keeps_balance cls retain); [done | by destruct r1]. }
  destruct (call Class arg true w) as [r1 w1] eqn:E1.
  apply Hcall in E1; [|done]. apply post_keeps in E1; [|done].
  destruct r1 as [c|e|]; cbv beta iota in H;
    [| injection H as <- <-; by apply Hfail | injection H as <- <-; by apply Hfail].
  destruct c; try (injection H as <- <-; by apply Hfail).
  destruct (ID_cls rt call p w1) as [r2 w2] eqn:E2.
  destruct (ID_cls_spec _ _ _ _ (proj1 E1) E2) as [Q2 R2].
  pose proof (quiet_trans _ _ _ E1 Q2) as Q.
  destruct r2 as [self|e|]; cbv beta iota in H;
    [| injection H as <- <-; by apply Hfail | injection H as <- <-; by apply Hfail].
  destruct Q as (W & E & O).
  destruct retain.
  - assert (r = Ok self /\ w' = w2) as [-> ->] by (destruct self; by injection H as <- <-).
    apply post_intro; [done | done | |].
    + destruct self; try done. destruct R2 as (qr & ? & ? & _).
      exists qr. split_and!; [done | by rewrite Hfam | intros; congruence].
    + apply balance_same; [done | by destruct self].
  - destruct self; try (injection H as <- <-; by apply Hfail).
    destruct R2 as (qr & Hqr & Hqfam & _).
    rewrite get_proxy_eq, Hqr in H. cbv beta iota in H.
    unfold _release, emit, ret in H. cbv beta iota in H. injection H as <- <-.
    apply post_intro; [done | exact E | |].
    + exists qr. split_and!; [done | by rewrite Hfam | intros; congruence].
    + intros b. unfold Spec.keeps_balance. rewrite Hfam. simpl.
      rewrite Hqr, owed_release, O. done.
Qed.

Lemma MetaClass_new_spec (cls : pyclass) (arg : pyval) (retain : bool)
    (w : world) (r : res pyval) (w' : world) :
  Spec.family cls = ID ->
  Spec.wf w -> MetaClass___new__ rt fuel call cls arg retain w = (r, w') ->
  Spec.post w cls arg retain r w'.
Proof.
  intros Hfam Hwf H. unfold MetaClass___new__ in H.
  assert (forall a, Spec.arg_address arg = Some a ->
            MetaClass_from_address rt fuel call cls a retain w = (r, w') ->
            Spec.post w cls arg retain r w') as Haddr.
  { intros a Harg H1. unfold MetaClass_from_address in H1.
    destruct (Z.eqb a NULL); [injection H1 as <- <-; by apply post_unchanged|].
    destruct (negb (object_isClass rt a) || negb (class_isMetaClass rt a));
      [injection H1 as <- <-; by apply post_unchanged|].
    apply Class_new_spec in H1; [|done|done].
    apply (post_tail w w' cls cls (cast "Class" a) arg retain retain r); try done.
    intros a'. rewrite Harg. by intros [= <-]. }
  destruct arg; simpl in H;
    try (injection H as <- <-; by apply post_unchanged);
    try (by eapply MetaClass_from_name_spec).
  - unfold mbind in H. rewrite isinstance_eq in H. cbv beta iota in H.
    destruct (heap w !! p) as [pr|] eqn:Hpr.
    + destruct (issubclass (ob_type pr) cls) eqn:Hsub;
        [by eapply already_instance_spec|].
      injection H as <- <-. by apply post_unchanged.
    + injection H as <- <-. by apply post_unchanged.
  - by eapply Haddr.
  - match type of H with context [if ?c then Some _ else None] => destruct c end.
    + by eapply Haddr.
    + injection H as <- <-. by apply post_unchanged.
Qed.

Lemma Protocol_new_spec (cls : pyclass) (arg : pyval) (retain : bool)
    (w : world) (r : res pyval) (w' : world) :
  Spec.family cls = ID ->
  Spec.wf w -> Protocol___new__ rt fuel call cls arg retain w = (r, w') ->
  Spec.post w cls arg retain r w'.
Proof.
  intros Hfam Hwf H. unfold Protocol___new__ in H.
  assert (forall arg1, Spec.arg_address arg = None ->
            call cls arg1 retain w = (r, w') -> Spec.post w cls arg retain r w') as Htail.
  { intros arg1 Hnone H1. apply Hcall in H1; [|done].
    apply (post_tail w w' cls cls arg1 arg retain retain r); [done | done | | done].
    intros a. by rewrite Hnone. }
  assert (forall a, Spec.arg_address arg = Some a ->
            Protocol_from_address rt fuel call cls a retain w = (r, w') ->
            Spec.post w cls arg retain r w') as Haddr.
  { intros a Harg H1. unfold Protocol_from_address in H1.
    destruct (Z.eqb a NULL); [injection H1 as <- <-; by apply post_unchanged|].
    unfold mbind, lift in H1.
    destruct (_is_protocol rt fuel a) as [[]|e|]; cbv beta iota in H1;
      try (injection H1 as <- <-; by apply post_unchanged).
    apply ID_new_spec in H1; [|done|done].
    apply (post_tail w w' cls cls (cast "id" a) arg retain retain r); try done.
    intros a'. rewrite Harg. by intros [= <-]. }
  destruct arg; simpl in H;
    try (injection H as <- <-; by apply post_unchanged);
    try (by eapply Htail).
  - unfold mbind in H. rewrite isinstance_eq in H. cbv beta iota in H.
    destruct (heap w !! p) as [pr|] eqn:Hpr.
    + destruct (issubclass (ob_type pr) cls) eqn:Hsub;
        [by eapply already_instance_spec|].
      injection H as <- <-. by apply post_unchanged.
    + injection H as <- <-. by apply post_unchanged.
  - by eapply Haddr.
  - destruct (Z.eqb (objc_getProtocol rt s) NULL);
      [injection H as <- <-; by apply post_unchanged | by eapply Htail].
  - match type of H with context [if ?c then Some _ else None] => destruct c end.
    + by eapply Haddr.
    + injection H as <- <-. by apply post_unchanged.
Qed.

Lemma dispatch_new_spec (cls : pyclass) (arg : pyval) (retain : bool)
    (w : world) (r : res pyval) (w' : world) :
  Spec.wf w -> dispatch_new rt fuel call cls arg retain w = (r, w') ->
  Spec.post w cls arg retain r w'.
Proof.
  intros Hwf H. destruct cls; simpl in H.
  - by eapply Selector_new_spec.
  - by eapply plain_new_spec.
  - by eapply plain_new_spec.
  - by eapply plain_new_spec.
  - by eapply ID_new_spec.
  - by eapply Class_new_spec.
  - by eapply MetaClass_new_spec.
  - by eapply Protocol_new_spec.
Qed.

End Bodies.

(** Every constructor call, whatever its fuel and outcome, keeps the state
    well formed, keeps the entries and proxies there were, returns a live
    proxy of the family asked for at the address given, and changes the
    balance by the retention it takes over. *)
Lemma construct_spec (rt : Runtime) (fuel : nat) : Spec.call_spec (construct rt fuel).
Proof.
  induction fuel as [|n IH]; intros cls arg retain w r w' Hwf H; simpl in H.
  - injection H as <- <-. by apply post_unchanged.
  - by eapply dispatch_new_spec.
Qed.

(** *** Collection *)

Lemma collect_spec (p : pid) (w : world) :
  Spec.wf w ->
  Spec.wf (collect p w)
  /\ (forall b, Spec.owed (collect p w) b = Spec.owed w b)
  /\ (forall k a q, q <> p -> cache_of k w !! a = Some q -> cache_of k (collect p w) !! a = Some q)
  /\ (forall q, q <> p -> heap (collect p w) !! q = heap w !! q)
  /\ heap (collect p w) !! p = None.
Proof.
  intros Hwf. pose proof Hwf as (W1 & W2 & W3). unfold collect.
  destruct (heap w !! p) as [pr|] eqn:Hpr.
  2: { split_and!; try done. }
  pose proof (W2 _ _ Hpr) as Hc.
  set (w1 := set_heap (delete p (heap w)) w).
  change (cache_of (ob_type pr) w1) with (cache_of (ob_type pr) w).
  rewrite Hc, Nat.eqb_refl.
  set (w2 := set_cache (ob_type pr) (delete (cdata pr) (cache_of (ob_type pr) w)) w1).
  assert (forall k, cache_of k w2 =
            if pyclass_eqb (Spec.family k) (Spec.family (ob_type pr))
            then delete (cdata pr) (cache_of k w) else cache_of k w) as Hcache.
  { intros k. unfold w2. rewrite cache_of_set_cache.
    destruct (pyclass_eqb _ _) eqn:E; [|done].
    apply pyclass_eqb_eq in E. by rewrite (cache_of_same_family k _ w E). }
  assert (heap w2 = delete p (heap w)) as Hheap by done.
  assert (next_pid w2 = next_pid w) as Hnext by done.
  assert (log w2 = log w) as Hlog by done.
  clearbody w2. clear w1.
  assert (forall b, Spec.owed w2 b =
            (Spec.owed w b + if issubclass (ob_type pr) ID
                             then if Z.eqb (cdata pr) b then 1 else 0 else 0)%Z) as Howed.
  { intros b. unfold Spec.owed, Spec.cached. rewrite Hlog.
    change (ID_cache w2) with (cache_of ID w2). rewrite Hcache.
    change (Spec.family ID) with ID.
    destruct (issubclass (ob_type pr) ID) eqn:Hid.
    - apply issubclass_ID_family in Hid. rewrite Hid. simpl pyclass_eqb. cbv iota.
      rewrite (cache_of_ID _ _ Hid) in Hc. change (cache_of ID w) with (ID_cache w).
      destruct (Z.eqb_spec (cdata pr) b) as [<-|Hne].
      + rewrite lookup_delete_eq, Hc. lia.
      + rewrite lookup_delete_ne by done. lia.
    - destruct (pyclass_eqb _ _) eqn:E; [|change (cache_of ID w) with (ID_cache w); lia].
      apply pyclass_eqb_eq in E. symmetry in E. apply issubclass_ID_family in E. congruence. }
  assert (Spec.wf w2) as Hwf2.
  { split_and!.
    - intros k a q. rewrite Hcache, Hheap.
      destruct (pyclass_eqb _ _) eqn:E.
      + apply pyclass_eqb_eq in E. rewrite lookup_delete_Some. intros [Hne Hq].
        destruct (W1 _ _ _ Hq) as (qr & Hqr & ? & ?). exists qr.
        rewrite lookup_delete_ne; [done|]. intros <-. congruence.
      + intros Hq. destruct (W1 _ _ _ Hq) as (qr & Hqr & ? & Hf). exists qr.
        rewrite lookup_delete_ne; [done|]. intros <-.
        assert (qr = pr) as -> by congruence.
        rewrite Hf in E. by rewrite (proj2 (pyclass_eqb_eq _ _) eq_refl) in E.
    - intros q qr. rewrite Hheap, Hcache, lookup_delete_Some. intros [Hne Hqr].
      pose proof (W2 _ _ Hqr) as Hq.
      destruct (pyclass_eqb _ _) eqn:E; [|done].
      apply pyclass_eqb_eq in E. rewrite lookup_delete_ne; [done|].
      intros Heq. rewrite <- Heq, (cache_of_same_family _ _ w E) in Hq. congruence.
    - intros q. rewrite Hheap, Hnext, lookup_delete_is_Some. intros [_ Hq]. by apply W3. }
  assert (forall k a q, q <> p -> cache_of k w !! a = Some q -> cache_of k w2 !! a = Some q)
    as Hkeep.
  { intros k a q Hne Hq. rewrite Hcache. destruct (pyclass_eqb _ _) eqn:E; [|done].
    apply pyclass_eqb_eq in E. rewrite lookup_delete_ne; [done|].
    intros Heq. rewrite <- Heq, (cache_of_same_family _ _ w E) in Hq. congruence. }
  assert (forall q, q <> p -> heap w2 !! q = heap w !! q) as Hother
    by (intros q Hne; rewrite Hheap; by apply lookup_delete_ne).
  assert (heap w2 !! p = None) as Hgone by (rewrite Hheap; apply lookup_delete_eq).
  destruct (issubclass (ob_type pr) ID) eqn:Hid.
  - split_and!; try done.
    intros b. rewrite owed_release, Howed. lia.
  - split_and!; try done.
    intros b. rewrite Howed. lia.
Qed.

(** *** Live proxies and the cache *)

(** In a well-formed state the live proxies of the [ID] family that wrap [a]
    are none, or the one that [ID._cache] holds for [a]. *)
Lemma live_proxies_cached (a : addr) (w : world) :
  Spec.wf w -> Z.of_nat (Spec.live_proxies a w) = Spec.cached a w.
Proof.
  intros (W1 & W2 & W3). unfold Spec.live_proxies, Spec.cached.
  set (P := fun x : nat * proxy => issubclass (ob_type (snd x)) ID = true /\ cdata (snd x) = a).
  destruct (ID_cache w !! a) as [p|] eqn:Hc.
  - destruct (W1 ID _ _ Hc) as (pr & Hpr & Hcd & Hfam).
    assert (filter P (heap w) = {[p := pr]}) as ->; [|by rewrite map_size_singleton].
    apply map_eq. intros q. destruct (decide (q = p)) as [->|Hne].
    + rewrite lookup_singleton_eq. apply map_lookup_filter_Some. split; [done|].
      split; [by apply issubclass_ID_family | done].
    + rewrite lookup_singleton_ne by done. apply map_lookup_filter_None.
      right. intros qr Hqr [Hsub Hqa]. simpl in *.
      pose proof (W2 _ _ Hqr) as Hq.
      rewrite (cache_of_ID _ w (proj1 (issubclass_ID_family _) Hsub)), Hqa in Hq. congruence.
  - assert (filter P (heap w) = ∅) as ->; [|by rewrite map_size_empty].
    apply map_empty. intros q. apply map_lookup_filter_None.
    right. intros qr Hqr [Hsub Hqa]. simpl in *.
    pose proof (W2 _ _ Hqr) as Hq.
    rewrite (cache_of_ID _ w (proj1 (issubclass_ID_family _) Hsub)), Hqa in Hq. congruence.
Qed.

Lemma empty_world_wf : Spec.wf empty_world.
Proof.
  split_and!.
  - intros k a p. by destruct k.
  - intros p pr. simpl. by rewrite lookup_empty.
  - intros p [pr Hpr]. simpl in Hpr. by rewrite lookup_empty in Hpr.
Qed.

(** *** Sequences of operations *)

Lemma run_op_wf (rt : Runtime) (fuel : nat) (o : Spec.op) (w : world) :
  Spec.wf w -> Spec.wf (snd (Spec.run_op rt fuel o w)).
Proof.
  intros Hwf. destruct o as [cls arg retain | p]; simpl.
  - destruct (construct rt fuel cls arg retain w) as [r w'] eqn:E.
    by apply construct_spec in E as (? & _).
  - by apply collect_spec.
Qed.

Lemma run_wf (rt : Runtime) (fuel : nat) (ops : list Spec.op) (w : world) :
  Spec.wf w -> Spec.wf (Spec.run rt fuel ops w).
Proof.
  revert w. induction ops as [|o ops IH]; intros w Hwf; simpl; [done|].
  apply IH. by apply run_op_wf.
Qed.

(** Along a sequence of operations, the retentions sent and handed over
    balance the releases sent and the cached proxies. *)
Lemma run_balance (rt : Runtime) (fuel : nat) (ops : list Spec.op) (w : world) (b : addr) :
  Spec.wf w -> Spec.clean rt fuel ops w ->
  (Spec.owed (Spec.run rt fuel ops w) b + Spec.handed_over rt fuel ops w b)%Z = Spec.owed w b.
Proof.
  revert w. induction ops as [|o ops IH]; intros w Hwf Hclean; simpl; [lia|].
  destruct Hclean as [Ho Hclean].
  pose proof (run_op_wf rt fuel o w Hwf) as Hwf'.
  specialize (IH _ Hwf' Hclean).
  destruct o as [cls arg retain | p]; simpl in *.
  - destruct (construct rt fuel cls arg retain w) as [r w'] eqn:E. simpl in *.
    apply construct_spec in E as (_ & _ & _ & B); [|done]. specialize (B b).
    destruct (Spec.keeps_balance cls retain); [lia|].
    destruct Ho as [? | [v ->]]; [done|]. lia.
  - destruct (collect_spec p w Hwf) as (_ & O & _). rewrite O in IH. lia.
Qed.

(** An entry of the cache stays while its proxy is not collected. *)
Lemma run_keeps_entry (rt : Runtime) (fuel : nat) (ops : list Spec.op) (w : world)
    (k : pyclass) (a : addr) (p : pid) :
  Spec.wf w -> p ∉ Spec.collected ops ->
  cache_of k w !! a = Some p ->
  cache_of k (Spec.run rt fuel ops w) !! a = Some p.
Proof.
  revert w. induction ops as [|o ops IH]; intros w Hwf Hp Hc; simpl; [done|].
  pose proof (run_op_wf rt fuel o w Hwf) as Hwf'.
  apply IH; [done | |].
  - intros Hin. apply Hp. unfold Spec.collected. simpl. apply elem_of_app. by right.
  - destruct o as [cls arg retain | q]; simpl.
    + destruct (construct rt fuel cls arg retain w) as [r w'] eqn:E. simpl.
      apply construct_spec in E as (_ & [Ec _] & _); [|done]. by apply Ec.
    + destruct (collect_spec q w Hwf) as (_ & _ & Hk & _). apply Hk; [|done].
      intros ->. apply Hp. unfold Spec.collected. simpl. apply elem_of_cons. by left.
Qed.

(** Two constructor calls for the same address in the same family return
    the same proxy object, whatever happens in between, as long as the
    first proxy has not been collected. *)
Lemma construct_identical (rt : Runtime) (fuel1 fuel2 fuel3 : nat)
    (cls1 cls2 : pyclass) (arg1 arg2 : pyval) (a : addr) (retain1 retain2 : bool)
    (ops : list Spec.op) (w w1 w3 : world) (p q : pid) :
  Spec.wf w ->
  Spec.family cls1 = Spec.family cls2 ->
  Spec.arg_address arg1 = Some a -> Spec.arg_address arg2 = Some a ->
  construct rt fuel1 cls1 arg1 retain1 w = (Ok (VProxy p), w1) ->
  p ∉ Spec.collected ops ->
  construct rt fuel3 cls2 arg2 retain2 (Spec.run rt fuel2 ops w1) = (Ok (VProxy q), w3) ->
  q = p.
Proof.
  intros Hwf Hfam Ha1 Ha2 H1 Hp H2.
  apply construct_spec in H1 as (Hwf1 & _ & (pr & Hpr & Hf1 & Hcd1) & _); [|done].
  pose proof (proj1 (proj2 Hwf1) _ _ Hpr) as Hc1. rewrite (Hcd1 _ Ha1) in Hc1.
  pose proof (run_keeps_entry rt fuel2 ops w1 _ _ _ Hwf1 Hp Hc1) as Hc2.
  pose proof (run_wf rt fuel2 ops w1 Hwf1) as Hwf2.
  apply construct_spec in H2 as (Hwf3 & [Ec _] & (qr & Hqr & Hf2 & Hcd2) & _); [|done].
  pose proof (proj1 (proj2 Hwf3) _ _ Hqr) as Hc3. rewrite (Hcd2 _ Ha2) in Hc3.
  apply Ec in Hc2.
  rewrite (cache_of_same_family (ob_type pr) (ob_type qr)) in Hc2 by congruence.
  congruence.
Qed.

(** *** Preempted threads *)

Lemma threads_step_inv (t : nat) (s s' : Threads.state) :
  Threads.inv s -> Threads.step t s = Some s' -> Threads.inv s'.
Proof.
  intros (J1 & J2 & J3) H. unfold Threads.step in H.
  destruct (Threads.threads s !! t) as [[a c]|] eqn:Ht; [|done].
  destruct c as [| | |self|self]; [| | | |done].
  - destruct (Threads.cache s !! a) as [p|] eqn:Hc; injection H as <-; split_and!; simpl.
    + intros t' a' p'. rewrite lookup_insert. case_decide; [|by eauto].
      by intros [= <- <-].
    + intros t' a'. rewrite lookup_insert. case_decide; [done | by eauto].
    + intros t' a' p'. rewrite lookup_insert. case_decide; [done | by eauto].
    + intros t' a' p'. rewrite lookup_insert. case_decide; [done | by eauto].
    + intros t' a'. rewrite lookup_insert. case_decide; [done | by eauto].
    + intros t' a' p'. rewrite lookup_insert. case_decide; [done | by eauto].
  - destruct (Threads.lock s) as [o|] eqn:Hl; [done|]. injection H as <-.
    split_and!; simpl.
    + intros t' a' p'. rewrite lookup_insert. case_decide; [done | by eauto].
    + intros t' a'. rewrite lookup_insert. case_decide; [by intros _; subst|].
      intros Hl'. apply J2 in Hl'. congruence.
    + intros t' a' p'. rewrite lookup_insert. case_decide; [done|].
      intros Hc'. apply J3 in Hc' as [? ?]. congruence.
  - pose proof (J2 _ _ Ht) as Hl.
    destruct (Threads.cache s !! a) as [p|] eqn:Hc; injection H as <-; split_and!; simpl.
    + intros t' a' p'. rewrite lookup_insert. case_decide; [|by eauto].
      by intros [= <- <-].
    + intros t' a'. rewrite lookup_insert. case_decide; [done|].
      intros Hl'. apply J2 in Hl'. congruence.
    + intros t' a' p'. rewrite lookup_insert. case_decide; [done|].
      intros Hc'. apply J3 in Hc' as [? ?]. congruence.
    + intros t' a' p'. rewrite lookup_insert. case_decide; [done | by eauto].
    + intros t' a'. rewrite lookup_insert. case_decide; [done | by eauto].
    + intros t' a' p'. rewrite lookup_insert. case_decide; [|by eauto].
      intros [= <- <-]. subst t'. by split.
  - destruct (J3 _ _ _ Ht) as [Hl Hc]. injection H as <-. split_and!; simpl.
    + intros t' a' p'. rewrite lookup_insert. case_decide.
      * intros [= <- <-]. apply lookup_insert_eq.
      * intros Hr. pose proof (J1 _ _ _ Hr) as Hc'.
        rewrite lookup_insert_ne; [done|]. intros <-. congruence.
    + intros t' a'. rewrite lookup_insert. case_decide; [done|].
      intros Hl'. apply J2 in Hl'. congruence.
    + intros t' a' p'. rewrite lookup_insert. case_decide; [done|].
      intros Hc'. apply J3 in Hc' as [? ?]. congruence.
Qed.

Lemma threads_exec_inv (schedule : list nat) (s : Threads.state) :
  Threads.inv s -> Threads.inv (Threads.exec schedule s).
Proof.
  revert s. induction schedule as [|t rest IH]; intros s Hs; simpl; [done|].
  apply IH. destruct (Threads.step t s) as [s'|] eqn:E; [|done].
  by eapply threads_step_inv.
Qed.

Lemma threads_init_inv (addresses : list Z) : Threads.inv (Threads.init addresses).
Proof.
  assert (forall t a c, Threads.threads (Threads.init addresses) !! t = Some (a, c) ->
            c = Threads.Start) as Hstart.
  { intros t a c H. simpl in H. apply elem_of_list_to_map_2 in H.
    apply elem_of_lookup_imap in H as (i & x & [= -> -> ->] & _). done. }
  split_and!; intros t a; intros; by apply Hstart in H.
Qed.

(** Under every schedule, the threads that have returned for the same
    address have returned the same proxy object. *)
Lemma threads_identical (addresses : list Z) (schedule : list nat)
    (t1 t2 : nat) (a : Z) (p1 p2 : nat) :
  let s := Threads.exec schedule (Threads.init addresses) in
  Threads.threads s !! t1 = Some (a, Threads.Returned p1) ->
  Threads.threads s !! t2 = Some (a, Threads.Returned p2) ->
  p1 = p2.
Proof.
  intros s H1 H2.
  destruct (threads_exec_inv schedule _ (threads_init_inv addresses)) as (J1 & _).
  apply J1 in H1. apply J1 in H2. congruence.
Qed.

(** Two threads that both miss on the first lookup still return one object. *)
Example threads_race :
  Threads.threads (Threads.exec [0; 1; 0; 1; 0; 0; 1; 1] (Threads.init [1000; 1000]%Z))
    = {[0 := (1000%Z, Threads.Returned 0); 1 := (1000%Z, Threads.Returned 0)]}.
Proof. by vm_compute. Qed.

(** *** The caches that own nothing *)

Section NoOwnership.

Variable rt : Runtime.

Lemma address_new_silent (cls : pyclass) (valid : addr -> M unit) (a : addr)
    (w : world) (r : res pyval) (w' : world) :
  (forall w0, valid a w0 = (Ok tt, w0) \/ exists e, valid a w0 = (Raise e, w0)) ->
  address_new cls valid a w = (r, w') -> log w' = log w.
Proof.
  intros Hvalid H. unfold address_new in H.
  destruct (Z.eqb a NULL); [by injection H as <- <-|].
  unfold except_KeyError, mbind, cache_getitem, ret, alloc, cache_setitem in H.
  cbv beta in H.
  destruct (cache_of cls w !! a) as [p|] eqn:Hc; cbv beta iota in H;
    [by injection H as <- <-|].
  rewrite Hc in H. cbv beta iota in H.
  destruct (Hvalid w) as [Hv | [e Hv]]; rewrite Hv in H; cbv beta iota in H.
  - injection H as <- <-. reflexivity.
  - by destruct e; injection H as <- <-.
Qed.

Lemma dispatch_new_silent (fuel : nat) (call : pyclass -> pyval -> bool -> M pyval) :
  silent call -> silent (dispatch_new rt fuel call).
Proof.
  intros Hcall cls arg retain w r w' Hfam H.
  assert (forall ctypes what,
            plain___new__ ctypes what cls arg w = (r, w') -> log w' = log w) as Hplain.
  { intros ctypes what H1. unfold plain___new__ in H1.
    destruct arg; simpl in H1; try (by injection H1 as <- <-).
    - unfold mbind in H1. rewrite isinstance_eq in H1.
      destruct (match heap w !! p with Some _ => _ | None => _ end);
        by injection H1 as <- <-.
    - refine (address_new_silent _ _ _ _ _ _ _ H1). intros; by left.
    - destruct (existsb _ _); [|by injection H1 as <- <-].
      refine (address_new_silent _ _ _ _ _ _ _ H1). intros; by left. }
  destruct cls; try discriminate Hfam; simpl in H; try (by eapply Hplain).
  unfold Selector___new__ in H.
  destruct arg; simpl in H; try (by injection H as <- <-);
    try (by eapply (Hcall Selector)).
  - unfold mbind in H. rewrite isinstance_eq in H.
    destruct (match heap w !! p with Some _ => _ | None => _ end);
      by injection H as <- <-.
  - refine (address_new_silent _ _ _ _ _ _ _ H).
    intros w0. destruct (sel_isMapped rt z); [by left | right; eauto].
  - match type of H with context [if ?c then Some _ else None] => destruct c end;
      [|by injection H as <- <-].
    refine (address_new_silent _ _ _ _ _ _ _ H).
    intros w0. destruct (sel_isMapped rt a); [by left | right; eauto].
Qed.

(** Constructing a [Selector], [Ivar], [Method] or [Property] sends nothing
    to the runtime: no retain, no release. *)
Lemma construct_silent (fuel : nat) : silent (construct rt fuel).
Proof.
  induction fuel as [|n IH]; intros cls arg retain w r w' Hfam H; simpl in H.
  - by injection H as <- <-.
  - by eapply dispatch_new_silent.
Qed.

End NoOwnership.

(** *** The claim on interning *)

Lemma collect_log (p : pid) (pr : proxy) (w : world) :
  Spec.wf w -> heap w !! p = Some pr -> issubclass (ob_type pr) ID = true ->
  log (collect p w) = log w ++ [EvRelease (cdata pr)].
Proof.
  intros (_ & W2 & _) Hpr Hid. unfold collect. rewrite Hpr, Hid.
  change (cache_of (ob_type pr) (set_heap (delete p (heap w)) w))
    with (cache_of (ob_type pr) w).
  by rewrite (W2 _ _ Hpr), Nat.eqb_refl.
Qed.




(** ** Kind-specific constructors *)

(** What the three kind-specific constructors do with a non-null address of
    another kind, for any runtime. *)
Lemma kind_mismatch (rt : Runtime) (fuel : nat) (a : addr) (retain : bool) (w : world) :
  a <> NULL ->
  (object_isClass rt a = false ->
     construct rt (S fuel) Class (VInt a) retain w = (Raise (ValueError MNotAClass), w))
  /\ (object_isClass rt a = false \/ class_isMetaClass rt a = false ->
      construct rt (S fuel) MetaClass (VInt a) retain w =
        (Raise (ValueError (MNotAMetaClass a)), w))
  /\ (_is_protocol rt fuel a = Ok false ->
      construct rt (S fuel) Protocol (VInt a) retain w = (Raise (NameError "self"), w)).
Proof.
  intros Ha. apply Z.eqb_neq in Ha. split_and!.
  - intros Hc. simpl. unfold Class_from_address. by rewrite Ha, Hc.
  - intros Hc. simpl. unfold MetaClass_from_address. rewrite Ha.
    by destruct Hc as [-> | ->]; rewrite ?orb_true_r.
  - intros Hp. simpl. unfold Protocol_from_address, mbind, lift. by rewrite Ha, Hp.
Qed.

(** C9, where the code departs from it.  On the demo runtime, [Class] of the
    instance at 1000 and [MetaClass] of the class at 110 fail with a value
    error, not a type error, and [Protocol] of the instance at 1000 fails
    with a name error; none returns a proxy and the world is unchanged. *)
Theorem kind_mismatch_is_not_a_type_error :
  construct Demo.rt Demo.fuel Class (VInt 1000) true empty_world
    = (Raise (ValueError MNotAClass), empty_world)
  /\ construct Demo.rt Demo.fuel MetaClass (VInt 110) true empty_world
      = (Raise (ValueError (MNotAMetaClass 110)), empty_world)
  /\ construct Demo.rt Demo.fuel Protocol (VInt 1000) true empty_world
      = (Raise (NameError "self"), empty_world).
Proof. repeat split. Qed.

(** ** Calling a method proxy *)

(** C7, where the code departs from it.  Whatever the method, the receiver
    and the arguments, [Method.__call__] stops at its second statement: once
    [ID(receiver)] has returned, reading the local [sel] raises
    [UnboundLocalError]; the signature is never decoded and the method is
    never invoked. *)
Theorem Method_call_stops_at_sel (LP64 : bool) (rt : Runtime) (fuel : nat) (self : pid)
    (receiver : pyval) (args : list pyval) (restype : option argtype)
    (argtypes : option (list argtype)) (w : world) :
  Method___call__ LP64 rt fuel self receiver args restype argtypes w =
    match construct rt fuel ID receiver true w with
    | (Ok _, w1) => (Raise (UnboundLocalError "sel"), w1)
    | (Raise e, w1) => (Raise e, w1)
    | (Hang, w1) => (Hang, w1)
    end.
Proof.
  unfold Method___call__, mbind.
  by destruct (construct rt fuel ID receiver true w) as [[v|e|] w1].
Qed.

(** The method [description] called on the instance at 1000. *)
Example Method_call_description :
  Method___call__ true Demo.rt Demo.fuel 1 (VInt 1000) [] None None Demo.w_method
    = (Raise (UnboundLocalError "sel"), Demo.w_method).
Proof. by vm_compute. Qed.

(** The naming convention itself, on the selectors [copy] and
    [description]. *)
Example should_retain_result_examples :
  fst (_should_retain_result Demo.rt Demo.fuel (VStr "copy") empty_world) = Ok false
  /\ fst (_should_retain_result Demo.rt Demo.fuel (VStr "initWithString:") empty_world) = Ok false
  /\ fst (_should_retain_result Demo.rt Demo.fuel (VStr "description") empty_world) = Ok true.
Proof. by vm_compute. Qed.

(** ** Attribute resolution *)

Lemma replace_length (old new : ascii) (s : string) :
  String.length (replace old new s) = String.length s.
Proof. induction s as [|c s IH]; simpl; congruence. Qed.

Lemma replace_get (old new : ascii) (s : string) (i : nat) :
  String.get i (replace old new s) =
  (fun c => if Ascii.eqb c old then new else c) <$> String.get i s.
Proof.
  revert i. induction s as [|c s IH]; intros i; simpl; [done|].
  destruct i; [done | apply IH].
Qed.

(** C8. Reading an attribute of a proxy that is no ordinary attribute
    returns the entry of the proxy's [properties] under the very name when
    there is one; otherwise it returns what the method table answers for the
    name with every [_] turned into [:], and when that lookup fails with a
    key error, it raises the attribute error for the name. *)
Theorem getattr_resolution (rt : Runtime) (fuel : nat) (self : pid) (pr : proxy)
    (name : string) (w : world) :
  heap w !! self = Some pr ->
  (forall v, properties pr !! name = Some v ->
     ID___getattr__ rt fuel self name w = (Ok v, w))
  /\ (properties pr !! name = None ->
      ID___getattr__ rt fuel self name w =
        match Methods___getitem__ rt fuel self (replace "_" ":" name) w with
        | (Raise KeyError, w') => (Raise (AttributeError name), w')
        | answer => answer
        end)
  /\ String.length (replace "_" ":" name) = String.length name
  /\ (forall i, String.get i (replace "_" ":" name) =
                (fun c => if Ascii.eqb c "_" then ":"%char else c) <$> String.get i name).
Proof.
  intros Hpr.
  unfold ID___getattr__, except_KeyError, properties___getitem__, mbind.
  rewrite get_proxy_eq, Hpr. cbv beta iota.
  split_and!.
  - by intros v ->.
  - intros ->. cbv beta iota. unfold raise.
    by destruct (Methods___getitem__ rt fuel self (replace "_" ":" name) w) as [[v|[]|] w'].
  - apply replace_length.
  - apply replace_get.
Qed.

(** On the demo runtime: the property ["tag"] stored on the proxy of the
    instance at 1000 is returned as it is; the name ["description"] is
    answered by the method table with the bound method; the name
    ["foo_bar"], looked up as ["foo:bar"], is an attribute error. *)
Lemma getattr_resolution_witness :
  ID___getattr__ Demo.rt Demo.fuel 0 "tag" Demo.w_tagged = (Ok (VInt 7), Demo.w_tagged)
  /\ fst (ID___getattr__ Demo.rt Demo.fuel 0 "description" Demo.w_tagged)
     = fst (Methods___getitem__ Demo.rt Demo.fuel 0 "description" Demo.w_tagged)
  /\ fst (ID___getattr__ Demo.rt Demo.fuel 0 "description" Demo.w_tagged)
     = Ok (VBoundMethod 0 4)
  /\ fst (ID___getattr__ Demo.rt Demo.fuel 0 "foo_bar" Demo.w_tagged)
     = Raise (AttributeError "foo_bar")
  /\ replace "_" ":" "setObject_forKey_" = "setObject:forKey:".
Proof.
  assert (heap Demo.w_tagged !! 0 =
          Some {| ob_type := ID; cdata := 1000; properties := {[ "tag" := VInt 7 ]};
                  class_slots := SlotsUnset |}) as Hpr by (by vm_compute).
  destruct (getattr_resolution Demo.rt Demo.fuel 0 _ "tag" Demo.w_tagged Hpr) as (Hhit & _).
  destruct (getattr_resolution Demo.rt Demo.fuel 0 _ "description" Demo.w_tagged Hpr)
    as (_ & Hmiss & _).
  destruct (getattr_resolution Demo.rt Demo.fuel 0 _ "foo_bar" Demo.w_tagged Hpr)
    as (_ & Hmiss' & _).
  split_and!.
  - apply Hhit. by vm_compute.
  - rewrite Hmiss by (by vm_compute). by vm_compute.
  - rewrite Hmiss by (by vm_compute). by vm_compute.
  - rewrite Hmiss' by (by vm_compute). by vm_compute.
  - reflexivity.
Defined.

(** ** Coercion *)

(** The loop of [_objc_issubclass] answers at once for a null subclass and
    for equal classes, and never otherwise: the superclass it fetches goes to
    [cls], and [subclass] is tested again unchanged. *)
Lemma _objc_issubclass_outcomes (rt : Runtime) (fuel : nat) (subclass superclass : addr) :
  (subclass = NULL -> _objc_issubclass rt (S fuel) subclass superclass = Ok false)
  /\ (subclass <> NULL -> subclass = superclass ->
      _objc_issubclass rt (S fuel) subclass superclass = Ok true)
  /\ (subclass <> NULL -> subclass <> superclass ->
      _objc_issubclass rt fuel subclass superclass = Hang).
Proof.
  unfold _objc_issubclass. split_and!.
  - intros ->. reflexivity.
  - intros Hn <-. simpl. unfold _objc_issubclass_iter. simpl.
    apply Z.eqb_neq in Hn. by rewrite Hn, Z.eqb_refl.
  - intros Hn Hne. apply Z.eqb_neq in Hn, Hne.
    generalize (@None Z). induction fuel as [|n IH]; intros cls; simpl; [done|].
    unfold _objc_issubclass_iter. simpl. rewrite Hn, Hne. apply IH.
Qed.

(** The walk of [_is_protocol], which does advance, ends as soon as the
    chain of superclasses does. *)
Lemma _is_protocol_loop_terminates (rt : Runtime) (n : nat) (cls : addr) :
  Nat.iter n (class_getSuperclass rt) cls = NULL ->
  exists b, _is_protocol_loop rt (S n) cls = Ok b.
Proof.
  revert cls. induction n as [|n IH]; intros cls Hend.
  - simpl in Hend. subst cls. by exists false.
  - change (_is_protocol_loop rt (S (S n)) cls) with
      (if Z.eqb cls NULL then Ok false
       else
         let* protocol := _class_cdata_getitem rt "Protocol" in
         if Z.eqb cls protocol then Ok true
         else _is_protocol_loop rt (S n) (class_getSuperclass rt cls)).
    destruct (Z.eqb cls NULL); [by exists false|].
    change (_class_cdata_getitem rt "Protocol") with (Ok (A:=Z) (objc_getClass rt "Protocol")).
    simpl Py.bind. destruct (Z.eqb cls _); [by exists true|].
    apply IH. by rewrite <- Hend, Nat.iter_succ_r.
Qed.

(** A proxy whose class is not the target class itself is never returned. *)
Lemma coerce_proxy_other_class (rt : Runtime) (fuel : nat) (p c : pid) (pr cr : proxy)
    (w : world) (r : res pyval) (w' : world) :
  Spec.wf w ->
  heap w !! p = Some pr -> issubclass (ob_type pr) ID = true ->
  heap w !! c = Some cr ->
  object_getClass rt (cdata pr) <> NULL ->
  object_getClass rt (cdata pr) <> cdata cr ->
  coerce rt fuel (VProxy p) (Some c) w = (r, w') ->
  match r with Ok _ => False | _ => True end.
Proof.
  intros Hwf Hpr Hid Hcr Hnull Hne H.
  unfold coerce, mbind in H. rewrite isinstance_eq, Hpr, Hid in H. cbv beta iota in H.
  unfold ID_cls, mbind in H. rewrite get_proxy_eq, Hpr in H. cbv beta iota in H.
  destruct (construct rt fuel Class (cast "Class" (object_getClass rt (cdata pr))) true w)
    as [r1 w1] eqn:E1.
  apply construct_spec in E1 as (_ & [_ Eh] & R1 & _); [|done].
  destruct r1 as [oc|e|]; cbv beta iota in H; [|by injection H as <- _..].
  destruct oc; try (by injection H as <- _).
  destruct R1 as (ocr & Hocr & _ & Ha). specialize (Ha _ eq_refl).
  destruct (Eh _ _ Hcr) as (cr' & Hcr' & _ & Hcd & _).
  rewrite get_proxy_eq, Hocr in H. cbv beta iota in H.
  rewrite get_proxy_eq, Hcr' in H. cbv beta iota in H.
  unfold lift in H.
  rewrite Ha, Hcd in H.
  rewrite (proj2 (proj2 (_objc_issubclass_outcomes rt fuel _ _)) Hnull Hne) in H.
  by injection H as <- _.
Qed.



(** * Further properties of [objc/api.py] *)

(** ** Function pointer types *)

Lemma ends_with_ellipsis_cons (a : argtype) (rest : list argtype) :
  rest <> [] -> ends_with_ellipsis (a :: rest) = ends_with_ellipsis rest.
Proof.
  intros Hne. unfold ends_with_ellipsis. simpl.
  destruct (rev rest) as [|b l] eqn:E; [|done].
  apply (f_equal (@rev argtype)) in E. rewrite rev_involutive in E. done.
Qed.

Lemma argdecls_outcome (argtypes : list argtype) :
  forall n i, n = i + length argtypes ->
    argdecls n i argtypes =
      if Vocabulary.ellipsis_before_last argtypes
      then Raise (ValueError MEllipsisNotLast)
      else Ok (Vocabulary.fixed_argtypes argtypes, ends_with_ellipsis argtypes).
Proof.
  unfold Vocabulary.ellipsis_before_last, Vocabulary.fixed_argtypes.
  induction argtypes as [|a rest IH]; intros n i Hn; [done|].
  destruct rest as [|b rest].
  - destruct a; simpl in *; try done.
    replace (i =? n - 1)%nat with true by (symmetry; apply Nat.eqb_eq; lia). done.
  - specialize (IH n (S i) ltac:(simpl in *; lia)).
    rewrite (ends_with_ellipsis_cons a (b :: rest)) by done.
    change (removelast (a :: b :: rest)) with (a :: removelast (b :: rest)).
    assert ((i =? n - 1)%nat = false) as Hi by (apply Nat.eqb_neq; simpl in *; lia).
    clear Hn. remember (b :: rest) as l eqn:El. clear El.
    destruct a; simpl; rewrite ?Hi, ?IH; simpl;
      by destruct (existsb Vocabulary.is_ellipsis (removelast l)).
Qed.

Lemma _make_function_ptr_ctype_eq (restype : ctype) (argtypes : list argtype) :
  _make_function_ptr_ctype restype argtypes =
    if negb (Vocabulary.returnable restype) then Raise (TypeError MNoKind)
    else if Vocabulary.ellipsis_before_last argtypes
    then Raise (ValueError MEllipsisNotLast)
    else Ok (CFunctionPtr restype (Vocabulary.fixed_argtypes argtypes)
               (ends_with_ellipsis argtypes)).
Proof.
  unfold _make_function_ptr_ctype.
  rewrite (argdecls_outcome argtypes (length argtypes) 0 eq_refl).
  destruct restype as [| | | |k|]; simpl;
    try destruct k; simpl;
    by destruct (Vocabulary.ellipsis_before_last argtypes).
Qed.

(** X1. [_make_function_ptr_ctype] rejects a return type without a kind (an
    array) with a type error, and otherwise a [...] that is not the last
    argument type with a value error; in every other case it returns the
    function pointer type whose arguments are the argument types in order,
    the marker left out, and which is variadic exactly when the list ends
    with the marker. *)
Theorem make_function_ptr_ctype_outcome (restype : ctype) (argtypes : list argtype) :
  _make_function_ptr_ctype restype argtypes =
    if negb (Vocabulary.returnable restype) then Raise (TypeError MNoKind)
    else if Vocabulary.ellipsis_before_last argtypes
    then Raise (ValueError MEllipsisNotLast)
    else Ok (CFunctionPtr restype (Vocabulary.fixed_argtypes argtypes)
               (ends_with_ellipsis argtypes)).
Proof. apply _make_function_ptr_ctype_eq. Qed.

(** ** The checks and the send *)

(** X2. [_check_argcounts] lets a send through exactly when the selector is
    mapped and either the argument types end with [...], in which case no
    count is compared at all, or the number of arguments equals both the
    number of argument types and the number of colons of the selector's
    name. *)
Theorem check_argcounts_accepts (rt : Runtime) (op : addr) (args : list pyval)
    (argtypes : list argtype) :
  _check_argcounts rt op args argtypes = Ok tt <->
  sel_isMapped rt op = true
  /\ (ends_with_ellipsis argtypes = true
      \/ (length args = length argtypes
          /\ length args = count_byte ":" (sel_getName rt op))).
Proof.
  unfold _check_argcounts.
  destruct (sel_isMapped rt op); simpl; [|split; [done | by intros [? _]]].
  destruct (ends_with_ellipsis argtypes); simpl; [split; auto|].
  destruct (Nat.eqb_spec (length args) (length argtypes)) as [He|He]; simpl.
  - destruct (Nat.eqb_spec (length args) (count_byte ":" (sel_getName rt op))) as [Hc|Hc];
      simpl; split; try done; auto.
    intros (_ & [?|[_ ?]]); done.
  - split; [done|]. intros (_ & [?|[? _]]); done.
Qed.

Lemma ends_with_ellipsis_receiver (argtypes : list argtype) :
  ends_with_ellipsis (AName "id" :: AName "SEL" :: argtypes) = ends_with_ellipsis argtypes.
Proof.
  destruct argtypes as [|a rest]; [done|].
  rewrite ends_with_ellipsis_cons by done. by rewrite ends_with_ellipsis_cons.
Qed.

Lemma ellipsis_before_last_receiver (argtypes : list argtype) :
  Vocabulary.ellipsis_before_last (AName "id" :: AName "SEL" :: argtypes)
  = Vocabulary.ellipsis_before_last argtypes.
Proof. unfold Vocabulary.ellipsis_before_last. by destruct argtypes as [|a [|b rest]]. Qed.



(** ** Unwrapping results *)

Section ReturnsObject.

Variable rt : Runtime.
Variable fuel : nat.
Variable call : pyclass -> pyval -> bool -> M pyval.
Hypothesis Hcall : forall cls arg retain, yields Vocabulary.is_object (call cls arg retain).

Lemma yields_ret (v : pyval) : Vocabulary.is_object v -> yields Vocabulary.is_object (ret v).
Proof. intros Hv w v' w' [= <- <-]. done. Qed.

Lemma yields_raise {A} (P : A -> Prop) (e : exn) : yields P (raise e).
Proof. intros w v' w' [=]. Qed.

Lemma yields_bind {A B} (P : B -> Prop) (c : M A) (k : A -> M B) :
  (forall a, yields P (k a)) -> yields P (mbind c k).
Proof.
  intros Hk w v w' H. unfold mbind in H.
  destruct (c w) as [[a| |] w1]; try discriminate. by eapply Hk.
Qed.

Lemma yields_except {A} (P : A -> Prop) (c h : M A) :
  yields P c -> yields P h -> yields P (except_KeyError c h).
Proof.
  intros Hc Hh w v w' H. unfold except_KeyError in H.
  destruct (c w) as [[a|e|] w1] eqn:E; try discriminate.
  - injection H as <- <-. by eapply Hc.
  - destruct e; try discriminate. by eapply Hh.
Qed.

Ltac yields_step :=
  first
    [ apply yields_raise
    | apply yields_ret; done
    | apply Hcall
    | apply yields_except
    | apply yields_bind; intros ?
    | match goal with
      | |- yields _ (if ?b then _ else _) => destruct b
      | |- yields _ (match ?x with _ => _ end) => destruct x
      end ].

Lemma ID___new___object (cls : pyclass) (arg : pyval) (retain : bool) :
  yields Vocabulary.is_object (ID___new__ rt fuel call cls arg retain).
Proof.
  unfold ID___new__, ID_from_address, ID_intern, already_instance.
  repeat yields_step.
Qed.

Lemma Class___new___object (cls : pyclass) (arg : pyval) (retain : bool) :
  yields Vocabulary.is_object (Class___new__ rt fuel call cls arg retain).
Proof.
  unfold Class___new__, Class_from_address, already_instance.
  repeat first [yields_step | progress unfold Class_init_slots, Class_superclass].
Qed.

Lemma yields_bind_with {A B} (Q : A -> Prop) (P : B -> Prop) (c : M A) (k : A -> M B) :
  yields Q c -> (forall a, Q a -> yields P (k a)) -> yields P (mbind c k).
Proof.
  intros Hc Hk w v w' H. unfold mbind in H.
  destruct (c w) as [[a| |] w1] eqn:E; try discriminate.
  eapply Hk; [|done]. by eapply Hc.
Qed.

Lemma MetaClass_from_name_object (arg : pyval) (retain : bool) :
  yields Vocabulary.is_object (MetaClass_from_name rt call arg retain).
Proof.
  unfold MetaClass_from_name.
  apply yields_bind; intros [| cp | | | | | | | | | | | |]; try apply yields_raise.
  apply (yields_bind_with Vocabulary.is_object).
  - unfold ID_cls. repeat yields_step.
  - intros self Hself. destruct self; try done; destruct retain; repeat yields_step.
Qed.

Lemma dispatch_new_object (cls : pyclass) (arg : pyval) (retain : bool) :
  yields Vocabulary.is_object (dispatch_new rt fuel call cls arg retain).
Proof.
  destruct cls; simpl.
  - unfold Selector___new__, address_new. repeat yields_step.
  - unfold Ivar___new__, plain___new__, address_new. repeat yields_step.
  - unfold Method___new__, plain___new__, address_new. repeat yields_step.
  - unfold Property___new__, plain___new__, address_new. repeat yields_step.
  - apply ID___new___object.
  - apply Class___new___object.
  - unfold MetaClass___new__, MetaClass_from_address, already_instance.
    repeat first [apply Class___new___object | apply MetaClass_from_name_object
                 | yields_step].
  - unfold Protocol___new__, Protocol_from_address, already_instance.
    repeat first [apply ID___new___object | yields_step].
Qed.

End ReturnsObject.

Lemma construct_object (rt : Runtime) (fuel : nat) (cls : pyclass) (arg : pyval)
    (retain : bool) :
  yields Vocabulary.is_object (construct rt fuel cls arg retain).
Proof.
  revert cls arg retain. induction fuel as [|n IH]; intros cls arg retain.
  - intros w v w' [=].
  - simpl. by apply dispatch_new_object.
Qed.



(** ** Formatting addresses *)

Lemma string_length_app (a b : string) :
  String.length (a +:+ b) = String.length a + String.length b.
Proof. induction a as [|c a IH]; simpl; [reflexivity | congruence]. Qed.

Lemma zeros_length (k : nat) : String.length (zeros k) = k.
Proof. induction k as [|k IH]; simpl; congruence. Qed.

Lemma parse_hex_zeros (k : nat) (s : string) :
  Vocabulary.parse_hex (zeros k +:+ s) 0 = Vocabulary.parse_hex s 0.
Proof.
  induction k as [|k IH]; [done|].
  change (zeros (S k) +:+ s) with (String "0"%char (zeros k +:+ s)). exact IH.
Qed.

Lemma hex_value_digit (d : Z) :
  (0 <= d < 16)%Z -> Vocabulary.hex_value (hex_digit d) = Some d.
Proof.
  intros Hd.
  assert (d = 0 \/ d = 1 \/ d = 2 \/ d = 3 \/ d = 4 \/ d = 5 \/ d = 6 \/ d = 7
          \/ d = 8 \/ d = 9 \/ d = 10 \/ d = 11 \/ d = 12 \/ d = 13 \/ d = 14
          \/ d = 15)%Z as H by lia.
  repeat (destruct H as [->|H]; [reflexivity|]). by subst d.
Qed.

Lemma pow16_succ (k : nat) : (16 ^ Z.of_nat (S k) = 16 * 16 ^ Z.of_nat k)%Z.
Proof. rewrite Nat2Z.inj_succ. apply Z.pow_succ_r. lia. Qed.

Lemma pow16_pos (k : nat) : (0 < 16 ^ Z.of_nat k)%Z.
Proof. apply Z.pow_pos_nonneg; lia. Qed.

(** Reading the digits written for [n] back adds [n] to what was read. *)
Lemma parse_hex_digits (fuel : nat) :
  forall n acc, (0 <= n < 16 ^ Z.of_nat fuel)%Z ->
    Vocabulary.parse_hex (hex_digits fuel n acc) 0 = Vocabulary.parse_hex acc n.
Proof.
  induction fuel as [|f IH]; intros n acc Hn.
  - simpl in Hn. by replace n with 0%Z by lia.
  - rewrite pow16_succ in Hn.
    pose proof (Z.div_mod n 16 ltac:(lia)) as Hdm.
    pose proof (Z.mod_pos_bound n 16 ltac:(lia)) as Hm.
    simpl hex_digits. destruct (Z.eqb_spec (n / 16) 0) as [Hq|Hq].
    + simpl. rewrite hex_value_digit by done. f_equal. lia.
    + rewrite IH by (split; [apply Z.div_pos; lia | apply Z.div_lt_upper_bound; lia]).
      simpl. rewrite hex_value_digit by done. f_equal. lia.
Qed.

(** The number of digits written for [n]: the least [k >= 1] with
    [n < 16 ^ k]. *)
Lemma hex_digits_length (fuel : nat) :
  forall n acc, (0 <= n < 16 ^ Z.of_nat (S fuel))%Z ->
    exists k, String.length (hex_digits (S fuel) n acc) = k + String.length acc
              /\ 1 <= k /\ (n < 16 ^ Z.of_nat k)%Z
              /\ (k = 1 \/ (16 ^ Z.of_nat (k - 1) <= n)%Z).
Proof.
  induction fuel as [|f IH]; intros n acc Hn;
    rewrite pow16_succ in Hn;
    pose proof (Z.div_mod n 16 ltac:(lia)) as Hdm;
    pose proof (Z.mod_pos_bound n 16 ltac:(lia)) as Hm;
    change (hex_digits (S ?g) n acc) with
      (if Z.eqb (n / 16) 0 then String (hex_digit (n mod 16)) acc
       else hex_digits g (n / 16) (String (hex_digit (n mod 16)) acc));
    destruct (Z.eqb_spec (n / 16) 0) as [Hq|Hq];
    try (exists 1; simpl; split_and!; [done | lia | lia | by left]).
  - destruct (IH (n / 16)%Z (String (hex_digit (n mod 16)) acc))
      as (k & Hlen & Hk & Hlt & Hge).
    { split; [apply Z.div_pos; lia | apply Z.div_lt_upper_bound; lia]. }
    assert (0 < n / 16)%Z as Hqpos
      by (pose proof (Z.div_pos n 16 ltac:(lia) ltac:(lia)); lia).
    exists (S k). split_and!.
    + rewrite Hlen. simpl. lia.
    + lia.
    + rewrite pow16_succ. lia.
    + right. replace (S k - 1) with k by lia.
      destruct Hge as [->|Hge]; [simpl; lia|].
      replace k with (S (k - 1)) by lia. rewrite pow16_succ.
      replace (S (k - 1) - 1) with (k - 1) in Hge by lia. lia.
Qed.

Lemma format_x_fuel (n : Z) :
  (0 <= n)%Z -> (0 <= n < 16 ^ Z.of_nat (S (Z.to_nat (Z.log2 n))))%Z.
Proof.
  intros Hn. split; [done|].
  destruct (Z.eq_dec n 0%Z) as [->|Hne]; [done|].
  pose proof (Z.log2_spec n ltac:(lia)) as [_ Hlt].
  pose proof (Z.log2_nonneg n) as Hl.
  rewrite Nat2Z.inj_succ, Z2Nat.id by done.
  eapply Z.lt_le_trans; [exact Hlt|].
  apply Z.pow_le_mono_l. lia.
Qed.

Lemma format_0x_spec (width : nat) (z : Z) :
  (0 <= z)%Z -> 1 <= width ->
  Vocabulary.parse_hex (format_0x width z) 0 = Some z
  /\ width <= String.length (format_0x width z)
  /\ ((z < 16 ^ Z.of_nat width)%Z <-> String.length (format_0x width z) = width).
Proof.
  intros Hz Hw. unfold format_0x.
  replace (z <? 0)%Z with false by (symmetry; apply Z.ltb_ge; lia).
  rewrite Z.abs_eq by done.
  change (String.length "") with 0. rewrite Nat.sub_0_r.
  change ("" +:+ ?x) with x.
  unfold format_x.
  destruct (hex_digits_length _ z "" (format_x_fuel z Hz)) as (k & Hlen & Hk & Hlt & Hge).
  pose proof (format_x_fuel z Hz) as Hfuel.
  change (String.length "") with 0 in Hlen. rewrite Nat.add_0_r in Hlen.
  split_and!.
  - rewrite parse_hex_zeros, parse_hex_digits by exact Hfuel. done.
  - rewrite string_length_app, zeros_length, Hlen. lia.
  - rewrite string_length_app, zeros_length, Hlen. split.
    + intros Hlt'. destruct (decide (k <= width)) as [|Hgt]; [lia|].
      destruct Hge as [->|Hge]; [lia|].
      assert (16 ^ Z.of_nat width <= 16 ^ Z.of_nat (k - 1))%Z
        by (apply Z.pow_le_mono_r; lia).
      lia.
    + intros Hlen'.
      assert (16 ^ Z.of_nat k <= 16 ^ Z.of_nat width)%Z
        by (apply Z.pow_le_mono_r; lia).
      lia.
Qed.

(** X5. [format_address] of a non-negative int is [0x] followed by its
    lower-case hexadecimal digits, never truncated: reading the text back
    gives the address, the text has at least [2 + width] characters (16
    digits on LP64, 8 otherwise), and exactly that many when the address is
    below [16 ^ width].  A pointer cdata is reduced modulo the size of
    [uintptr_t] first, so its text always has exactly [2 + width]
    characters. *)
Theorem format_address_round_trip (LP64 : bool) :
  (forall z, (0 <= z)%Z ->
     exists s, format_address LP64 (VInt z) = Some s
               /\ Vocabulary.parse_address s = Some z
               /\ 2 + address_width LP64 <= String.length s
               /\ ((z < 16 ^ Z.of_nat (address_width LP64))%Z
                   <-> String.length s = 2 + address_width LP64))
  /\ (forall t a,
        exists s, format_address LP64 (VCData (CPointer t) a) = Some s
                  /\ Vocabulary.parse_address s = Some (a mod 2 ^ uintptr_bits LP64)%Z
                  /\ String.length s = 2 + address_width LP64).
Proof.
  assert (1 <= address_width LP64) as Hw by (destruct LP64; simpl; lia).
  split.
  - intros z Hz. eexists. split; [reflexivity|].
    destruct (format_0x_spec (address_width LP64) z Hz Hw) as (H1 & H2 & H3).
    change ("0x" +:+ ?x) with (String "0"%char (String "x"%char x)).
    simpl. split_and!; [done | lia |]. rewrite H3. lia.
  - intros t a. eexists. split; [reflexivity|].
    assert (0 <= a mod 2 ^ uintptr_bits LP64 < 16 ^ Z.of_nat (address_width LP64))%Z as Hr.
    { destruct LP64; simpl uintptr_bits; simpl address_width.
      - apply (Z.mod_pos_bound a (2 ^ 64)). lia.
      - apply (Z.mod_pos_bound a (2 ^ 32)). lia. }
    destruct (format_0x_spec (address_width LP64) _ (proj1 Hr) Hw) as (H1 & H2 & H3).
    change ("0x" +:+ ?x) with (String "0"%char (String "x"%char x)).
    simpl. split; [done|]. do 2 f_equal. apply H3, Hr.
Qed.

(** The address [0x1f] on a 32-bit target, and one beyond 32 bits. *)
Lemma format_address_round_trip_witness :
  (exists s, format_address false (VInt 31) = Some s
             /\ Vocabulary.parse_address s = Some 31%Z
             /\ 2 + address_width false <= String.length s
             /\ ((31 < 16 ^ Z.of_nat (address_width false))%Z
                 <-> String.length s = 2 + address_width false))
  /\ format_address false (VInt 31) = Some "0x0000001f"
  /\ format_address false (VInt 4294967296) = Some "0x100000000".
Proof.
  split; [|split; reflexivity].
  apply (proj1 (format_address_round_trip false) 31%Z). lia.
Defined.

(** ** When the converter succeeds *)

(** Induction on an encoded type that reaches the types of the fields. *)
Lemma BaseType_fields_ind (P : encoding.BaseType -> Prop) :
  (forall t, P t -> P (encoding.QualifiedType t)) ->
  P encoding.UnknownType -> P encoding.Void -> (forall s, P (encoding.Scalar s)) ->
  (forall t, P t -> P (encoding.Pointer t)) ->
  P encoding.ID -> P encoding.Class -> P encoding.Selector ->
  (forall t n, P t -> P (encoding.Array t n)) ->
  (forall name fields,
     match fields with
     | Some fs => Forall (fun f => P (snd f)) fs
     | None => True
     end -> P (encoding.Struct name fields)) ->
  (forall name fields,
     match fields with
     | Some fs => Forall (fun f => P (snd f)) fs
     | None => True
     end -> P (encoding.Union name fields)) ->
  (forall width, P (encoding.BitField width)) ->
  (forall name t, P t -> P (encoding.Field name t)) ->
  forall tp, P tp.
Proof.
  intros HQ HU HV HS HP HI HC HSel HA HSt HUn HB HF.
  fix IH 1.
  intros [t| | |s|t| | | |t n|name fields|name fields|width|name t].
  - apply HQ, IH.
  - exact HU.
  - exact HV.
  - apply HS.
  - apply HP, IH.
  - exact HI.
  - exact HC.
  - exact HSel.
  - apply HA, IH.
  - apply HSt. destruct fields as [fs|]; [|exact I]. clear name. revert fs.
    fix IHfs 1. intros [|[n t] fs]; constructor; [apply IH | apply IHfs].
  - apply HUn. destruct fields as [fs|]; [|exact I]. clear name. revert fs.
    fix IHfs 1. intros [|[n t] fs]; constructor; [apply IH | apply IHfs].
  - apply HB.
  - apply HF, IH.
Qed.

Lemma fields_to_cffi_outcome (fs : list (option string * encoding.BaseType)) :
  Forall (fun f => conversion_outcome (_encoding_type_to_cffi (snd f))
                     (Vocabulary.convertible (snd f))) fs ->
  forall i,
    match fields_to_cffi _encoding_type_to_cffi i fs with
    | Ok _ =>
        forallb (fun f : option string * encoding.BaseType =>
                   let '(_, t) := f in
                   Vocabulary.is_BitField t || Vocabulary.convertible t) fs = true
    | Raise e =>
        e = TypeError MInternalType
        /\ forallb (fun f : option string * encoding.BaseType =>
                      let '(_, t) := f in
                      Vocabulary.is_BitField t || Vocabulary.convertible t) fs = false
    | Hang => False
    end.
Proof.
  induction 1 as [|[fname ftype] fs Hf Hfs IH]; intros i; [done|].
  change (fields_to_cffi _encoding_type_to_cffi i ((fname, ftype) :: fs)) with
    (let* field_decl :=
       field_to_cffi _encoding_type_to_cffi
         (match fname with None => "_field_" +:+ pretty i | Some n => n end) ftype in
     let* rest := fields_to_cffi _encoding_type_to_cffi (S i) fs in
     Ok (field_decl :: rest)).
  specialize (IH (S i)). simpl in Hf. simpl forallb.
  assert (match field_to_cffi _encoding_type_to_cffi
                  (match fname with None => "_field_" +:+ pretty i | Some n => n end) ftype
          with
          | Ok _ => Vocabulary.is_BitField ftype || Vocabulary.convertible ftype = true
          | Raise e => e = TypeError MInternalType
                       /\ Vocabulary.is_BitField ftype || Vocabulary.convertible ftype = false
          | Hang => False
          end) as Hfield.
  { destruct (Vocabulary.is_BitField ftype) eqn:Hb.
    - destruct ftype; try discriminate Hb. unfold field_to_cffi.
      by destruct (Z.eqb _ 1).
    - set (nm := match fname with None => "_field_" +:+ pretty i | Some n => n end).
      assert (field_to_cffi _encoding_type_to_cffi nm ftype =
              let* t := _encoding_type_to_cffi ftype in Ok (nm, t, None)) as ->
        by (destruct ftype; try reflexivity; discriminate Hb).
      unfold conversion_outcome in Hf. rewrite orb_false_l.
      by destruct (_encoding_type_to_cffi ftype) as [t0|e|]. }
  destruct (field_to_cffi _ _ ftype) as [d|e|]; simpl;
    [|by destruct Hfield as [-> ->] | done].
  destruct (fields_to_cffi _encoding_type_to_cffi (S i) fs) as [rest|e|]; simpl.
  - by rewrite Hfield, IH.
  - destruct IH as [-> ->]. by rewrite andb_false_r.
  - done.
Qed.

Lemma _encoding_type_to_cffi_outcome (tp : encoding.BaseType) :
  conversion_outcome (_encoding_type_to_cffi tp) (Vocabulary.convertible tp).
Proof.
  induction tp as [t IH| | |s|t IH| | | |t n IH|name fields IH|name fields IH|width|name t IH]
    using BaseType_fields_ind; try done.
  - simpl. unfold conversion_outcome in *.
    by destruct (_encoding_type_to_cffi t) as [t0|e|].
  - simpl. unfold conversion_outcome in *.
    by destruct (_encoding_type_to_cffi t) as [t0|e|].
  - simpl. unfold aggregate_to_cffi.
    destruct fields as [fs|]; [|by destruct name].
    pose proof (fields_to_cffi_outcome fs IH 0) as Hfs.
    assert (forall r : res ctype, match name with Some _ | None => r end = r) as Hname
      by (intros; by destruct name).
    destruct (fields_to_cffi _encoding_type_to_cffi 0 fs) as [cfs|e|];
      destruct name; simpl; done.
  - simpl. unfold aggregate_to_cffi.
    destruct fields as [fs|]; [|by destruct name].
    pose proof (fields_to_cffi_outcome fs IH 0) as Hfs.
    destruct (fields_to_cffi _encoding_type_to_cffi 0 fs) as [cfs|e|];
      destruct name; simpl; done.
Qed.


(** ** Chained mappings in general *)

Lemma getitem_first_spec {K V : Type} (ms : list (Mapping K V)) (key : K) (v : V) :
  getitem_first ms key = Some v <->
  exists i m, ms !! i = Some m /\ m_getitem m key = Some v
              /\ forall j m', j < i -> ms !! j = Some m' -> m_getitem m' key = None.
Proof.
  induction ms as [|m0 ms IH]; simpl.
  - split; [done|]. by intros (i & m & Hi & _).
  - destruct (m_getitem m0 key) as [v0|] eqn:E0.
    + split.
      * intros [= <-]. exists 0, m0. split_and!; [done | done | lia].
      * intros ([|i] & m & Hi & Hv & Hbefore).
        -- simpl in Hi. injection Hi as <-. congruence.
        -- specialize (Hbefore 0 m0 ltac:(lia) eq_refl). congruence.
    + rewrite IH. split.
      * intros (i & m & Hi & Hv & Hbefore). exists (S i), m. split_and!; [done | done |].
        intros [|j] m' Hj Hm'; simpl in Hm'; [by injection Hm' as <-|].
        apply (Hbefore j m'); [lia | done].
      * intros ([|i] & m & Hi & Hv & Hbefore).
        -- simpl in Hi. injection Hi as <-. congruence.
        -- exists i, m. split_and!; [done | done |].
           intros j m' Hj Hm'. apply (Hbefore (S j) m'); [lia | done].
Qed.

Lemma dict_consistent {K V : Type} `{EqDecision K} (items : list (K * V)) :
  Vocabulary.consistent (dict items).
Proof. intros key. simpl. apply bool_decide_eq_true. Qed.

(** X7. A subscript on a chain answers with the entry of the first mapping,
    in the chain's search order, that has the key, and fails when none has
    it; when [in] and the subscript agree on every constituent mapping, they
    agree on the chain. *)
Theorem MappingChain_getitem_first {K V : Type} `{EqDecision K}
    (c : MappingChain K V) (key : K) :
  (forall v,
     MappingChain___getitem__ c key = Some v <->
     exists i m, _mappings c !! i = Some m /\ m_getitem m key = Some v
                 /\ forall j m', j < i -> _mappings c !! j = Some m' ->
                       m_getitem m' key = None)
  /\ (Forall Vocabulary.consistent (_mappings c) ->
      (MappingChain___contains__ c key = true
       <-> is_Some (MappingChain___getitem__ c key))).
Proof.
  split; [intros v; apply getitem_first_spec|].
  unfold MappingChain___contains__, MappingChain___getitem__.
  induction 1 as [|m ms Hm Hms IH]; simpl.
  - split; [done | by intros [? ?]].
  - rewrite orb_true_iff, IH, (Hm key).
    destruct (m_getitem m key) as [v|]; split; eauto.
    + intros [[? [=]]|?]; done.
Qed.

(** The view of [Leaf] of the demo: the key ["y"] is found and contained. *)
Lemma MappingChain_getitem_first_witness :
  exists c,
    inherited_view Demo.leaf_declared [Demo.mid_declared; Demo.root_declared] = Chain c
    /\ (MappingChain___contains__ c "y" = true
        <-> is_Some (MappingChain___getitem__ c "y")).
Proof.
  exists {| _mappings := [Demo.leaf_declared; Demo.root_declared; Demo.mid_declared] |}.
  split; [reflexivity|].
  apply (proj2 (MappingChain_getitem_first
                  {| _mappings := [Demo.leaf_declared; Demo.root_declared;
                                   Demo.mid_declared] |} "y")).
  repeat (constructor; [exact (dict_consistent _)|]). constructor.
Defined.

Section ChainKeys.

Context {K V : Type} `{EqDecision K}.

Lemma iter_keys_complete (keys seen : list K) (k : K) :
  k ∈ keys -> k ∈ seen \/ k ∈ fst (iter_keys keys seen).
Proof.
  revert seen. induction keys as [|key rest IH]; intros seen Hk; [by apply elem_of_nil in Hk|].
  simpl. case_bool_decide as Hin.
  - apply elem_of_cons in Hk as [->|Hk]; [by left | by apply IH].
  - simpl. apply elem_of_cons in Hk as [->|Hk]; [right; by left|].
    destruct (IH (key :: seen) Hk) as [Hs|Hf].
    + apply elem_of_cons in Hs as [->|Hs]; [right; by left | by left].
    + right. by right.
Qed.

Lemma iter_mappings_elem (ms : list (Mapping K V)) (seen : list K) (k : K) :
  k ∈ iter_mappings ms seen <-> (k ∉ seen) /\ exists m, m ∈ ms /\ k ∈ m_iter m.
Proof.
  revert seen. induction ms as [|m ms IH]; intros seen; simpl.
  - split; [by intros ?%elem_of_nil|]. intros (_ & m & Hm%elem_of_nil & _). done.
  - destruct (iter_keys_spec (m_iter m) seen) as (_ & H2 & H3).
    rewrite elem_of_app, IH. split.
    + intros [Hk|(Hk & m' & Hm' & Hkm')].
      * destruct (H2 k Hk). split; [done|]. exists m. split; [by left | done].
      * split; [intros Hs; apply Hk, H3; by right|].
        exists m'. split; [by right | done].
    + intros (Hk & m' & Hm' & Hkm').
      destruct (decide (k ∈ fst (iter_keys (m_iter m) seen))) as [Hf|Hf]; [by left|].
      right. split; [rewrite H3; tauto|].
      apply elem_of_cons in Hm' as [->|Hm']; [|by exists m'].
      destruct (iter_keys_complete _ seen k Hkm'); done.
Qed.

Lemma MappingChain_len_all_keys (c : MappingChain K V) :
  Forall Vocabulary.sized (_mappings c) ->
  MappingChain___len__ c = length (Vocabulary.all_keys c).
Proof.
  unfold MappingChain___len__, Vocabulary.all_keys.
  induction 1 as [|m ms Hm Hms IH]; simpl; [done|].
  rewrite length_app, IH, Hm. done.
Qed.

Lemma MappingChain_iter_elem (c : MappingChain K V) (k : K) :
  k ∈ MappingChain___iter__ c <-> k ∈ Vocabulary.all_keys c.
Proof.
  unfold MappingChain___iter__, Vocabulary.all_keys.
  rewrite iter_mappings_elem. split.
  - intros (_ & m & Hm & Hk). induction (_mappings c) as [|m0 ms IH];
      [by apply elem_of_nil in Hm|].
    simpl. apply elem_of_app. apply elem_of_cons in Hm as [->|Hm]; [by left | right; auto].
  - intros Hk. split; [by intros ?%elem_of_nil|].
    induction (_mappings c) as [|m0 ms IH]; [by apply elem_of_nil in Hk|].
    simpl in Hk. apply elem_of_app in Hk as [Hk|Hk].
    + exists m0. split; [by left | done].
    + destruct (IH Hk) as (m & Hm & Hkm). exists m. split; [by right | done].
Qed.

End ChainKeys.

(** X8. Iterating over a chain yields exactly the keys that its constituent
    mappings yield, each once.  Its length is the sum of their lengths, so
    it is never below the number of keys the iteration yields, and it
    equals that number exactly when no key is yielded twice over all the
    constituent mappings. *)
Theorem MappingChain_iter_and_len {K V : Type} `{EqDecision K} (c : MappingChain K V) :
  NoDup (MappingChain___iter__ c)
  /\ (forall k, k ∈ MappingChain___iter__ c <->
                exists m, m ∈ _mappings c /\ k ∈ m_iter m)
  /\ (Forall Vocabulary.sized (_mappings c) ->
      length (MappingChain___iter__ c) <= MappingChain___len__ c
      /\ (length (MappingChain___iter__ c) = MappingChain___len__ c
          <-> NoDup (Vocabulary.all_keys c))).
Proof.
  split_and!.
  - apply MappingChain_iter_NoDup.
  - intros k. unfold MappingChain___iter__. rewrite iter_mappings_elem.
    split; [by intros [_ ?] | intros ?; split; [by intros ?%elem_of_nil | done]].
  - intros Hsized. rewrite (MappingChain_len_all_keys c Hsized).
    assert (MappingChain___iter__ c ⊆+ Vocabulary.all_keys c) as Hsub.
    { apply NoDup_submseteq; [apply MappingChain_iter_NoDup|].
      intros k. by rewrite MappingChain_iter_elem. }
    split; [by apply submseteq_length|]. split.
    + intros Hlen.
      rewrite <- (submseteq_length_Permutation _ _ Hsub ltac:(lia)).
      apply MappingChain_iter_NoDup.
    + intros Hnd. apply Permutation_length, NoDup_Permutation;
        [apply MappingChain_iter_NoDup | done | apply MappingChain_iter_elem].
Qed.

(** On the view of [Leaf] of the demo, where ["x"] is declared twice: four
    keys, length five. *)
Lemma MappingChain_iter_and_len_witness :
  let c := {| _mappings := [Demo.leaf_declared; Demo.root_declared; Demo.mid_declared] |} in
  length (MappingChain___iter__ c) <= MappingChain___len__ c
  /\ (length (MappingChain___iter__ c) = MappingChain___len__ c
      <-> NoDup (Vocabulary.all_keys c)).
Proof.
  intros c.
  apply (proj2 (proj2 (MappingChain_iter_and_len c))).
  repeat (constructor; [reflexivity|]). constructor.
Defined.

Section ViewOrder.

Context {K V : Type} `{EqDecision K}.

Lemma chain_order_shape (supers : list (Mapping K V)) :
  forall declared,
    exists others, Spec.chain_order declared supers = declared :: others
                   /\ others ≡ₚ supers.
Proof.
  induction supers as [|s rest IH]; intros declared; simpl; [by exists []|].
  destruct (IH s) as (others & -> & Hperm).
  exists (rev others ++ [s]). split; [done|].
  rewrite <- Permutation_cons_append. constructor. by rewrite <- Permutation_rev.
Qed.

Lemma getitem_first_app (l1 l2 : list (Mapping K V)) (key : K) :
  getitem_first (l1 ++ l2) key =
    match getitem_first l1 key with
    | Some v => Some v
    | None => getitem_first l2 key
    end.
Proof.
  induction l1 as [|m l1 IH]; simpl; [done|]. by destruct (m_getitem m key).
Qed.

Lemma getitem_first_elem (l : list (Mapping K V)) (key : K) :
  match getitem_first l key with
  | Some v => exists m, m ∈ l /\ m_getitem m key = Some v
  | None => forall m, m ∈ l -> m_getitem m key = None
  end.
Proof.
  induction l as [|m0 l IH]; simpl; [by intros m ?%elem_of_nil|].
  destruct (m_getitem m0 key) as [v|] eqn:E.
  - exists m0. split; [by left | done].
  - destruct (getitem_first l key) as [v|].
    + destruct IH as (m & Hm & Hv). exists m. split; [by right | done].
    + intros m [->|Hm]%elem_of_cons; auto.
Qed.

Lemma inherited_view_shape (declared s : Mapping K V) (rest : list (Mapping K V)) :
  exists c middle,
    inherited_view declared (s :: rest) = Chain c
    /\ _mappings c = declared :: middle ++ [s]
    /\ middle ≡ₚ rest.
Proof.
  pose proof (inherited_view_order (s :: rest) declared) as Hord.
  destruct (inherited_view declared (s :: rest)) as [m|c] eqn:E.
  { by destruct Hord as [? _]. }
  exists c. simpl in Hord.
  destruct (chain_order_shape rest s) as (others & Ho & Hperm). rewrite Ho in Hord.
  exists (rev others). split; [done|]. split; [done|]. by rewrite <- Permutation_rev.
Qed.

End ViewOrder.



(** ** The walk of [_is_protocol] *)

Lemma on_chain_step (rt : Runtime) (target cls : addr) :
  cls <> NULL -> cls <> target ->
  Vocabulary.on_chain rt target cls
  <-> Vocabulary.on_chain rt target (class_getSuperclass rt cls).
Proof.
  intros Hnull Hne. split.
  - intros ([|i] & Hi & Hj); [done|].
    exists i. rewrite Nat.iter_succ_r in Hi. split; [done|].
    intros j Hle. specialize (Hj (S j) ltac:(lia)). by rewrite Nat.iter_succ_r in Hj.
  - intros (i & Hi & Hj). exists (S i). rewrite Nat.iter_succ_r. split; [done|].
    intros [|j] Hle; [done|]. rewrite Nat.iter_succ_r. apply Hj. lia.
Qed.

Lemma _is_protocol_loop_answer (rt : Runtime) (n : nat) :
  forall cls, Nat.iter n (class_getSuperclass rt) cls = NULL ->
    exists b,
      (forall fuel, n < fuel -> _is_protocol_loop rt fuel cls = Ok b)
      /\ (b = true <-> Vocabulary.on_chain rt (objc_getClass rt "Protocol") cls).
Proof.
  assert (forall fuel cls,
            _is_protocol_loop rt (S fuel) cls =
              if Z.eqb cls NULL then Ok false
              else if Z.eqb cls (objc_getClass rt "Protocol") then Ok true
              else _is_protocol_loop rt fuel (class_getSuperclass rt cls)) as Hstep
    by reflexivity.
  assert (forall target, ~ Vocabulary.on_chain rt target NULL) as Hnone.
  { intros target (i & _ & Hj). by apply (Hj 0); [lia|]. }
  induction n as [|n IH]; intros cls Hend.
  - simpl in Hend. subst cls. exists false. split.
    + intros [|fuel] Hf; [lia | done].
    + split; [done | intros H; by apply Hnone in H].
  - destruct (Z.eqb_spec cls NULL) as [->|Hnull].
    { exists false. split.
      - intros [|fuel] Hf; [lia | done].
      - split; [done | intros H; by apply Hnone in H]. }
    destruct (Z.eqb_spec cls (objc_getClass rt "Protocol")) as [Hp|Hp].
    { exists true. split.
      - intros [|fuel] Hf; [lia|]. rewrite Hstep.
        destruct (Z.eqb_spec cls NULL); [done|]. by rewrite Hp, Z.eqb_refl.
      - split; [|done]. intros _. exists 0. split; [done|].
        intros j Hj. by replace j with 0 by lia. }
    rewrite Nat.iter_succ_r in Hend.
    destruct (IH _ Hend) as (b & Hfuel & Hb). exists b. split.
    + intros [|fuel] Hf; [lia|]. rewrite Hstep.
      destruct (Z.eqb_spec cls NULL); [done|].
      destruct (Z.eqb_spec cls (objc_getClass rt "Protocol")); [done|].
      apply Hfuel. lia.
    + by rewrite Hb, <- on_chain_step.
Qed.

(** X10. Unlike [_objc_issubclass], the walk of [_is_protocol] advances and
    ends: when the chain of superclasses of the object's class reaches null
    after [n] steps, [_is_protocol] returns with any fuel above [n], and it
    answers true exactly when the class [Protocol] is met on the chain before
    its end. *)
Theorem is_protocol_walk (rt : Runtime) (n : nat) (ptr : addr) :
  Nat.iter n (class_getSuperclass rt) (object_getClass rt ptr) = NULL ->
  exists b,
    (forall fuel, n < fuel -> _is_protocol rt fuel ptr = Ok b)
    /\ (b = true <->
        Vocabulary.on_chain rt (objc_getClass rt "Protocol") (object_getClass rt ptr)).
Proof. intros Hend. by apply _is_protocol_loop_answer. Qed.

(** The protocol object at 2000 of the demo runtime: its class is
    [Protocol], two steps below the end of the chain. *)
Lemma is_protocol_walk_witness :
  exists b,
    (forall fuel, 2 < fuel -> _is_protocol Demo.rt fuel 2000 = Ok b)
    /\ (b = true <->
        Vocabulary.on_chain Demo.rt (objc_getClass Demo.rt "Protocol")
          (object_getClass Demo.rt 2000)).
Proof. apply (is_protocol_walk Demo.rt 2 2000). reflexivity. Defined.

(** ** Equality of proxies *)

Lemma ID___eq___value (p q : pid) (pr qr : proxy) (w : world) :
  heap w !! p = Some pr -> heap w !! q = Some qr ->
  issubclass (ob_type qr) ID = true ->
  ID___eq__ p (VProxy q) w = (Ok (Z.eqb (cdata pr) (cdata qr)), w).
Proof.
  intros Hp Hq Hid. unfold ID___eq__, mbind, isinstance, get_proxy, ret.
  cbv beta. rewrite Hq. cbv beta iota. rewrite Hid. cbv beta iota.
  rewrite Hp. cbv beta iota. by rewrite Hq.
Qed.

(** X11. Because proxies are interned, [ID.__eq__], which compares the
    wrapped addresses, coincides with identity on live proxies: in any state
    reached from the empty one by constructor calls and collections, two
    live proxies of the classes [ID], [Class] and [MetaClass], which all use
    [ID.__eq__] ([Protocol] has an [__eq__] of its own), compare equal
    exactly when they are the same object. *)
Theorem ID_eq_is_identity (rt : Runtime) (fuel : nat) (ops : list Spec.op)
    (p q : pid) (pr qr : proxy) :
  let w := Spec.run rt fuel ops empty_world in
  heap w !! p = Some pr -> heap w !! q = Some qr ->
  ob_type pr ∈ [ID; Class; MetaClass] -> ob_type qr ∈ [ID; Class; MetaClass] ->
  ID___eq__ p (VProxy q) w = (Ok (bool_decide (p = q)), w).
Proof.
  intros w Hp Hq Hpc Hqc.
  assert (issubclass (ob_type pr) ID = true) as Hpid
    by (repeat (apply elem_of_cons in Hpc as [->|Hpc]; [done|]); by apply elem_of_nil in Hpc).
  assert (issubclass (ob_type qr) ID = true) as Hqid
    by (repeat (apply elem_of_cons in Hqc as [->|Hqc]; [done|]); by apply elem_of_nil in Hqc).
  rewrite (ID___eq___value p q pr qr w Hp Hq Hqid). do 2 f_equal.
  assert (Spec.wf w) as (_ & W2 & _) by apply run_wf, empty_world_wf.
  pose proof (W2 _ _ Hp) as Hcp. pose proof (W2 _ _ Hq) as Hcq.
  rewrite cache_of_ID in Hcp by (by apply issubclass_ID_family).
  rewrite cache_of_ID in Hcq by (by apply issubclass_ID_family).
  case_bool_decide as Heq.
  - subst q. replace qr with pr by congruence. apply Z.eqb_refl.
  - apply Z.eqb_neq. intros Hc. rewrite Hc in Hcp. congruence.
Qed.

(** The instance proxy and the class proxy of [Demo.w_classes]. *)
Lemma ID_eq_is_identity_witness :
  ID___eq__ 0 (VProxy 1)
    (Spec.run Demo.rt Demo.fuel
       [Spec.New ID (VInt 1000) true; Spec.New Class (VStr "NSString") true] empty_world)
  = (Ok (bool_decide (0 = 1)),
     Spec.run Demo.rt Demo.fuel
       [Spec.New ID (VInt 1000) true; Spec.New Class (VStr "NSString") true] empty_world).
Proof.
  apply (ID_eq_is_identity Demo.rt Demo.fuel
           [Spec.New ID (VInt 1000) true; Spec.New Class (VStr "NSString") true] 0 1
           {| ob_type := ID; cdata := 1000; properties := ∅; class_slots := SlotsUnset |}
           {| ob_type := Class; cdata := 110; properties := ∅; class_slots := SlotsAll |});
    [by vm_compute | by vm_compute | simpl; set_solver | simpl; set_solver].
Defined.

(** ** The module proxies *)

(** X12. Looking a name up on [objc.classes] or [objc.protocols] never
    raises the constructor's [ValueError]: it is turned into an
    [AttributeError].  After a lookup that found a proxy the name is among
    the known names, and so in [dir]; after one that raised
    [AttributeError] it is not; no other name is ever added or dropped.  A
    name that the runtime does not know is such a failure, and it leaves the
    world as it was. *)
Theorem module_proxy_getattr (rt : Runtime) (fuel : nat) (wrap : pyclass)
    (known : gset string) (name : string) (w : world) :
  let '(r, known', w') := ModuleProxy___getattr__ rt fuel wrap known name w in
  (forall m, r <> LetThrough (ValueError m))
  /\ (forall v module_dir, r = Found v ->
        name ∈ known' /\ name ∈ ModuleProxy___dir__ module_dir known')
  /\ (forall m, r = NoAttribute m -> name ∉ known')
  /\ (forall n, n <> name -> n ∈ known' <-> n ∈ known)
  /\ (objc_getClass rt name = NULL ->
      _ClassModuleProxy___getattr__ rt (S (S fuel)) known name w
      = (NoAttribute (MNoClassNamed name), known ∖ {[name]}, w))
  /\ (objc_getProtocol rt name = NULL ->
      _ProtocolModuleProxy___getattr__ rt (S (S fuel)) known name w
      = (NoAttribute (MNoProtocolNamed name), known ∖ {[name]}, w)).
Proof.
  unfold ModuleProxy___getattr__, ModuleProxy___dir__.
  destruct (construct rt fuel wrap (VStr name) true w) as [[v|e|] w'].
  - split_and!; [done | set_solver | done | set_solver | |].
    + intros Hn. unfold _ClassModuleProxy___getattr__, ModuleProxy___getattr__.
      simpl. unfold mbind. simpl. by rewrite Hn.
    + intros Hn. unfold _ProtocolModuleProxy___getattr__, ModuleProxy___getattr__.
      simpl. unfold mbind. simpl. by rewrite Hn.
  - destruct e; (split_and!; [done | done | try done; set_solver | set_solver | |]).
    all: intros Hn;
      unfold _ClassModuleProxy___getattr__, _ProtocolModuleProxy___getattr__,
        ModuleProxy___getattr__;
      simpl; unfold mbind; simpl; by rewrite Hn.
  - split_and!; [done | done | done | done | |].
    all: intros Hn;
      unfold _ClassModuleProxy___getattr__, _ProtocolModuleProxy___getattr__,
        ModuleProxy___getattr__;
      simpl; unfold mbind; simpl; by rewrite Hn.
Qed.

(** The name [Nope], which the demo runtime does not know. *)
Lemma module_proxy_getattr_witness :
  _ClassModuleProxy___getattr__ Demo.rt (S (S Demo.fuel)) ∅ "Nope" empty_world
  = (NoAttribute (MNoClassNamed "Nope"), ∅ ∖ {["Nope"]}, empty_world).
Proof.
  pose proof (module_proxy_getattr Demo.rt Demo.fuel Class ∅ "Nope" empty_world) as H.
  destruct (ModuleProxy___getattr__ Demo.rt Demo.fuel Class ∅ "Nope" empty_world)
    as [[r known'] w'].
  destruct H as (_ & _ & _ & _ & H & _). apply H. reflexivity.
Defined.

(** ** Decoding a method's signature *)

Lemma convert_all_outcome (tps : list encoding.BaseType) :
  match convert_all tps with
  | Ok ts => Vocabulary.converted tps ts /\ forallb Vocabulary.convertible tps = true
  | Raise e => e = TypeError MInternalType /\ forallb Vocabulary.convertible tps = false
  | Hang => False
  end.
Proof.
  induction tps as [|tp tps IH]; simpl; [split; [constructor | done]|].
  pose proof (_encoding_type_to_cffi_outcome tp) as Htp. unfold conversion_outcome in Htp.
  destruct (_encoding_type_to_cffi tp) as [t|e|] eqn:E; simpl; [| |done].
  - destruct (convert_all tps) as [ts|e|]; simpl; [| |done].
    + destruct IH as [IH1 IH2]. split; [by constructor | by rewrite Htp, IH2].
    + destruct IH as [-> ->]. by rewrite andb_false_r.
  - by destruct Htp as [-> ->].
Qed.



(** ** The class of a proxy and the kind of what it wraps *)

Section Keeps.

Variable I : world -> Prop.

Lemma keeps_ret {A} (a : A) : keeps I (ret a).
Proof. by intros w r w' HI [= <- <-]. Qed.

Lemma keeps_raise {A} (e : exn) : keeps I (raise (A:=A) e).
Proof. by intros w r w' HI [= <- <-]. Qed.

Lemma keeps_lift {A} (x : res A) : keeps I (lift x).
Proof. by intros w r w' HI [= <- <-]. Qed.

Lemma keeps_bind {A B} (c : M A) (k : A -> M B) :
  keeps I c -> (forall a, keeps I (k a)) -> keeps I (mbind c k).
Proof.
  intros Hc Hk w r w' HI H. unfold mbind in H.
  destruct (c w) as [[a|e|] w1] eqn:E.
  - eapply Hk; [|exact H]. by eapply Hc.
  - injection H as <- <-. by eapply Hc.
  - injection H as <- <-. by eapply Hc.
Qed.

Lemma keeps_bind_lift {A B} (x : res A) (k : A -> M B) :
  (forall a, x = Ok a -> keeps I (k a)) -> keeps I (mbind (lift x) k).
Proof.
  intros Hk w r w' HI H. unfold mbind, lift in H.
  destruct x as [a|e|].
  - by eapply Hk.
  - by injection H as <- <-.
  - by injection H as <- <-.
Qed.

Lemma keeps_bind_raise {A B} (e : exn) (k : A -> M B) : keeps I (mbind (raise e) k).
Proof. by intros w r w' HI [= <- <-]. Qed.

Lemma keeps_except {A} (c h : M A) :
  keeps I c -> keeps I h -> keeps I (except_KeyError c h).
Proof.
  intros Hc Hh w r w' HI H. unfold except_KeyError in H.
  destruct (c w) as [[a|e|] w1] eqn:E.
  - injection H as <- <-. by eapply Hc.
  - destruct e; try (injection H as <- <-; by eapply Hc).
    eapply Hh; [|exact H]. by eapply Hc.
  - injection H as <- <-. by eapply Hc.
Qed.

End Keeps.

Section Kinds.

Variable rt : Runtime.
Variable fuel : nat.
Variable call : pyclass -> pyval -> bool -> M pyval.
Hypothesis Hcall : forall cls arg retain,
  keeps (Vocabulary.kinds_ok rt) (call cls arg retain).

Local Abbreviation K := (Vocabulary.kinds_ok rt).

Lemma keeps_heap_same {A} (c : M A) :
  (forall w r w', c w = (r, w') -> heap w' = heap w) -> keeps K c.
Proof. intros Hc w r w' HI H p pr. rewrite (Hc _ _ _ H). apply HI. Qed.

Lemma keeps_cache_getitem (cls : pyclass) (a : addr) : keeps K (cache_getitem cls a).
Proof.
  apply keeps_heap_same. intros w r w'. unfold cache_getitem.
  by destruct (cache_of cls w !! a); intros [= <- <-].
Qed.

Lemma keeps_cache_setitem (cls : pyclass) (a : addr) (p : pid) :
  keeps K (cache_setitem cls a p).
Proof. apply keeps_heap_same. by intros w r w' [= <- <-]. Qed.

Lemma keeps_get_proxy (p : pid) : keeps K (get_proxy p).
Proof.
  apply keeps_heap_same. intros w r w'. rewrite get_proxy_eq.
  by destruct (heap w !! p); intros [= <- <-].
Qed.

Lemma keeps_isinstance (p : pid) (cls : pyclass) : keeps K (isinstance p cls).
Proof. apply keeps_heap_same. by intros w r w' [= <- <-]. Qed.

Lemma keeps_emit (e : event) : keeps K (emit e).
Proof. apply keeps_heap_same. by intros w r w' [= <- <-]. Qed.

Lemma keeps_set_class_slots (p : pid) (st : slots_state) : keeps K (set_class_slots p st).
Proof.
  intros w r w' HI H. unfold set_class_slots in H.
  destruct (heap w !! p) as [pr|] eqn:Hpr; injection H as <- <-; [|done].
  intros q qr. simpl. rewrite lookup_insert. case_decide as Hq.
  - intros [= <-]. simpl. subst q. apply (HI _ _ Hpr).
  - apply HI.
Qed.

Lemma keeps_alloc (cls : pyclass) (a : addr) :
  Vocabulary.kind_matches rt cls a -> keeps K (alloc cls a).
Proof.
  intros Hk w r w' HI [= <- <-] q qr. simpl. rewrite lookup_insert. case_decide as Hq.
  - by intros [= <-].
  - apply HI.
Qed.

Ltac keeps_step :=
  first
    [ apply keeps_raise
    | apply keeps_ret
    | apply keeps_lift
    | apply Hcall
    | apply keeps_cache_getitem
    | apply keeps_cache_setitem
    | apply keeps_get_proxy
    | apply keeps_isinstance
    | apply keeps_emit
    | apply keeps_set_class_slots
    | apply keeps_except
    | apply keeps_bind; [|intros ?]
    | match goal with
      | |- keeps _ (if ?b then _ else _) => destruct b
      | |- keeps _ (match ?x with _ => _ end) => destruct x
      end ].

Lemma address_new_keeps (cls : pyclass) (valid : addr -> M unit) (a : addr) :
  Vocabulary.kind_matches rt cls a ->
  (forall b, keeps K (valid b)) ->
  keeps K (address_new cls valid a).
Proof.
  intros Hk Hv. unfold address_new.
  repeat first [apply Hv | apply (keeps_alloc _ _ Hk) | keeps_step].
Qed.

Lemma ID_intern_keeps (cls : pyclass) (a : addr) (retain : bool) :
  Vocabulary.kind_matches rt cls a -> keeps K (ID_intern cls a retain).
Proof.
  intros Hk. unfold ID_intern, _retain, _release.
  repeat first [apply (keeps_alloc _ _ Hk) | keeps_step].
Qed.

Lemma already_instance_keeps (p : pid) (retain : bool) :
  keeps K (already_instance p retain).
Proof. unfold already_instance, _release. repeat keeps_step. Qed.

Lemma ID_from_address_keeps (cls : pyclass) (a : addr) (retain : bool) :
  issubclass cls ID = true -> Vocabulary.tested rt cls a ->
  keeps K (ID_from_address rt fuel call cls a retain).
Proof.
  intros Hcls Hpre. unfold ID_from_address.
  destruct (Z.eqb a NULL); [apply keeps_ret|].
  destruct (negb (issubclass cls Class) && object_isClass rt a) eqn:Hc; [apply Hcall|].
  assert (forall proto : bool,
            (negb (issubclass cls Protocol) = true -> _is_protocol rt fuel a = Ok proto) ->
            (negb (issubclass cls Protocol) = false -> proto = false) ->
            keeps K (if proto then call Protocol (cast "Protocol *" a) retain
                     else ID_intern cls a retain)) as Hrest.
  { intros [|] Hp1 Hp2; [apply Hcall|]. apply ID_intern_keeps.
    destruct cls; try discriminate Hcls; simpl in *.
    - split; [done | exists fuel; by apply Hp1].
    - done.
    - done.
    - split; [done | done]. }
  destruct (negb (issubclass cls Protocol)) eqn:Hp.
  - apply keeps_bind_lift. intros proto Hproto. apply Hrest; [by intros _ | done].
  - intros w r w' HI H. unfold mbind, ret in H. cbv beta iota in H.
    by apply (Hrest false ltac:(intros [=]) ltac:(done) w r w' HI).
Qed.

Lemma ID___new___keeps (cls : pyclass) (arg : pyval) (retain : bool) :
  issubclass cls ID = true ->
  (forall a, as_address ID_CTYPES arg = Some a -> Vocabulary.tested rt cls a) ->
  keeps K (ID___new__ rt fuel call cls arg retain).
Proof.
  intros Hcls Hpre. unfold ID___new__.
  destruct arg; cbv beta iota;
    try (destruct (as_address ID_CTYPES _) as [a0|] eqn:Ha;
         [apply ID_from_address_keeps; [done | by apply Hpre] | apply keeps_raise]).
  all: repeat first [apply already_instance_keeps
                    | apply ID_from_address_keeps; [done | by apply Hpre]
                    | keeps_step].
Qed.

Lemma Class_init_slots_keeps (self : pyval) : keeps K (Class_init_slots rt call self).
Proof. unfold Class_init_slots, Class_superclass. repeat keeps_step. Qed.

Lemma Class_from_address_keeps (cls : pyclass) (a : addr) (retain : bool) :
  cls = Class \/ (cls = MetaClass /\ class_isMetaClass rt a = true) ->
  keeps K (Class_from_address rt fuel call cls a retain).
Proof.
  intros Hcls. unfold Class_from_address.
  destruct (Z.eqb a NULL); [apply keeps_ret|].
  destruct (object_isClass rt a) eqn:Hc; cbn [negb]; [|apply keeps_raise].
  destruct (negb (issubclass cls MetaClass) && class_isMetaClass rt a) eqn:Hm;
    [apply Hcall|].
  apply keeps_bind; [|intros self; apply Class_init_slots_keeps].
  apply ID___new___keeps; [by destruct Hcls as [->|[-> _]]|].
  intros b [= <-]. destruct Hcls as [->|[-> Hmeta]]; simpl in *; [|done].
  split; [done|]. by destruct (class_isMetaClass rt a).
Qed.

Lemma Class___new___keeps (cls : pyclass) (arg : pyval) (retain : bool) :
  cls = Class
  \/ (cls = MetaClass
      /\ forall a, as_address Class_CTYPES arg = Some a -> class_isMetaClass rt a = true) ->
  keeps K (Class___new__ rt fuel call cls arg retain).
Proof.
  intros Hcls. unfold Class___new__.
  destruct arg; cbv beta iota;
    try (destruct (as_address Class_CTYPES _) as [a0|] eqn:Ha;
         [apply Class_from_address_keeps; destruct Hcls as [->|[-> Hm]]; auto
         | apply keeps_raise]).
  all: repeat first [apply already_instance_keeps | keeps_step].
Qed.

Lemma dispatch_new_keeps (cls : pyclass) (arg : pyval) (retain : bool) :
  keeps K (dispatch_new rt fuel call cls arg retain).
Proof.
  destruct cls; simpl.
  - unfold Selector___new__.
    repeat first [apply address_new_keeps; [done | intros b] | keeps_step].
  - unfold Ivar___new__, plain___new__.
    repeat first [apply address_new_keeps; [done | intros b] | keeps_step].
  - unfold Method___new__, plain___new__.
    repeat first [apply address_new_keeps; [done | intros b] | keeps_step].
  - unfold Property___new__, plain___new__.
    repeat first [apply address_new_keeps; [done | intros b] | keeps_step].
  - by apply ID___new___keeps.
  - apply Class___new___keeps. by left.
  - unfold MetaClass___new__, MetaClass_from_name, ID_cls, _release.
    destruct arg; cbv beta iota;
      try (destruct (as_address Class_CTYPES _) as [a0|] eqn:Ha; [|apply keeps_raise];
           unfold MetaClass_from_address;
           destruct (Z.eqb a0 NULL); [apply keeps_ret|];
           destruct (object_isClass rt a0) eqn:Hc; cbn [negb orb]; [|apply keeps_raise];
           destruct (class_isMetaClass rt a0) eqn:Hm; cbn [negb orb]; [|apply keeps_raise];
           apply Class___new___keeps; right; split; [done|]; by intros b [= <-]).
    all: repeat first [apply already_instance_keeps | keeps_step].
  - unfold Protocol___new__.
    destruct arg; cbv beta iota;
      try (destruct (as_address Protocol_CTYPES _) as [a0|] eqn:Ha; [|apply keeps_raise];
           unfold Protocol_from_address;
           destruct (Z.eqb a0 NULL); [apply keeps_ret|];
           apply keeps_bind_lift; intros proto Hproto;
           destruct proto; cbn [negb]; [|apply keeps_raise];
           apply ID___new___keeps; [done|]; intros b [= <-]; by exists fuel).
    all: repeat first [apply already_instance_keeps | keeps_step].
Qed.

End Kinds.

Lemma construct_keeps_kinds (rt : Runtime) (fuel : nat) (cls : pyclass) (arg : pyval)
    (retain : bool) :
  keeps (Vocabulary.kinds_ok rt) (construct rt fuel cls arg retain).
Proof.
  revert cls arg retain. induction fuel as [|n IH]; intros cls arg retain.
  - by intros w r w' HI [= <- <-].
  - simpl. by apply dispatch_new_keeps.
Qed.

Lemma collect_keeps_kinds (rt : Runtime) (p : pid) (w : world) :
  Vocabulary.kinds_ok rt w -> Vocabulary.kinds_ok rt (collect p w).
Proof.
  intros HI q qr Hq. apply (HI q).
  destruct (decide (q = p)) as [->|Hne].
  - unfold collect in Hq. destruct (heap w !! p) as [pr|] eqn:Hp; [|by rewrite Hp in Hq].
    exfalso. revert Hq.
    repeat (case_match; simpl); rewrite ?lookup_delete_eq; done.
  - unfold collect in Hq. destruct (heap w !! p) as [pr|] eqn:Hp; [|done].
    revert Hq. repeat (case_match; simpl); by rewrite lookup_delete_ne.
Qed.

Lemma run_keeps_kinds (rt : Runtime) (fuel : nat) (ops : list Spec.op) (w : world) :
  Vocabulary.kinds_ok rt w -> Vocabulary.kinds_ok rt (Spec.run rt fuel ops w).
Proof.
  revert w. induction ops as [|o ops IH]; intros w HI; simpl; [done|].
  apply IH. destruct o as [cls arg retain | p]; simpl.
  - destruct (construct rt fuel cls arg retain w) as [r w'] eqn:E.
    by eapply construct_keeps_kinds.
  - by apply collect_keeps_kinds.
Qed.

(** X14. The class of a proxy fits the kind of what it wraps.  In any state
    reached from the empty one by constructor calls and collections, every
    live [MetaClass] proxy wraps a metaclass, every [Class] proxy a class
    that is no metaclass, every [Protocol] proxy an object that is no class
    and that [_is_protocol] recognises, and every plain [ID] proxy an object
    that is neither; and a constructor call that returns a proxy for an
    address returns one of the fitting class, whichever class of the family
    it was called on. *)
Theorem proxy_class_fits_kind (rt : Runtime) (fuel : nat) (ops : list Spec.op) :
  let w := Spec.run rt fuel ops empty_world in
  (forall p pr, heap w !! p = Some pr ->
     Vocabulary.kind_matches rt (ob_type pr) (cdata pr))
  /\ (forall fuel1 cls arg retain a p w1,
        Spec.arg_address arg = Some a ->
        construct rt fuel1 cls arg retain w = (Ok (VProxy p), w1) ->
        exists pr, heap w1 !! p = Some pr /\ cdata pr = a
                   /\ Vocabulary.kind_matches rt (ob_type pr) a).
Proof.
  intros w.
  assert (Vocabulary.kinds_ok rt w) as Hk.
  { apply run_keeps_kinds. intros p pr Hp. simpl in Hp. by rewrite lookup_empty in Hp. }
  assert (Spec.wf w) as Hwf by apply run_wf, empty_world_wf.
  split; [exact Hk|].
  intros fuel1 cls arg retain a p w1 Ha H.
  pose proof (construct_keeps_kinds rt fuel1 cls arg retain w _ w1 Hk H) as Hk1.
  destruct (construct_spec rt fuel1 cls arg retain w _ w1 Hwf H) as (_ & _ & Hres & _).
  destruct Hres as (pr & Hpr & _ & Hcd).
  exists pr. split; [done|]. rewrite <- (Hcd a Ha). split; [done|]. by apply (Hk1 p).
Qed.

(** [ID(110)] on the demo runtime, where 110 is the class [NSString]: the
    proxy returned wraps 110 and is a [Class]. *)
Lemma proxy_class_fits_kind_witness :
  (exists pr,
     heap (snd (construct Demo.rt Demo.fuel ID (VInt 110) true empty_world)) !! 0 = Some pr
     /\ cdata pr = 110%Z
     /\ Vocabulary.kind_matches Demo.rt (ob_type pr) 110)
  /\ ob_type <$> heap (snd (construct Demo.rt Demo.fuel ID (VInt 110) true empty_world)) !! 0
     = Some Class.
Proof.
  split; [|by vm_compute].
  apply (proj2 (proxy_class_fits_kind Demo.rt Demo.fuel []) Demo.fuel ID (VInt 110) true
           110%Z 0 (snd (construct Demo.rt Demo.fuel ID (VInt 110) true empty_world)));
    [reflexivity | by vm_compute].
Defined.

(** ** Lazy tables *)



(** ** Wrapping an instance always succeeds *)

(** X16. As the docstring of [ID.__new__] promises for a valid object
    pointer: in any state reached from the empty one, [ID] of a non-null
    address that is no class, whose class has a finite chain of superclasses
    without [Protocol] on it, returns a proxy whenever the fuel exceeds the
    length of that chain.  A cached proxy is returned as it is, with one
    [release] when [retain] is false; otherwise a new proxy is made, with
    one [retain] when [retain] is true. *)
Theorem ID_of_instance_succeeds (rt : Runtime) (fuel0 : nat) (ops : list Spec.op)
    (n : nat) (a : addr) (retain : bool) :
  let w := Spec.run rt fuel0 ops empty_world in
  a <> NULL -> object_isClass rt a = false ->
  Nat.iter n (class_getSuperclass rt) (object_getClass rt a) = NULL ->
  ~ Vocabulary.on_chain rt (objc_getClass rt "Protocol") (object_getClass rt a) ->
  forall fuel, n < fuel ->
    exists p w1,
      construct rt (S fuel) ID (VInt a) retain w = (Ok (VProxy p), w1)
      /\ match ID_cache w !! a with
         | Some q => p = q /\ log w1 = log w ++ (if retain then [] else [EvRelease a])
         | None => p = next_pid w /\ log w1 = log w ++ (if retain then [EvRetain a] else [])
         end.
Proof.
  intros w Ha Hobj Hend Hchain fuel Hfuel.
  assert (Spec.wf w) as Hwf by apply run_wf, empty_world_wf.
  destruct (_is_protocol_loop_answer rt n _ Hend) as (b & Hb & Hiff).
  assert (b = false) as -> by (destruct b; [by destruct Hchain; apply Hiff | done]).
  assert (_is_protocol rt fuel a = Ok false) as Hproto by (by apply Hb).
  assert (construct rt (S fuel) ID (VInt a) retain w = ID_intern ID a retain w) as ->.
  { change (construct rt (S fuel) ID (VInt a) retain w)
      with (ID_from_address rt fuel (construct rt fuel) ID a retain w).
    unfold ID_from_address. apply Z.eqb_neq in Ha. rewrite Ha, Hobj.
    change (negb (issubclass ID Class) && false) with false. cbv iota.
    change (negb (issubclass ID Protocol)) with true. cbv iota.
    unfold mbind, lift. by rewrite Hproto. }
  destruct (ID_cache w !! a) as [q|] eqn:Hc.
  - destruct (proj1 Hwf ID a q Hc) as (pr & Hpr & Hcd & _).
    exists q. eexists. split; [by apply (ID_intern_hit ID a retain w q pr)|].
    split; [done|]. destruct retain; simpl; by rewrite ?app_nil_r, ?Hcd.
  - exists (next_pid w). eexists. split; [by apply ID_intern_miss|].
    split; [done|]. unfold interned. destruct retain; simpl; by rewrite ?app_nil_r.
Qed.

(** [ID(1001)] on the demo runtime after [ID(1000)]: the [NSString]
    instance at 1001 has a chain of three classes. *)
Lemma ID_of_instance_succeeds_witness :
  exists p w1,
    construct Demo.rt (S 4) ID (VInt 1001) true
      (Spec.run Demo.rt Demo.fuel [Spec.New ID (VInt 1000) true] empty_world)
    = (Ok (VProxy p), w1)
    /\ match ID_cache (Spec.run Demo.rt Demo.fuel [Spec.New ID (VInt 1000) true] empty_world)
               !! 1001%Z with
       | Some q =>
           p = q
           /\ log w1 = log (Spec.run Demo.rt Demo.fuel [Spec.New ID (VInt 1000) true]
                              empty_world) ++ []
       | None =>
           p = next_pid (Spec.run Demo.rt Demo.fuel [Spec.New ID (VInt 1000) true]
                           empty_world)
           /\ log w1 = log (Spec.run Demo.rt Demo.fuel [Spec.New ID (VInt 1000) true]
                              empty_world) ++ [EvRetain 1001]
       end.
Proof.
  apply (ID_of_instance_succeeds Demo.rt Demo.fuel [Spec.New ID (VInt 1000) true] 3 1001%Z
           true); [done | reflexivity | reflexivity | | lia].
  intros (i & Hi & Hj).
  destruct i as [|[|[|i]]]; [discriminate Hi | discriminate Hi | discriminate Hi |].
  apply (Hj 3); [lia | reflexivity].
Defined.

(** ** Selectors *)

Section SelectorsMapped.

Variable rt : Runtime.
Variable fuel : nat.
Variable call : pyclass -> pyval -> bool -> M pyval.
Hypothesis Hcall : forall cls arg retain,
  keeps (Vocabulary.selectors_mapped rt) (call cls arg retain).

Local Abbreviation S := (Vocabulary.selectors_mapped rt).

Lemma keeps_selectors_same {A} (c : M A) :
  (forall w r w', c w = (r, w') -> Selector_cache w' = Selector_cache w) -> keeps S c.
Proof. intros Hc w r w' HI H a p. rewrite (Hc _ _ _ H). apply HI. Qed.

Lemma sel_cache_getitem (cls : pyclass) (a : addr) : keeps S (cache_getitem cls a).
Proof.
  apply keeps_selectors_same. intros w r w'. unfold cache_getitem.
  by destruct (cache_of cls w !! a); intros [= <- <-].
Qed.

Lemma sel_cache_setitem (cls : pyclass) (a : addr) (p : pid) :
  (cls = Selector -> sel_isMapped rt a = true) -> keeps S (cache_setitem cls a p).
Proof.
  intros Hm w r w' HI [= <- <-] b q. destruct cls; simpl; try apply HI.
  rewrite lookup_insert. case_decide as Hb; [intros _; subst b; by apply Hm | apply HI].
Qed.

Lemma sel_get_proxy (p : pid) : keeps S (get_proxy p).
Proof.
  apply keeps_selectors_same. intros w r w'. rewrite get_proxy_eq.
  by destruct (heap w !! p); intros [= <- <-].
Qed.

Lemma sel_isinstance (p : pid) (cls : pyclass) : keeps S (isinstance p cls).
Proof. apply keeps_selectors_same. by intros w r w' [= <- <-]. Qed.

Lemma sel_emit (e : event) : keeps S (emit e).
Proof. apply keeps_selectors_same. by intros w r w' [= <- <-]. Qed.

Lemma sel_alloc (cls : pyclass) (a : addr) : keeps S (alloc cls a).
Proof. apply keeps_selectors_same. by intros w r w' [= <- <-]. Qed.

Lemma sel_set_class_slots (p : pid) (st : slots_state) : keeps S (set_class_slots p st).
Proof.
  apply keeps_selectors_same. intros w r w'. unfold set_class_slots.
  by destruct (heap w !! p); intros [= <- <-].
Qed.

Ltac sel_step :=
  first
    [ apply keeps_raise
    | apply keeps_ret
    | apply keeps_lift
    | apply Hcall
    | apply sel_cache_getitem
    | apply sel_cache_setitem; discriminate
    | apply sel_get_proxy
    | apply sel_isinstance
    | apply sel_emit
    | apply sel_alloc
    | apply sel_set_class_slots
    | apply keeps_except
    | apply keeps_bind; [|intros ?]
    | match goal with
      | |- keeps _ (if ?b then _ else _) => destruct b eqn:?
      | |- keeps _ (match ?x with _ => _ end) => destruct x
      end ].

Lemma Selector_address_new_keeps (a : addr) :
  keeps S (address_new Selector
             (fun a => if sel_isMapped rt a then ret tt
                       else raise (ValueError (MNotASelector a))) a).
Proof.
  unfold address_new.
  destruct (Z.eqb a NULL); [apply keeps_ret|].
  apply keeps_except; [repeat sel_step|].
  apply keeps_except; [repeat sel_step|].
  destruct (sel_isMapped rt a) eqn:Hm.
  - apply keeps_bind; [apply keeps_ret|]. intros _.
    apply keeps_bind; [apply sel_alloc|]. intros self.
    apply keeps_bind; [by apply sel_cache_setitem|]. intros _. apply keeps_ret.
  - apply keeps_bind_raise.
Qed.

Lemma ID___new___keeps_selectors (cls : pyclass) (arg : pyval) (retain : bool) :
  issubclass cls ID = true ->
  keeps S (ID___new__ rt fuel call cls arg retain).
Proof.
  intros Hcls.
  assert (cls <> Selector) as Hne by (by intros ->).
  unfold ID___new__, ID_from_address, ID_intern, already_instance, _retain, _release.
  repeat first [apply sel_cache_setitem; done | sel_step].
Qed.

Lemma Class___new___keeps_selectors (cls : pyclass) (arg : pyval) (retain : bool) :
  issubclass cls ID = true ->
  keeps S (Class___new__ rt fuel call cls arg retain).
Proof.
  intros Hcls.
  unfold Class___new__, Class_from_address, Class_init_slots, Class_superclass,
    already_instance, _release.
  repeat first [by apply ID___new___keeps_selectors | sel_step].
Qed.

Lemma dispatch_new_keeps_selectors (cls : pyclass) (arg : pyval) (retain : bool) :
  keeps S (dispatch_new rt fuel call cls arg retain).
Proof.
  destruct cls; simpl.
  - unfold Selector___new__. repeat first [apply Selector_address_new_keeps | sel_step].
  - unfold Ivar___new__, plain___new__, address_new. repeat sel_step.
  - unfold Method___new__, plain___new__, address_new. repeat sel_step.
  - unfold Property___new__, plain___new__, address_new. repeat sel_step.
  - by apply ID___new___keeps_selectors.
  - by apply Class___new___keeps_selectors.
  - unfold MetaClass___new__, MetaClass_from_address, MetaClass_from_name, ID_cls,
      already_instance, _release.
    repeat first [by apply Class___new___keeps_selectors | sel_step].
  - unfold Protocol___new__, Protocol_from_address, already_instance, _release.
    repeat first [by apply ID___new___keeps_selectors | sel_step].
Qed.

End SelectorsMapped.

Lemma construct_keeps_selectors (rt : Runtime) (fuel : nat) (cls : pyclass) (arg : pyval)
    (retain : bool) :
  keeps (Vocabulary.selectors_mapped rt) (construct rt fuel cls arg retain).
Proof.
  revert cls arg retain. induction fuel as [|n IH]; intros cls arg retain.
  - by intros w r w' HI [= <- <-].
  - simpl. by apply dispatch_new_keeps_selectors.
Qed.

Lemma collect_keeps_selectors (rt : Runtime) (p : pid) (w : world) :
  Vocabulary.selectors_mapped rt w -> Vocabulary.selectors_mapped rt (collect p w).
Proof.
  intros HI a q Hq. apply (HI a q). revert Hq. unfold collect.
  destruct (heap w !! p) as [pr|]; [|done].
  destruct (ob_type pr); simpl; repeat case_match; simpl; try done;
    rewrite lookup_delete_Some; by intros [_ ?].
Qed.

Lemma run_keeps_selectors (rt : Runtime) (fuel : nat) (ops : list Spec.op) (w : world) :
  Vocabulary.selectors_mapped rt w ->
  Vocabulary.selectors_mapped rt (Spec.run rt fuel ops w).
Proof.
  revert w. induction ops as [|o ops IH]; intros w HI; simpl; [done|].
  apply IH. destruct o as [cls arg retain | p]; simpl.
  - destruct (construct rt fuel cls arg retain w) as [r w'] eqn:E.
    by eapply construct_keeps_selectors.
  - by apply collect_keeps_selectors.
Qed.

(** X17. [Selector] wraps mapped selectors only.  In any state reached from
    the empty one by constructor calls and collections, every cached
    [Selector] proxy wraps an address that [sel_isMapped] accepts; so
    [Selector] of a non-null address returns a proxy exactly when the
    address is mapped, the cached one if there is one and a new one
    otherwise, and for an address that is not mapped it raises the value
    error and leaves the world as it was. *)
Theorem Selector_wraps_mapped_only (rt : Runtime) (fuel0 : nat) (ops : list Spec.op)
    (fuel : nat) (a : addr) :
  let w := Spec.run rt fuel0 ops empty_world in
  a <> NULL ->
  (forall p, Selector_cache w !! a = Some p -> sel_isMapped rt a = true)
  /\ (sel_isMapped rt a = true ->
      construct rt (S fuel) Selector (VInt a) true w =
        match Selector_cache w !! a with
        | Some p => (Ok (VProxy p), w)
        | None => (Ok (VProxy (next_pid w)), interned Selector a false w)
        end)
  /\ (sel_isMapped rt a = false ->
      construct rt (S fuel) Selector (VInt a) true w
      = (Raise (ValueError (MNotASelector a)), w)).
Proof.
  intros w Ha.
  assert (Vocabulary.selectors_mapped rt w) as HS.
  { apply run_keeps_selectors. intros b p Hp. simpl in Hp. by rewrite lookup_empty in Hp. }
  apply Z.eqb_neq in Ha.
  assert (construct rt (S fuel) Selector (VInt a) true w =
          address_new Selector
            (fun a => if sel_isMapped rt a then ret tt
                      else raise (ValueError (MNotASelector a))) a w) as -> by reflexivity.
  unfold address_new. rewrite Ha.
  split_and!.
  - intros p. apply HS.
  - intros Hm. destruct (Selector_cache w !! a) as [p|] eqn:Hc;
      assert (cache_of Selector w !! a = Selector_cache w !! a) as Hc' by reflexivity;
      rewrite Hc in Hc';
      unfold except_KeyError, mbind, cache_getitem, ret, raise;
      cbv beta; rewrite Hc'; cbv beta iota; [done|].
    rewrite Hc', Hm. reflexivity.
  - intros Hm. destruct (Selector_cache w !! a) as [p|] eqn:Hc.
    + rewrite (HS a p Hc) in Hm. discriminate.
    + assert (cache_of Selector w !! a = None) as Hc' by exact Hc.
      unfold except_KeyError, mbind, cache_getitem, ret, raise.
      cbv beta. rewrite Hc'. cbv beta iota. rewrite Hc', Hm. reflexivity.
Qed.

(** The selector [description] at 5001 and the address 4242, which is no
    selector, on the demo runtime. *)
Lemma Selector_wraps_mapped_only_witness :
  construct Demo.rt (S Demo.fuel) Selector (VInt 5001) true
    (Spec.run Demo.rt Demo.fuel [Spec.New Selector (VInt 5001) true] empty_world)
  = (Ok (VProxy 0),
     Spec.run Demo.rt Demo.fuel [Spec.New Selector (VInt 5001) true] empty_world)
  /\ construct Demo.rt (S Demo.fuel) Selector (VInt 4242) true
       (Spec.run Demo.rt Demo.fuel [Spec.New Selector (VInt 5001) true] empty_world)
     = (Raise (ValueError (MNotASelector 4242)),
        Spec.run Demo.rt Demo.fuel [Spec.New Selector (VInt 5001) true] empty_world).
Proof.
  split.
  - apply (proj1 (proj2 (Selector_wraps_mapped_only Demo.rt Demo.fuel
                           [Spec.New Selector (VInt 5001) true] Demo.fuel 5001%Z
                           ltac:(done))));
      reflexivity.
  - apply (proj2 (proj2 (Selector_wraps_mapped_only Demo.rt Demo.fuel
                           [Spec.New Selector (VInt 5001) true] Demo.fuel 4242%Z
                           ltac:(done))));
      reflexivity.
Defined.
